(** * IPF allocation: a shallow embedding of [ipf_allocation.py]

    The script allocates rating-area enrollment to counties and then runs
    Iterative Proportional Fitting against two sets of control totals.

    Tables.  A DataFrame is the list of its rows, in row order; a column is
    the list obtained by mapping a field over the rows.

    Numbers.  The script computes in IEEE doubles, and the development
    embeds its numeric code twice.  The first embedding reads the
    arithmetic as the exact arithmetic of [Q]; it carries the properties of
    the control flow and of the shape of the tables: which loop bodies run,
    which rows come back and in which order, what the cleaning of the base
    table keeps.  Module [F64] embeds the cleaning of the county profiles,
    the initial allocation, the scaling steps, the convergence check and
    the loops once more in binary64, with rounding, overflow, infinities
    and NaN; every property about the values of the estimates is stated
    and proved there.

    Objects.  [run_ipf] assigns into DataFrames in place.  Module [F64]
    also has the loops on a store of objects, where an assignment changes
    the object it is made to, and relates them to the loops on values. *)

From Stdlib Require Import QArith Qabs Qminmax Lqa Lia ZArith List String Bool.
From Stdlib Require Import Permutation Sorted OrderedTypeEx SpecFloat.
Import ListNotations.

Local Open Scope Q_scope.

(** ** Data model *)

(** One row of the allocation table: the columns kept by
    [initial_allocation]. *)
Record cell : Type := mkCell {
  year : Z;
  county : string;
  rating_area : Z;
  insurer : string;
  plan : string;
  metal_tier : string;
  enrollment_est : Q
}.

Definition table : Type := list cell.

(** A group key of either scaling step: (insurer, county) or
    (metal_tier, county). *)
Definition key : Type := (string * string)%type.

Definition key_eqb (a b : key) : bool :=
  (String.eqb (fst a) (fst b) && String.eqb (snd a) (snd b))%bool.

(** [ic_keys = list(zip(df["insurer"], df["county"]))] *)
Definition ic_key (c : cell) : key := (insurer c, county c).

(** [mc_keys = list(zip(df["metal_tier"], df["county"]))] *)
Definition mc_key (c : cell) : key := (metal_tier c, county c).

(** A row of a cleaned control-total table ([county_insurer] with its
    [target_ic], or [county_metal] with its [target_mc]); [m_dim] is the
    insurer, respectively the metal tier. *)
Record margin_row : Type := mkMargin {
  m_year : Z;
  m_dim : string;
  m_county : string;
  m_target : Q
}.

(** A pandas Series indexed by a pair: [set_index([dim, "county"])[target]]. *)
Definition series : Type := list (key * Q).

Definition set_index (rows : list margin_row) : series :=
  map (fun r => ((m_dim r, m_county r), m_target r)) rows.

(** [Series.get(k, default)] on an index without duplicates
    ([F64.series_get] has the failure on a duplicated key). *)
Fixpoint series_get (s : series) (k : key) (default : Q) : Q :=
  match s with
  | [] => default
  | (k', v) :: s' => if key_eqb k' k then v else series_get s' k default
  end.

(** ** Columns and elementwise array operations *)

(** The double the literal [1e-10] denotes, [7737125245533627 * 2^-86]. *)
Definition eps : Q := 7737125245533627 # 77371252455336267181195264.

Definition Qgt_bool (x y : Q) : bool := negb (Qle_bool x y).
Definition Qlt_bool (x y : Q) : bool := Qgt_bool y x.

Definition Qsum (l : list Q) : Q := fold_right Qplus 0 l.

(** [df["enrollment_est"].values] *)
Definition est_values (df : table) : list Q := map enrollment_est df.

Definition with_est (c : cell) (v : Q) : cell :=
  mkCell (year c) (county c) (rating_area c) (insurer c) (plan c)
         (metal_tier c) v.

(** Elementwise combination of two arrays of the same length. *)
Fixpoint zip_with {A B C : Type} (f : A -> B -> C) (xs : list A)
  (ys : list B) : list C :=
  match xs, ys with
  | x :: xs', y :: ys' => f x y :: zip_with f xs' ys'
  | _, _ => []
  end.

(** [df["enrollment_est"] = values] *)
Definition assign_est (df : table) (values : list Q) : table :=
  zip_with with_est df values.

(** The sum of the estimates of the rows of [df] whose key is [k]. *)
Definition group_sum (by_key : cell -> key) (df : table) (k : key) : Q :=
  Qsum (est_values (filter (fun d => key_eqb (by_key d) k) df)).

(** [df.groupby(by)["enrollment_est"].transform("sum").values]: every row
    receives the sum of its own group. *)
Definition transform_sum (by_key : cell -> key) (df : table) : list Q :=
  map (fun c => group_sum by_key df (by_key c)) df.

(** One element of [np.where(group_sums > 1e-10, targets / group_sums, 0)]:
    the factor of a row, from the sum [s] and the target [t] of its group,
    the quotient taken exactly ([F64.factor_of] is the quotient in
    doubles). *)
Definition factor_of (s t : Q) : Q := if Qgt_bool s eps then t / s else 0.

(** [np.where(group_sums > 1e-10, targets / group_sums, 0)] *)
Definition where_factors (group_sums targets : list Q) : list Q :=
  zip_with factor_of group_sums targets.

(** One scaling step: group sums, factors, and the product written back
    into the estimate column. *)
Definition scale_step (by_key : cell -> key) (targets : list Q)
  (df : table) : table :=
  let group_sums := transform_sum by_key df in
  let factors := where_factors group_sums targets in
  assign_est df (zip_with Qmult (est_values df) factors).

(** [np.array([lookup.get(k, 0) for k in keys])] *)
Definition targets_of (lookup : series) (keys : list key) : list Q :=
  map (fun k => series_get lookup k 0) keys.

(** STEP A and STEP B of the loop body, with the target arrays computed
    once per year from the keys of [df]. *)
Definition step_A (ic_targets : list Q) (df : table) : table :=
  scale_step ic_key ic_targets df.

Definition step_B (mc_targets : list Q) (df : table) : table :=
  scale_step mc_key mc_targets df.

(** ** Convergence check *)

(** Boolean indexing [a[mask]]. *)
Fixpoint bool_index {A : Type} (a : list A) (mask : list bool) : list A :=
  match a, mask with
  | x :: a', b :: mask' =>
      if b then x :: bool_index a' mask' else bool_index a' mask'
  | _, _ => []
  end.

(** [ndarray.max()] of a non-empty array (numpy raises on an empty one;
    the only call is guarded by [nonzero.any()]). *)
Definition np_max (a : list Q) : Q :=
  match a with
  | [] => 0
  | x :: a' => fold_left Qmax a' x
  end.

Definition max_change_of (prev_est current_est : list Q) : Q :=
  let nonzero := map (fun p => Qgt_bool p eps) prev_est in
  if existsb (fun b => b) nonzero then
    np_max (zip_with (fun c p => Qabs (c - p) / p)
                     (bool_index current_est nonzero)
                     (bool_index prev_est nonzero))
  else 0.

(** ** The iteration loop of one year *)

(** The body of [for iteration in range(1, max_iter + 1)] up to the
    convergence test: the new table and its [max_change]. *)
Definition ipf_body (ic_targets mc_targets : list Q) (df : table)
  : table * Q :=
  let prev_est := est_values df in
  let df1 := step_A ic_targets df in
  let df2 := step_B mc_targets df1 in
  let current_est := est_values df2 in
  (df2, max_change_of prev_est current_est).

(** What the loop leaves behind for one year: the flag [converged], the
    number of loop bodies run, and [final_max_change] ([None] is the
    initial [np.inf]). *)
Record report : Type := mkReport {
  converged : bool;
  iterations_used : nat;
  final_max_change : option Q
}.

(** [remaining] loop bodies are still to run; [done] have been run. *)
Fixpoint ipf_loop (ic_targets mc_targets : list Q) (tol : Q)
  (remaining done : nat) (df : table) (final : option Q)
  : table * report :=
  match remaining with
  | O => (df, mkReport false done final)
  | S remaining' =>
      let '(df2, max_change) := ipf_body ic_targets mc_targets df in
      if Qlt_bool max_change tol
      then (df2, mkReport true (S done) (Some max_change))
      else ipf_loop ic_targets mc_targets tol remaining' (S done) df2
                    (Some max_change)
  end.

(** ** The loop over years *)

(** [sorted(alloc["year"].dropna().unique())]: insertion into an
    increasing list without repetition. *)
Fixpoint insert_year (y : Z) (l : list Z) : list Z :=
  match l with
  | [] => [y]
  | x :: l' =>
      if (y <? x)%Z then y :: l
      else if (y =? x)%Z then l
      else x :: insert_year y l'
  end.

Definition sorted_unique (l : list Z) : list Z :=
  fold_right insert_year [] l.

(** What one pass of [for yr in years] produces: the fitted table that is
    appended to [results], together with what the pass prints. *)
Record year_result : Type := mkYearResult {
  yr_year : Z;
  yr_df : table;
  yr_report : report
}.

(** [alloc[alloc["year"] == yr]] *)
Definition year_slice (alloc : table) (yr : Z) : table :=
  filter (fun c => (year c =? yr)%Z) alloc.

(** [targets[targets["year"] == yr].set_index([dim, "county"])[target]] *)
Definition year_lookup (targets : list margin_row) (yr : Z) : series :=
  set_index (filter (fun r => (m_year r =? yr)%Z) targets).

(** The body of [for yr in years]; [None] is the [continue] taken when the
    year has no rows. *)
Definition solve_year (alloc : table)
  (county_insurer county_metal : list margin_row)
  (max_iter : nat) (tol : Q) (yr : Z) : option year_result :=
  let df := year_slice alloc yr in
  match df with
  | [] => None
  | _ :: _ =>
      let ic_lookup := year_lookup county_insurer yr in
      let mc_lookup := year_lookup county_metal yr in
      let ic_keys := map ic_key df in
      let mc_keys := map mc_key df in
      let ic_targets := targets_of ic_lookup ic_keys in
      let mc_targets := targets_of mc_lookup mc_keys in
      let '(df', rep) :=
        ipf_loop ic_targets mc_targets tol max_iter 0 df None in
      Some (mkYearResult yr df' rep)
  end.

(** The loop over the years, threading the list [results]. *)
Fixpoint for_years (alloc : table)
  (county_insurer county_metal : list margin_row)
  (max_iter : nat) (tol : Q) (years : list Z)
  (results : list year_result) : list year_result :=
  match years with
  | [] => results
  | yr :: years' =>
      match solve_year alloc county_insurer county_metal max_iter tol yr with
      | None =>
          for_years alloc county_insurer county_metal max_iter tol years'
                    results
      | Some r =>
          for_years alloc county_insurer county_metal max_iter tol years'
                    (results ++ [r])
      end
  end.

(** [Series.clip(lower=0)] on one value. *)
Definition clip_lower0 (v : Q) : Q := if Qlt_bool v 0 then 0 else v.

(** [run_ipf]: [None] stands for the [ValueError] that [pd.concat] raises
    on an empty list of results. *)
Definition run_ipf (alloc : table)
  (county_insurer county_metal : list margin_row)
  (max_iter : nat) (tol : Q) : option table :=
  let years := sorted_unique (map year alloc) in
  let results :=
    for_years alloc county_insurer county_metal max_iter tol years [] in
  match results with
  | [] => None
  | _ :: _ =>
      let allocated := List.concat (map yr_df results) in
      Some (map (fun c => with_est c (clip_lower0 (enrollment_est c)))
                allocated)
  end.

(** ** Cleaning and the initial allocation *)

(** A row of a raw county profile; [raw_enrollees] is [None] where
    [pd.to_numeric(..., errors="coerce")] yields NaN. *)
Record raw_margin_row : Type := mkRawMargin {
  raw_year : Z;
  raw_dim : string;
  raw_county : string;
  raw_enrollees : option Q
}.

(** [pd.to_numeric(col, errors="coerce").fillna(0)] on one value. *)
Definition to_numeric_fillna0 (v : option Q) : Q :=
  match v with
  | Some q => q
  | None => 0
  end.

Definition same_group (a b : margin_row) : bool :=
  ((m_year a =? m_year b)%Z && String.eqb (m_dim a) (m_dim b)
   && String.eqb (m_county a) (m_county b))%bool.

Fixpoint add_to_groups (r : margin_row) (groups : list margin_row)
  : list margin_row :=
  match groups with
  | [] => [r]
  | g :: gs =>
      if same_group g r
      then mkMargin (m_year g) (m_dim g) (m_county g)
                    (m_target g + m_target r) :: gs
      else g :: add_to_groups r gs
  end.

(** [groupby([year, dim, county], as_index=False)[target].sum()]; the
    groups come in order of first occurrence (pandas sorts them, which no
    lookup depends on). *)
Definition groupby_sum (rows : list margin_row) : list margin_row :=
  fold_left (fun groups r => add_to_groups r groups) rows [].

(** The part of [clean_data] that builds [target_ic] / [target_mc]; the
    county names are taken as already upper-cased and stripped
    ([F64.clean_margin] normalises them and drops rows without a key). *)
Definition clean_margin (raw : list raw_margin_row) : list margin_row :=
  groupby_sum
    (map (fun r => mkMargin (raw_year r) (raw_dim r) (raw_county r)
                            (to_numeric_fillna0 (raw_enrollees r))) raw).

(** A row of the aggregated [base] table. *)
Record base_row : Type := mkBase {
  b_year : Z;
  b_rating_area : Z;
  b_insurer : string;
  b_plan : string;
  b_metal_tier : string;
  b_enrollment : Q
}.

(** A row of the cleaned crosswalk. *)
Record crosswalk_row : Type := mkCrosswalk {
  cw_county : string;
  cw_rating_area : Z;
  cw_weight : Q
}.

(** [crosswalk.groupby("rating_area")["county"].transform("count")] on
    the (county, rating_area) pairs of the crosswalk; every row carries a
    county name, so the count of a group is its number of rows. *)
Definition n_per_ra (pairs : list (string * Z)) : list nat :=
  map (fun p => List.length (filter (fun q => (snd q =? snd p)%Z) pairs)) pairs.

(** [crosswalk["weight"] = 1.0 / n_per_ra] on the cleaned (county, rating
    area) rows, the quotient taken exactly ([F64.crosswalk_weights] cleans
    the names and divides in doubles). *)
Definition crosswalk_weights (pairs : list (string * Z))
  : list crosswalk_row :=
  zip_with (fun p n => mkCrosswalk (fst p) (snd p) (1 / inject_Z (Z.of_nat n)))
           pairs (n_per_ra pairs).

(** [base.merge(crosswalk, on="rating_area", how="inner")] followed by
    [enrollment_est = enrollment * weight] and the column selection. *)
Definition initial_allocation (base : list base_row)
  (crosswalk : list crosswalk_row) : table :=
  flat_map
    (fun b =>
       map (fun w =>
              mkCell (b_year b) (cw_county w) (b_rating_area b) (b_insurer b)
                     (b_plan b) (b_metal_tier b)
                     (b_enrollment b * cw_weight w))
           (filter (fun w => (cw_rating_area w =? b_rating_area b)%Z)
                   crosswalk))
    base.

(** The key columns of a row: the row with its estimate blanked. *)
Definition key_columns (c : cell) : cell := with_est c 0.

(** The tables a run can pass through for one year: the year's slice
    [df0] and whatever Step A or Step B makes of a table already reached. *)
Inductive reached (ic_targets mc_targets : list Q) (df0 : table)
  : table -> Prop :=
| reached_start : reached ic_targets mc_targets df0 df0
| reached_A : forall df,
    reached ic_targets mc_targets df0 df ->
    reached ic_targets mc_targets df0 (step_A ic_targets df)
| reached_B : forall df,
    reached ic_targets mc_targets df0 df ->
    reached ic_targets mc_targets df0 (step_B mc_targets df).

(** The table after [n] loop bodies without the convergence test. *)
Fixpoint after_iterations (ic_targets mc_targets : list Q) (n : nat)
  (df : table) : table :=
  match n with
  | O => df
  | S n' =>
      fst (ipf_body ic_targets mc_targets
             (after_iterations ic_targets mc_targets n' df))
  end.

(** [max_change] of loop body [i] (counted from 1) of a run from [df]. *)
Definition delta_at (ic_targets mc_targets : list Q) (df : table)
  (i : nat) : Q :=
  snd (ipf_body ic_targets mc_targets
         (after_iterations ic_targets mc_targets (pred i) df)).

(** The factor Step A, respectively Step B, applies to row [c] of [df]. *)
Definition ic_factor (ic_lookup : series) (df : table) (c : cell) : Q :=
  factor_of (group_sum ic_key df (ic_key c))
            (series_get ic_lookup (ic_key c) 0).

Definition mc_factor (mc_lookup : series) (df : table) (c : cell) : Q :=
  factor_of (group_sum mc_key df (mc_key c))
            (series_get mc_lookup (mc_key c) 0).

Definition key_eq_dec (a b : key) : {a = b} + {a <> b}.
Proof. decide equality; apply string_dec. Defined.

(** The groups present in a table: the distinct keys of its rows. *)
Definition groups (by_key : cell -> key) (df : table) : list key :=
  nodup key_eq_dec (map by_key df).

(** How a call of the loop ends: [m] bodies were run, and either body [m]
    was the first to meet the tolerance, or all [remaining] bodies missed
    it. *)
Definition loop_outcome (ic_targets mc_targets : list Q) (tol : Q)
  (remaining done : nat) (df : table) (final : option Q)
  (out : table * report) (m : nat) : Prop :=
  fst out = after_iterations ic_targets mc_targets m df
  /\ iterations_used (snd out) = (done + m)%nat
  /\ (m <= remaining)%nat
  /\ ((converged (snd out) = true
       /\ (1 <= m)%nat
       /\ delta_at ic_targets mc_targets df m < tol
       /\ (forall j, (1 <= j < m)%nat ->
                     ~ delta_at ic_targets mc_targets df j < tol)
       /\ final_max_change (snd out)
          = Some (delta_at ic_targets mc_targets df m))
      \/ (converged (snd out) = false
          /\ m = remaining
          /\ (forall j, (1 <= j <= m)%nat ->
                        ~ delta_at ic_targets mc_targets df j < tol)
          /\ final_max_change (snd out)
             = match m with
               | O => final
               | S _ => Some (delta_at ic_targets mc_targets df m)
               end)).

(** The columns [base] is aggregated by in [clean_data]. *)
Definition base_key (b : base_row) : Z * Z * string * string * string :=
  (b_year b, b_rating_area b, b_insurer b, b_plan b, b_metal_tier b).


(** ** Sample inputs

    [sample_base] is one observation of 1000 enrollees in a rating area of
    two counties; insurer X has target 300 in county A and 0 in county B. *)

Definition sample_base : list base_row :=
  [mkBase 2020 1 "X" "HMO" "Bronze" 1000].

Definition sample_pairs : list (string * Z) := [("A", 1%Z); ("B", 1%Z)]%string.

Definition sample_alloc : table :=
  initial_allocation sample_base (crosswalk_weights sample_pairs).

Definition sample_county_insurer : list margin_row :=
  [mkMargin 2020 "X" "A" 300; mkMargin 2020 "X" "B" 0].

Definition sample_county_metal : list margin_row :=
  [mkMargin 2020 "Bronze" "A" 350; mkMargin 2020 "Bronze" "B" 450].

(** A raw insurer profile with a negative count. *)
Definition negative_raw_insurer : list raw_margin_row :=
  [mkRawMargin 2020 "X" "A" (Some (-300)); mkRawMargin 2020 "X" "B" (Some 500)].

(** ** Cleaning the base table *)

(** A row of [Base.dta]; [None] is a missing value. *)
Record raw_base_row : Type := mkRawBase {
  rb_year : option Z;
  rb_rating_area : option Z;
  rb_issuer_name : option string;
  rb_plan_type : option string;
  rb_metal_level : option string;
  rb_enrollees : option Q
}.

(** The dict [metal_map] of [clean_data]. *)
Definition metal_map : list (string * string) :=
  [("Bronze", "Bronze"); ("Silver", "Silver"); ("Gold", "Gold");
   ("Platinum", "Platinum"); ("Minimum Coverage", "Minimum Coverage");
   ("HDHP Bronze", "Bronze HDHP"); ("HSA Bronze", "Bronze HDHP");
   ("HDHP", "Bronze HDHP")]%string.

(** [Series.map(dict)] on one value; [None] is the NaN of a value that is
    no key of the dict. *)
Fixpoint map_dict (d : list (string * string)) (v : string)
  : option string :=
  match d with
  | [] => None
  | (k, w) :: d' => if String.eqb k v then Some w else map_dict d' v
  end.

(** A row of [base] after the renaming, the two filters, the [fillna(0)]
    and the harmonised metal tier; the plan may still be missing. *)
Record kept_base_row : Type := mkKeptBase {
  kb_year : Z;
  kb_rating_area : Z;
  kb_insurer : string;
  kb_plan : option string;
  kb_metal_tier : string;
  kb_enrollment : Q
}.

(** What the steps before the [groupby] make of one row: [None] when
    [dropna] on year, rating area, insurer and metal tier, the filter on
    empty strings, or the [dropna] after the metal map removes it. *)
Definition keep_base_row (r : raw_base_row) : option kept_base_row :=
  match rb_year r, rb_rating_area r, rb_issuer_name r, rb_metal_level r with
  | Some y, Some ra, Some ins, Some metal =>
      if (negb (String.eqb ins "") && negb (String.eqb metal ""))%bool
      then match map_dict metal_map metal with
           | Some tier =>
               Some (mkKeptBase y ra ins (rb_plan_type r) tier
                                (to_numeric_fillna0 (rb_enrollees r)))
           | None => None
           end
      else None
  | _, _, _, _ => None
  end.

Definition kept_base_rows (raw : list raw_base_row) : list kept_base_row :=
  flat_map (fun r => match keep_base_row r with
                     | Some k => [k]
                     | None => []
                     end) raw.

(** Lexicographic comparison of pairs. *)
Definition lex_cmp {A B : Type} (ca : A -> A -> comparison)
  (cb : B -> B -> comparison) (x y : A * B) : comparison :=
  match ca (fst x) (fst y) with
  | Eq => cb (snd x) (snd y)
  | c => c
  end.

(** The order [groupby] sorts the groups of [base] in: year, rating area,
    insurer, plan, metal tier, the strings compared character by
    character. *)
Definition base_key_cmp
  : Z * Z * string * string * string ->
    Z * Z * string * string * string -> comparison :=
  lex_cmp (lex_cmp (lex_cmp (lex_cmp Z.compare Z.compare) String.compare)
                   String.compare)
          String.compare.

(** One more row added to the sorted groups gathered so far. *)
Fixpoint add_base_group (r : base_row) (groups : list base_row)
  : list base_row :=
  match groups with
  | [] => [r]
  | g :: gs =>
      match base_key_cmp (base_key r) (base_key g) with
      | Lt => r :: g :: gs
      | Eq => mkBase (b_year g) (b_rating_area g) (b_insurer g) (b_plan g)
                     (b_metal_tier g) (b_enrollment g + b_enrollment r)
              :: gs
      | Gt => g :: add_base_group r gs
      end
  end.

(** [base.groupby([year, rating_area, insurer, plan, metal_tier],
    as_index=False)["enrollment"].sum()]: rows with a missing plan fall
    out, as [groupby] drops groups with a missing key. *)
Definition groupby_sum_base (rows : list kept_base_row) : list base_row :=
  fold_left
    (fun groups k =>
       match kb_plan k with
       | Some p =>
           add_base_group
             (mkBase (kb_year k) (kb_rating_area k) (kb_insurer k) p
                     (kb_metal_tier k) (kb_enrollment k))
             groups
       | None => groups
       end)
    rows [].

(** The base part of [clean_data]. *)
Definition clean_base (raw : list raw_base_row) : list base_row :=
  groupby_sum_base (kept_base_rows raw).

(** A three-way comparison that decides equality and whose [Lt] is a
    strict order. *)
Class CmpOrder {A : Type} (cmp : A -> A -> comparison) : Prop := {
  cmp_eq_iff : forall a b, cmp a b = Eq <-> a = b;
  cmp_lt_trans : forall a b c, cmp a b = Lt -> cmp b c = Lt -> cmp a c = Lt;
  cmp_gt_lt : forall a b, cmp a b = Gt -> cmp b a = Lt
}.

(** Row [a] comes before row [b] in the order of the groups. *)
Definition base_row_lt (a b : base_row) : Prop :=
  base_key_cmp (base_key a) (base_key b) = Lt.

(** Whether a row belongs to the group of key [k]. *)
Definition in_base_group (k : Z * Z * string * string * string)
  (key_of_row : Z * Z * string * string * string) : bool :=
  match base_key_cmp key_of_row k with
  | Eq => true
  | _ => false
  end.

(** The key a kept row is grouped by, when it has a plan. *)
Definition kept_key (k : kept_base_row)
  : option (Z * Z * string * string * string) :=
  match kb_plan k with
  | Some p => Some (kb_year k, kb_rating_area k, kb_insurer k, p,
                    kb_metal_tier k)
  | None => None
  end.

(** The metal tiers of the cleaned tables. *)
Definition metal_tiers : list string :=
  ["Bronze"; "Silver"; "Gold"; "Platinum"; "Minimum Coverage";
   "Bronze HDHP"]%string.

(** ** The margin consistency report *)








(** ** The validation checks *)

(** Check 4 of [validate]: the number of negative estimates. *)
Definition neg_count (allocated : table) : nat :=
  List.length (filter (fun c => Qlt_bool (enrollment_est c) 0) allocated).

(** ** More sample inputs *)

(** Raw base rows: three rows of one group under three spellings of the
    HDHP tier, one of them without a count, and four rows the cleaning
    drops (already harmonised tier, empty insurer, missing plan, missing
    year), next to one row of another year. *)
Definition sample_raw_base : list raw_base_row :=
  [mkRawBase (Some 2020%Z) (Some 1%Z) (Some "X") (Some "HMO") (Some "HDHP")
             (Some 10);
   mkRawBase (Some 2020%Z) (Some 1%Z) (Some "X") (Some "HMO")
             (Some "HSA Bronze") None;
   mkRawBase (Some 2020%Z) (Some 1%Z) (Some "X") (Some "HMO")
             (Some "Bronze HDHP") (Some 7);
   mkRawBase (Some 2020%Z) (Some 1%Z) (Some "") (Some "HMO") (Some "Gold")
             (Some 5);
   mkRawBase (Some 2020%Z) (Some 1%Z) (Some "A") None (Some "Gold") (Some 5);
   mkRawBase (Some 2019%Z) (Some 2%Z) (Some "B") (Some "PPO") (Some "Gold")
             (Some 3);
   mkRawBase (Some 2020%Z) (Some 1%Z) (Some "X") (Some "HMO")
             (Some "HDHP Bronze") (Some 4);
   mkRawBase None (Some 1%Z) (Some "X") (Some "HMO") (Some "Gold") (Some 4)]%string.

(** The one group the three HDHP rows of [sample_raw_base] end in. *)
Definition sample_hdhp_group : base_row :=
  mkBase 2020 1 "X" "HMO" "Bronze HDHP" 14.

(** What [run_ipf] returns on the sample, and on the sample with the
    negative insurer count. *)
Definition sample_out : table :=
  match run_ipf sample_alloc sample_county_insurer sample_county_metal 100
                (1 # 1000) with
  | Some out => out
  | None => []
  end.

Definition negative_out : table :=
  match run_ipf sample_alloc (clean_margin negative_raw_insurer)
                sample_county_metal 100 (1 # 1000) with
  | Some out => out
  | None => []
  end.


(** * The arithmetic of the script in IEEE binary64 *)

(** What the script computes with its estimates depends on how doubles
    round, overflow and propagate NaN.  Module [F64] embeds the numeric
    code of the script once more, over the binary64 format of [SpecFloat]:
    the elementwise numpy operations are the IEEE operations, [1e-10] is
    the double the literal denotes, and the two ways [run_ipf] can raise
    are kept apart from its results.  Keys, [zip_with], [bool_index] and
    [sorted_unique] are those of the embedding above. *)
Module F64.

Definition f64 : Type := spec_float.

Definition prec : Z := 53.
Definition emax : Z := 1024.

Definition add : f64 -> f64 -> f64 := SFadd prec emax.
Definition sub : f64 -> f64 -> f64 := SFsub prec emax.
Definition mul : f64 -> f64 -> f64 := SFmul prec emax.
Definition div : f64 -> f64 -> f64 := SFdiv prec emax.
Definition abs : f64 -> f64 := SFabs.

(** [x < y]; false as soon as one side is NaN. *)
Definition ltb : f64 -> f64 -> bool := SFltb.

(** [x <= y]. *)
Definition leb : f64 -> f64 -> bool := SFleb.

Definition is_nan (x : f64) : bool :=
  match x with
  | S754_nan => true
  | _ => false
  end.

Definition is_zero (x : f64) : bool :=
  match x with
  | S754_zero _ => true
  | _ => false
  end.

(** Neither infinite nor NaN. *)
Definition is_finite (x : f64) : bool :=
  match x with
  | S754_zero _ | S754_finite _ _ _ => true
  | _ => false
  end.

Definition zero : f64 := S754_zero false.
Definition inf : f64 := S754_infinity false.
Definition nan : f64 := S754_nan.

(** The double nearest to an integer, and to a quotient of two integers:
    how a literal such as [7], [0.3] or [1e-9] is read. *)
Definition of_Z (z : Z) : f64 := binary_normalize prec emax z 0 false.

Definition of_ratio (n d : Z) : f64 := div (of_Z n) (of_Z d).

Definition one : f64 := Eval cbv in of_Z 1.

(** The literal [1e-10]. *)
Definition eps : f64 := S754_finite false 7737125245533627 (-86).

(** The rational a finite double stands for (0 on infinities and NaN). *)
Definition to_Q (x : f64) : Q :=
  match x with
  | S754_finite s m e =>
      (if s then - inject_Z (Zpos m) else inject_Z (Zpos m)) * (2 # 1) ^ e
  | _ => 0
  end.

(** ** The order of the doubles *)

(** A position on the number line for every double but NaN. *)
Definition rank (x : f64) : Z * Z * Z :=
  match x with
  | S754_infinity true => (-2, 0, 0)%Z
  | S754_finite true m e => (-1, - e, - Zpos m)%Z
  | S754_zero _ => (0, 0, 0)%Z
  | S754_finite false m e => (1, e, Zpos m)%Z
  | S754_infinity false => (2, 0, 0)%Z
  | S754_nan => (0, 0, 0)%Z
  end.

Definition lt3 (a b : Z * Z * Z) : Prop :=
  let '(a1, a2, a3) := a in
  let '(b1, b2, b3) := b in
  (a1 < b1 \/ (a1 = b1 /\ (a2 < b2 \/ (a2 = b2 /\ a3 < b3))))%Z.

(** ** Tables *)

Record cell : Type := mkCell {
  year : Z;
  county : string;
  rating_area : Z;
  insurer : string;
  plan : string;
  metal_tier : string;
  enrollment_est : f64
}.

Definition table : Type := list cell.

Definition ic_key (c : cell) : key := (insurer c, county c).

Definition mc_key (c : cell) : key := (metal_tier c, county c).

Record margin_row : Type := mkMargin {
  m_year : Z;
  m_dim : string;
  m_county : string;
  m_target : f64
}.

(** The columns a profile table is grouped by in [clean_data]. *)
Definition margin_key (r : margin_row) : Z * string * string :=
  (m_year r, m_dim r, m_county r).

Definition series : Type := list (key * f64).

Definition set_index (rows : list margin_row) : series :=
  map (fun r => ((m_dim r, m_county r), m_target r)) rows.

(** The values an index holds under [k], in index order. *)
Definition matches (s : series) (k : key) : list f64 :=
  map snd (filter (fun entry => key_eqb (fst entry) k) s).

(** One element of [np.array([lookup.get(k, 0) for k in keys],
    dtype=np.float64)]: the default for an absent key and the value of a
    key held once; for a key held more than once [get] returns a Series,
    which is no element of a 1-D float array: [None] then. *)
Definition series_get (s : series) (k : key) (default : f64) : option f64 :=
  match matches s k with
  | [] => Some default
  | [v] => Some v
  | _ :: _ :: _ => None
  end.

Fixpoint targets_of (lookup : series) (keys : list key)
  : option (list f64) :=
  match keys with
  | [] => Some []
  | k :: keys' =>
      match series_get lookup k zero, targets_of lookup keys' with
      | Some v, Some vs => Some (v :: vs)
      | _, _ => None
      end
  end.

(** [np.array] stacks Series of one length into a 2-D array: every key is
    held the same number of times, more than once. *)
Definition stacked (lookup : series) (keys : list key) : bool :=
  match map (fun k => List.length (matches lookup k)) keys with
  | [] => false
  | n :: ns => ((2 <=? n)%nat && forallb (Nat.eqb n) ns)%bool
  end.

(** Whether [np.array(...)] returns at all, with a 1-D array of floats or
    with a 2-D stack; a mixture of floats and Series, or Series of
    different lengths, make it raise [ValueError]. *)
Definition array_built (lookup : series) (keys : list key) : bool :=
  match targets_of lookup keys with
  | Some _ => true
  | None => stacked lookup keys
  end.

(** The target of a key in a lookup that holds it at most once. *)
Definition target_of (lookup : series) (k : key) : f64 :=
  match series_get lookup k zero with
  | Some v => v
  | None => zero
  end.

Definition est_values (df : table) : list f64 := map enrollment_est df.

Definition with_est (c : cell) (v : f64) : cell :=
  mkCell (year c) (county c) (rating_area c) (insurer c) (plan c)
         (metal_tier c) v.

Definition assign_est (df : table) (values : list f64) : table :=
  zip_with with_est df values.

Definition key_columns (c : cell) : cell := with_est c zero.

(** ** Summation kernels *)

(** Plain accumulation from the left. *)
Definition left_sum (values : list f64) : f64 := fold_left add values zero.

(** The kernel of pandas' [group_sum]: Kahan summation in row order, with
    NaN values skipped and a NaN compensation reset to 0. *)
Definition kahan_step (state : f64 * f64) (val : f64) : f64 * f64 :=
  let '(sumx, compensation) := state in
  if is_nan val then state
  else
    let y := sub val compensation in
    let t := add sumx y in
    let c := sub (sub t sumx) y in
    (t, if is_nan c then zero else c).

Definition kahan_sum (values : list f64) : f64 :=
  fst (fold_left kahan_step values (zero, zero)).

Definition kernels : list (list f64 -> f64) := [left_sum; kahan_sum].

(** ** The scaling steps and the convergence check *)

(** One element of [np.where(group_sums > 1e-10, targets / group_sums, 0)]. *)
Definition factor_of (s t : f64) : f64 :=
  if ltb eps s then div t s else zero.

Definition where_factors (group_sums targets : list f64) : list f64 :=
  zip_with factor_of group_sums targets.

(** [ndarray.max()]: the first of the largest elements, NaN as soon as one
    element is NaN. *)
Definition maximum (x y : f64) : f64 :=
  if is_nan x then x
  else if is_nan y then y
  else if ltb x y then y else x.

Definition np_max (a : list f64) : f64 :=
  match a with
  | [] => zero
  | x :: a' => fold_left maximum a' x
  end.

(** [np.abs(current - prior) / prior] on one element. *)
Definition relative_change (current prior : f64) : f64 :=
  div (abs (sub current prior)) prior.

Definition max_change_of (prev_est current_est : list f64) : f64 :=
  let nonzero := map (fun p => ltb eps p) prev_est in
  if existsb (fun b => b) nonzero then
    np_max (zip_with relative_change
                     (bool_index current_est nonzero)
                     (bool_index prev_est nonzero))
  else zero.

(** The relative changes of the rows whose prior estimate exceeds
    [1e-10], in row order. *)
Definition relative_changes (prev_est current_est : list f64) : list f64 :=
  map (fun cp => relative_change (fst cp) (snd cp))
      (filter (fun cp => ltb eps (snd cp)) (combine current_est prev_est)).

Record report : Type := mkReport {
  converged : bool;
  iterations_used : nat;
  final_max_change : f64
}.

Record year_result : Type := mkYearResult {
  yr_year : Z;
  yr_df : table;
  yr_report : report
}.

Definition year_slice (alloc : table) (yr : Z) : table :=
  filter (fun c => (year c =? yr)%Z) alloc.

Definition year_lookup (targets : list margin_row) (yr : Z) : series :=
  set_index (filter (fun r => (m_year r =? yr)%Z) targets).

(** [Series.clip(lower=0)] on one value; NaN stays NaN. *)
Definition clip_lower0 (v : f64) : f64 := if ltb v zero then zero else v.

(** What a call returns, or the [ValueError] it raises. *)
Inductive result (A : Type) : Type :=
| Ok (a : A)
| ValueError.

Arguments Ok {A} a.
Arguments ValueError {A}.

Section GroupSums.

(** [groupby(...)["enrollment_est"].transform("sum")] hands the values of
    each group, in row order, to a summation kernel of pandas; the
    embedding takes the kernel as it comes. *)
Variable array_sum : list f64 -> f64.

Definition group_sum (by_key : cell -> key) (df : table) (k : key) : f64 :=
  array_sum (est_values (filter (fun d => key_eqb (by_key d) k) df)).

Definition transform_sum (by_key : cell -> key) (df : table) : list f64 :=
  map (fun c => group_sum by_key df (by_key c)) df.

Definition scale_step (by_key : cell -> key) (targets : list f64)
  (df : table) : table :=
  let group_sums := transform_sum by_key df in
  let factors := where_factors group_sums targets in
  assign_est df (zip_with mul (est_values df) factors).

Definition step_A (ic_targets : list f64) (df : table) : table :=
  scale_step ic_key ic_targets df.

Definition step_B (mc_targets : list f64) (df : table) : table :=
  scale_step mc_key mc_targets df.

Definition ipf_body (ic_targets mc_targets : list f64) (df : table)
  : table * f64 :=
  let prev_est := est_values df in
  let df1 := step_A ic_targets df in
  let df2 := step_B mc_targets df1 in
  let current_est := est_values df2 in
  (df2, max_change_of prev_est current_est).

(** [final] starts as [np.inf]. *)
Fixpoint ipf_loop (ic_targets mc_targets : list f64) (tol : f64)
  (remaining done : nat) (df : table) (final : f64) : table * report :=
  match remaining with
  | O => (df, mkReport false done final)
  | S remaining' =>
      let '(df2, max_change) := ipf_body ic_targets mc_targets df in
      if ltb max_change tol
      then (df2, mkReport true (S done) max_change)
      else ipf_loop ic_targets mc_targets tol remaining' (S done) df2
                    max_change
  end.

(** The body of [for yr in years]: [Ok None] is the [continue] of a year
    without rows.  When a target array is not a 1-D array of floats,
    either [np.array] raised [ValueError], or it returned a 2-D stack, on
    which the first loop body raises [ValueError] (by broadcasting, or by
    assigning a 2-D array to the column); only with no loop body to run
    does the year then keep its rows as they are. *)
Definition solve_year (alloc : table)
  (county_insurer county_metal : list margin_row)
  (max_iter : nat) (tol : f64) (yr : Z) : result (option year_result) :=
  let df := year_slice alloc yr in
  match df with
  | [] => Ok None
  | _ :: _ =>
      let ic_lookup := year_lookup county_insurer yr in
      let mc_lookup := year_lookup county_metal yr in
      let ic_keys := map ic_key df in
      let mc_keys := map mc_key df in
      match targets_of ic_lookup ic_keys, targets_of mc_lookup mc_keys with
      | Some ic_targets, Some mc_targets =>
          let '(df', rep) :=
            ipf_loop ic_targets mc_targets tol max_iter 0 df inf in
          Ok (Some (mkYearResult yr df' rep))
      | _, _ =>
          if (array_built ic_lookup ic_keys && array_built mc_lookup mc_keys
              && (max_iter =? 0)%nat)%bool
          then Ok (Some (mkYearResult yr df (mkReport false 0 inf)))
          else ValueError
      end
  end.

Fixpoint for_years (alloc : table)
  (county_insurer county_metal : list margin_row)
  (max_iter : nat) (tol : f64) (years : list Z)
  (results : list year_result) : result (list year_result) :=
  match years with
  | [] => Ok results
  | yr :: years' =>
      match solve_year alloc county_insurer county_metal max_iter tol yr with
      | ValueError => ValueError
      | Ok None =>
          for_years alloc county_insurer county_metal max_iter tol years'
                    results
      | Ok (Some r) =>
          for_years alloc county_insurer county_metal max_iter tol years'
                    (results ++ [r])
      end
  end.

(** [run_ipf]; [pd.concat] raises [ValueError] on an empty list. *)
Definition run_ipf (alloc : table)
  (county_insurer county_metal : list margin_row)
  (max_iter : nat) (tol : f64) : result table :=
  let years := sorted_unique (map year alloc) in
  match for_years alloc county_insurer county_metal max_iter tol years [] with
  | ValueError => ValueError
  | Ok [] => ValueError
  | Ok (r :: rs) =>
      let allocated := List.concat (map yr_df (r :: rs)) in
      Ok (map (fun c => with_est c (clip_lower0 (enrollment_est c)))
              allocated)
  end.

(** The tables one year passes through. *)
Inductive reached (ic_targets mc_targets : list f64) (df0 : table)
  : table -> Prop :=
| reached_start : reached ic_targets mc_targets df0 df0
| reached_A : forall df,
    reached ic_targets mc_targets df0 df ->
    reached ic_targets mc_targets df0 (step_A ic_targets df)
| reached_B : forall df,
    reached ic_targets mc_targets df0 df ->
    reached ic_targets mc_targets df0 (step_B mc_targets df).

(** The table after [n] loop bodies without the convergence test. *)
Fixpoint after_iterations (ic_targets mc_targets : list f64) (n : nat)
  (df : table) : table :=
  match n with
  | O => df
  | S n' =>
      fst (ipf_body ic_targets mc_targets
                    (after_iterations ic_targets mc_targets n' df))
  end.

(** [max_change] of loop body [i] (counted from 1) of a run from [df]. *)
Definition delta_at (ic_targets mc_targets : list f64) (df : table)
  (i : nat) : f64 :=
  snd (ipf_body ic_targets mc_targets
                (after_iterations ic_targets mc_targets (Nat.pred i) df)).

End GroupSums.

(** A row asks a lookup of its year for a key the lookup holds more than
    once. *)
Definition asks_duplicated_key (county_insurer county_metal : list margin_row)
  (c : cell) : Prop :=
  (2 <= List.length (matches (year_lookup county_insurer (year c))
                             (ic_key c)))%nat
  \/ (2 <= List.length (matches (year_lookup county_metal (year c))
                                (mc_key c)))%nat.

(** ** The objects of [run_ipf] *)

(** [run_ipf] works on DataFrame objects: its three arguments, which
    belong to the caller, the slice [df] it copies out of [alloc] for each
    year and then assigns into, and the list [results] of references to
    these slices.  The store holds the DataFrames that exist, each under
    its identity, the position at which it was created. *)
Inductive frame : Type :=
| Cells (rows : table)
| Margins (rows : list margin_row).

Definition store : Type := list frame.

Definition load (s : store) (o : nat) : frame := nth o s (Cells []).

Definition cells_at (s : store) (o : nat) : table :=
  match load s o with
  | Cells rows => rows
  | Margins _ => []
  end.

Definition margins_at (s : store) (o : nat) : list margin_row :=
  match load s o with
  | Margins rows => rows
  | Cells _ => []
  end.

(** A new object: [.copy()], or any operation that returns a new
    DataFrame. *)
Definition new_object (s : store) (f : frame) : store * nat :=
  (s ++ [f], List.length s).

(** An object changed in place. *)
Fixpoint replace_at (s : store) (o : nat) (f : frame) : store :=
  match s, o with
  | [], _ => []
  | _ :: s', O => f :: s'
  | g :: s', S o' => g :: replace_at s' o' f
  end.

(** [df["enrollment_est"] = values] *)
Definition set_est (s : store) (df : nat) (values : list f64) : store :=
  replace_at s df (Cells (assign_est (cells_at s df) values)).

(** What a pass of [for yr in years] leaves in [results], with the year
    and what the pass prints about its loop. *)
Definition result_entry : Type := (Z * nat * report)%type.

Section ObjectsOfRun.

Variable array_sum : list f64 -> f64.

(** A scaling step as the code has it: it reads the object [df] and
    assigns into it. *)
Definition scale_step_on (by_key : cell -> key) (targets : list f64)
  (s : store) (df : nat) : store :=
  let group_sums := transform_sum array_sum by_key (cells_at s df) in
  let factors := where_factors group_sums targets in
  set_est s df (zip_with mul (est_values (cells_at s df)) factors).

Definition ipf_body_on (ic_targets mc_targets : list f64) (s : store)
  (df : nat) : store * f64 :=
  let prev_est := est_values (cells_at s df) in
  let s1 := scale_step_on ic_key ic_targets s df in
  let s2 := scale_step_on mc_key mc_targets s1 df in
  let current_est := est_values (cells_at s2 df) in
  (s2, max_change_of prev_est current_est).

Fixpoint ipf_loop_on (ic_targets mc_targets : list f64) (tol : f64)
  (remaining done : nat) (s : store) (df : nat) (final : f64)
  : store * report :=
  match remaining with
  | O => (s, mkReport false done final)
  | S remaining' =>
      let '(s2, max_change) := ipf_body_on ic_targets mc_targets s df in
      if ltb max_change tol
      then (s2, mkReport true (S done) max_change)
      else ipf_loop_on ic_targets mc_targets tol remaining' (S done) s2 df
                       max_change
  end.

(** The body of [for yr in years] on the store; [alloc], [county_insurer]
    and [county_metal] are the objects [run_ipf] was called with. *)
Definition solve_year_on (alloc county_insurer county_metal : nat)
  (max_iter : nat) (tol : f64) (s : store) (results : list result_entry)
  (yr : Z) : result (store * list result_entry) :=
  let '(s1, df) :=
    new_object s (Cells (year_slice (cells_at s alloc) yr)) in
  match cells_at s1 df with
  | [] => Ok (s1, results)
  | _ :: _ =>
      let ic_lookup := year_lookup (margins_at s1 county_insurer) yr in
      let mc_lookup := year_lookup (margins_at s1 county_metal) yr in
      let ic_keys := map ic_key (cells_at s1 df) in
      let mc_keys := map mc_key (cells_at s1 df) in
      match targets_of ic_lookup ic_keys, targets_of mc_lookup mc_keys with
      | Some ic_targets, Some mc_targets =>
          let '(s2, rep) :=
            ipf_loop_on ic_targets mc_targets tol max_iter 0 s1 df inf in
          Ok (s2, results ++ [(yr, df, rep)])
      | _, _ =>
          if (array_built ic_lookup ic_keys && array_built mc_lookup mc_keys
              && (max_iter =? 0)%nat)%bool
          then Ok (s1, results ++ [(yr, df, mkReport false 0 inf)])
          else ValueError
      end
  end.

(** The loop over the years, in whatever order the years come. *)
Fixpoint for_years_on (alloc county_insurer county_metal : nat)
  (max_iter : nat) (tol : f64) (years : list Z) (s : store)
  (results : list result_entry) : result (store * list result_entry) :=
  match years with
  | [] => Ok (s, results)
  | yr :: years' =>
      match solve_year_on alloc county_insurer county_metal max_iter tol s
                          results yr with
      | ValueError => ValueError
      | Ok (s', results') =>
          for_years_on alloc county_insurer county_metal max_iter tol years'
                       s' results'
      end
  end.

(** [run_ipf] on the store: the new object it returns, and the store it
    leaves. *)
Definition run_ipf_on (alloc county_insurer county_metal : nat)
  (max_iter : nat) (tol : f64) (s : store) : result (store * nat) :=
  let years := sorted_unique (map year (cells_at s alloc)) in
  match for_years_on alloc county_insurer county_metal max_iter tol years s
                     [] with
  | ValueError => ValueError
  | Ok (_, []) => ValueError
  | Ok (s', entry :: entries) =>
      let '(s2, allocated) :=
        new_object s'
          (Cells (List.concat
                    (map (fun e => cells_at s' (snd (fst e)))
                         (entry :: entries)))) in
      Ok (set_est s2 allocated
                  (map clip_lower0 (est_values (cells_at s2 allocated))),
          allocated)
  end.

End ObjectsOfRun.

(** What an entry of [results] shows: its year, the rows of its object
    and what was printed about its loop. *)
Definition entry_view (s : store) (e : result_entry)
  : Z * table * report :=
  (fst (fst e), cells_at s (snd (fst e)), snd e).

Definition result_view (r : year_result) : Z * table * report :=
  (yr_year r, yr_df r, yr_report r).

(** ** The crosswalk weights and the initial allocation *)

Record base_row : Type := mkBase {
  b_year : Z;
  b_rating_area : Z;
  b_insurer : string;
  b_plan : string;
  b_metal_tier : string;
  b_enrollment : f64
}.

Record crosswalk_row : Type := mkCrosswalk {
  cw_county : string;
  cw_rating_area : Z;
  cw_weight : f64
}.

(** [crosswalk["county"].str.upper().str.strip()] followed by
    [replace({"LA COUNTY": "LOS ANGELES"})], on one name; [upper_strip]
    is the string function of pandas. *)
Definition clean_county (upper_strip : string -> string) (name : string)
  : string :=
  let name' := upper_strip name in
  if String.eqb name' "LA COUNTY" then "LOS ANGELES"%string else name'.

(** [1.0 / n] for a count [n]. *)
Definition weight_of_count (n : nat) : f64 := div one (of_Z (Z.of_nat n)).

(** The crosswalk part of [clean_data]: [weight = 1.0 / n_per_ra]. *)
Definition crosswalk_weights (upper_strip : string -> string)
  (pairs : list (string * Z)) : list crosswalk_row :=
  zip_with (fun p n => mkCrosswalk (clean_county upper_strip (fst p)) (snd p)
                                   (weight_of_count n))
           pairs (n_per_ra pairs).

Definition initial_allocation (base : list base_row)
  (crosswalk : list crosswalk_row) : table :=
  flat_map
    (fun b =>
       map (fun w =>
              mkCell (b_year b) (cw_county w) (b_rating_area b) (b_insurer b)
                     (b_plan b) (b_metal_tier b)
                     (mul (b_enrollment b) (cw_weight w)))
           (filter (fun w => (cw_rating_area w =? b_rating_area b)%Z)
                   crosswalk))
    base.

(** The columns [base] is aggregated by in [clean_data]. *)
Definition base_key (b : base_row) : Z * Z * string * string * string :=
  (b_year b, b_rating_area b, b_insurer b, b_plan b, b_metal_tier b).


(** ** Cleaning a county profile *)

(** A row of a raw county profile.  A key column is [None] where the table
    has no value; [raw_enrollees] is what
    [pd.to_numeric(..., errors="coerce")] makes of the count, [None] being
    NaN. *)
Record raw_margin_row : Type := mkRawMargin {
  raw_year : option Z;
  raw_dim : option string;
  raw_county : option string;
  raw_enrollees : option f64
}.

(** [pd.to_numeric(col, errors="coerce").fillna(0)] on one value. *)
Definition to_numeric_fillna0 (v : option f64) : f64 :=
  match v with
  | Some q => if is_nan q then zero else q
  | None => zero
  end.

Definition margin_key_eqb (a b : Z * string * string) : bool :=
  ((fst (fst a) =? fst (fst b))%Z && String.eqb (snd (fst a)) (snd (fst b))
   && String.eqb (snd a) (snd b))%bool.

(** The key [groupby(["year", dim, "county"])] files a row under, after
    [county.str.upper().str.strip()]; [None] for a row with a missing key
    column, which [groupby] drops.  [upper_strip] is the string function
    of pandas. *)
Definition raw_margin_key (upper_strip : string -> string)
  (r : raw_margin_row) : option (Z * string * string) :=
  match raw_year r, raw_dim r, raw_county r with
  | Some y, Some d, Some c => Some (y, d, upper_strip c)
  | _, _, _ => None
  end.

(** The groups with their values in row order; the groups come in order
    of first occurrence (pandas sorts them, which no lookup depends on). *)
Fixpoint add_to_group (k : Z * string * string) (v : f64)
  (groups : list ((Z * string * string) * list f64))
  : list ((Z * string * string) * list f64) :=
  match groups with
  | [] => [(k, [v])]
  | (k', vs) :: gs =>
      if margin_key_eqb k' k then (k', vs ++ [v]) :: gs
      else (k', vs) :: add_to_group k v gs
  end.

Definition add_raw_row (upper_strip : string -> string)
  (groups : list ((Z * string * string) * list f64)) (r : raw_margin_row)
  : list ((Z * string * string) * list f64) :=
  match raw_margin_key upper_strip r with
  | Some k => add_to_group k (to_numeric_fillna0 (raw_enrollees r)) groups
  | None => groups
  end.

Definition group_values (upper_strip : string -> string)
  (raw : list raw_margin_row) : list ((Z * string * string) * list f64) :=
  fold_left (add_raw_row upper_strip) raw [].

(** The part of [clean_data] that builds [county_insurer] and
    [county_metal]: the target of a group is what the summation kernel
    returns for its values. *)
Definition clean_margin (array_sum : list f64 -> f64)
  (upper_strip : string -> string) (raw : list raw_margin_row)
  : list margin_row :=
  map (fun g => mkMargin (fst (fst (fst g))) (snd (fst (fst g)))
                         (snd (fst g)) (array_sum (snd g)))
      (group_values upper_strip raw).

(** The counts of the raw rows filed under a key, in row order. *)
Definition raw_values (upper_strip : string -> string)
  (raw : list raw_margin_row) (k : Z * string * string) : list f64 :=
  map (fun r => to_numeric_fillna0 (raw_enrollees r))
      (filter (fun r => match raw_margin_key upper_strip r with
                        | Some k' => margin_key_eqb k' k
                        | None => false
                        end) raw).

(** The values a list of groups holds under a key. *)
Fixpoint values_of (groups : list ((Z * string * string) * list f64))
  (k : Z * string * string) : list f64 :=
  match groups with
  | [] => []
  | (k', vs) :: gs => if margin_key_eqb k' k then vs else values_of gs k
  end.

(** ** Sample inputs in doubles *)

(** One observation of 1000 enrollees in a rating area of two counties,
    with insurer targets 300 and 0 and metal targets 350 and 450; and the
    same with a negative insurer target. *)
Definition sample_base : list base_row :=
  [mkBase 2020 1 "X" "HMO" "Bronze" (of_Z 1000)].

Definition sample_pairs : list (string * Z) := [("A", 1%Z); ("B", 1%Z)]%string.

Definition sample_alloc : table :=
  initial_allocation sample_base
                     (crosswalk_weights (fun name => name) sample_pairs).

Definition sample_county_insurer : list margin_row :=
  [mkMargin 2020 "X" "A" (of_Z 300); mkMargin 2020 "X" "B" zero].

Definition sample_county_metal : list margin_row :=
  [mkMargin 2020 "Bronze" "A" (of_Z 350);
   mkMargin 2020 "Bronze" "B" (of_Z 450)].

(** The insurer profile with the key of county A held twice. *)
Definition duplicated_county_insurer : list margin_row :=
  sample_county_insurer ++ [mkMargin 2020 "X" "A" one].

Definition negative_county_insurer : list margin_row :=
  [mkMargin 2020 "X" "A" (of_Z (-300)); mkMargin 2020 "X" "B" (of_Z 500)].

Definition sample_out : table :=
  match run_ipf kahan_sum sample_alloc sample_county_insurer
                sample_county_metal 100 (of_ratio 1 1000) with
  | Ok out => out
  | ValueError => []
  end.

(** Two cells, 1 and 5, of one insurer x county group with target 7. *)
Definition seven_df : table :=
  [mkCell 2020 "A" 1 "X" "P1" "Gold" (of_Z 1);
   mkCell 2020 "A" 1 "X" "P2" "Silver" (of_Z 5)].

Definition seven_ic_lookup : series := [(("X", "A"), of_Z 7)]%string.

Definition seven_mc_lookup : series :=
  [(("Gold", "A"), of_Z 2); (("Silver", "A"), of_Z 5)]%string.

(** Two cells, 0.1 and 0.2, that meet their insurer targets and share a
    metal tier with target 0.3. *)
Definition third_df : table :=
  [mkCell 2020 "A" 1 "X" "P1" "Gold" (of_ratio 1 10);
   mkCell 2020 "A" 1 "Y" "P2" "Gold" (of_ratio 2 10)].

Definition third_ic_lookup : series :=
  [(("X", "A"), of_ratio 1 10); (("Y", "A"), of_ratio 2 10)]%string.

Definition third_mc_lookup : series := [(("Gold", "A"), of_ratio 3 10)]%string.

(** Two cells, 0 and 1e-9, of one insurer x county group with target
    1e300; every estimate and target is at least 0. *)
Definition overflow_alloc : table :=
  [mkCell 2020 "A" 1 "X" "P1" "Gold" zero;
   mkCell 2020 "A" 1 "X" "P2" "Silver" (of_ratio 1 1000000000)].

Definition overflow_county_insurer : list margin_row :=
  [mkMargin 2020 "X" "A" (of_Z (10 ^ 300))].

Definition overflow_county_metal : list margin_row :=
  [mkMargin 2020 "Gold" "A" one; mkMargin 2020 "Silver" "A" one].

(** A cell of 5 whose insurer x county key the lookup does not hold, next
    to a cell of 1e-9 that meets its insurer target; the metal tier they
    share has target 1e300. *)
Definition absorbed_df : table :=
  [mkCell 2020 "A" 1 "X" "P1" "Gold" (of_Z 5);
   mkCell 2020 "A" 1 "Y" "P2" "Gold" (of_ratio 1 1000000000)].

Definition absorbed_ic_lookup : series :=
  [(("Y", "A"), of_ratio 1 1000000000)]%string.

Definition absorbed_mc_lookup : series :=
  [(("Gold", "A"), of_Z (10 ^ 300))]%string.

(** A year whose four cells (two insurers by two metal tiers in one
    county) start at 1e-10 or 5e-11, none above 1e-10, while every group
    sum is above it; the insurer totals (6 and 6) disagree with the metal
    totals (14 and 5). *)
Definition tiny_alloc : table :=
  [mkCell 2021 "A" 1 "I1" "HMO" "M1" eps;
   mkCell 2021 "A" 1 "I1" "HMO" "M2" eps;
   mkCell 2021 "A" 1 "I2" "HMO" "M1" eps;
   mkCell 2021 "A" 1 "I2" "HMO" "M2" (of_ratio 5 100000000000)].

Definition tiny_ic_lookup : series :=
  [(("I1", "A"), of_Z 6); (("I2", "A"), of_Z 6)]%string.

Definition tiny_mc_lookup : series :=
  [(("M1", "A"), of_Z 14); (("M2", "A"), of_Z 5)]%string.

Definition tiny_ic_targets : list f64 := [of_Z 6; of_Z 6; of_Z 6; of_Z 6].

Definition tiny_mc_targets : list f64 := [of_Z 14; of_Z 5; of_Z 14; of_Z 5].

(** A year of four ordinary cells whose max change grows from the first
    body to the second. *)
Definition skewed_alloc : table :=
  [mkCell 2022 "A" 1 "I1" "HMO" "M1" (of_Z 16);
   mkCell 2022 "A" 1 "I1" "HMO" "M2" (of_Z 5);
   mkCell 2022 "A" 1 "I2" "HMO" "M1" (of_Z 1);
   mkCell 2022 "A" 1 "I2" "HMO" "M2" (of_Z 18)].

Definition skewed_ic_targets : list f64 :=
  [of_Z 13; of_Z 13; of_Z 13; of_Z 13].

Definition skewed_mc_targets : list f64 :=
  [of_Z 11; of_Z 1; of_Z 11; of_Z 1].



(** Two years in one table, [sample_alloc] for 2020 and [tiny_alloc] for
    2021, with their profiles; and the store [run_ipf] is called on,
    which holds the allocation table, the insurer profile and the metal
    profile as objects 0, 1 and 2. *)
Definition two_year_alloc : table := sample_alloc ++ tiny_alloc.

Definition two_year_county_insurer : list margin_row :=
  sample_county_insurer
  ++ [mkMargin 2021 "I1" "A" (of_Z 6); mkMargin 2021 "I2" "A" (of_Z 6)].

Definition two_year_county_metal : list margin_row :=
  sample_county_metal
  ++ [mkMargin 2021 "M1" "A" (of_Z 14); mkMargin 2021 "M2" "A" (of_Z 5)].

Definition two_year_store : store :=
  [Cells two_year_alloc; Margins two_year_county_insurer;
   Margins two_year_county_metal].

(** The passes for 2020 then 2021, and for 2021 then 2020. *)
Definition forward_run : store * list result_entry :=
  match for_years_on kahan_sum 0 1 2 100 (of_ratio 1 1000) [2020; 2021]%Z
                     two_year_store [] with
  | Ok run => run
  | ValueError => ([], [])
  end.

Definition backward_run : store * list result_entry :=
  match for_years_on kahan_sum 0 1 2 100 (of_ratio 1 1000) [2021; 2020]%Z
                     two_year_store [] with
  | Ok run => run
  | ValueError => ([], [])
  end.

End F64.

(** * Properties *)

(** ** Comparisons and keys *)

Lemma Qgt_bool_true (x y : Q) : Qgt_bool x y = true <-> y < x.
Proof.
  unfold Qgt_bool. rewrite negb_true_iff.
  split; intro H.
  - apply Qnot_le_lt. intro Hle. apply Qle_bool_iff in Hle. congruence.
  - destruct (Qle_bool x y) eqn:E; [|reflexivity].
    apply Qle_bool_iff in E. exfalso. apply (Qlt_not_le _ _ H E).
Qed.

Lemma Qgt_bool_false (x y : Q) : Qgt_bool x y = false <-> x <= y.
Proof.
  unfold Qgt_bool. rewrite negb_false_iff. apply Qle_bool_iff.
Qed.

Lemma Qlt_bool_true (x y : Q) : Qlt_bool x y = true <-> x < y.
Proof. unfold Qlt_bool. apply Qgt_bool_true. Qed.

Lemma Qlt_bool_false (x y : Q) : Qlt_bool x y = false <-> y <= x.
Proof. unfold Qlt_bool. apply Qgt_bool_false. Qed.

(** ** A scaling step, row by row *)

Lemma zip_columns (F : Q -> Q -> Q) (h g : cell -> Q) (df : table) :
  assign_est df
    (zip_with Qmult (est_values df) (zip_with F (map h df) (map g df)))
  = map (fun c => with_est c (enrollment_est c * F (h c) (g c))) df.
Proof.
  unfold assign_est, est_values.
  induction df as [|c df IH]; simpl; [reflexivity|].
  f_equal. exact IH.
Qed.

Section ScaleStep.

Variable by_key : cell -> key.
Hypothesis by_key_est : forall c v, by_key (with_est c v) = by_key c.

(** The step as a map over the rows, when the target array was read off
    the keys of the rows. *)
Lemma scale_step_rows (g : cell -> Q) (df : table) :
  scale_step by_key (map g df) df
  = map (fun c => with_est c
                    (enrollment_est c
                     * factor_of (group_sum by_key df (by_key c)) (g c)))
        df.
Proof.
  unfold scale_step, where_factors, transform_sum.
  apply (zip_columns factor_of
                     (fun c => group_sum by_key df (by_key c)) g).
Qed.

End ScaleStep.

(** ** The key columns never change *)

Lemma targets_of_rows (lookup : series) (by_key : cell -> key)
  (df0 df : table) :
  map by_key df = map by_key df0 ->
  targets_of lookup (map by_key df0)
  = map (fun c => series_get lookup (by_key c) 0) df.
Proof.
  intro H. unfold targets_of. rewrite <- H, map_map. reflexivity.
Qed.

Lemma key_columns_ic (df df0 : table) :
  map key_columns df = map key_columns df0 -> map ic_key df = map ic_key df0.
Proof.
  intro H.
  assert (E : forall l, map ic_key l = map ic_key (map key_columns l))
    by (intro l; rewrite map_map; reflexivity).
  rewrite (E df), (E df0), H. reflexivity.
Qed.

Lemma key_columns_mc (df df0 : table) :
  map key_columns df = map key_columns df0 -> map mc_key df = map mc_key df0.
Proof.
  intro H.
  assert (E : forall l, map mc_key l = map mc_key (map key_columns l))
    by (intro l; rewrite map_map; reflexivity).
  rewrite (E df), (E df0), H. reflexivity.
Qed.

Lemma key_columns_scaled (f : cell -> Q) (df : table) :
  map key_columns (map (fun c => with_est c (f c)) df) = map key_columns df.
Proof. rewrite map_map. reflexivity. Qed.

Section OneYear.

Variables ic_lookup mc_lookup : series.
Variable df0 : table.

Let ic_targets := targets_of ic_lookup (map ic_key df0).
Let mc_targets := targets_of mc_lookup (map mc_key df0).

Lemma step_A_rows (df : table) :
  map key_columns df = map key_columns df0 ->
  step_A ic_targets df
  = map (fun c => with_est c (enrollment_est c * ic_factor ic_lookup df c)) df.
Proof.
  intro H. unfold step_A, ic_targets.
  rewrite (targets_of_rows ic_lookup ic_key df0 df (key_columns_ic _ _ H)).
  apply scale_step_rows.
Qed.

Lemma step_B_rows (df : table) :
  map key_columns df = map key_columns df0 ->
  step_B mc_targets df
  = map (fun c => with_est c (enrollment_est c * mc_factor mc_lookup df c)) df.
Proof.
  intro H. unfold step_B, mc_targets.
  rewrite (targets_of_rows mc_lookup mc_key df0 df (key_columns_mc _ _ H)).
  apply scale_step_rows.
Qed.

Lemma reached_key_columns (df : table) :
  reached ic_targets mc_targets df0 df ->
  map key_columns df = map key_columns df0.
Proof.
  induction 1 as [|df _ IH|df _ IH].
  - reflexivity.
  - rewrite (step_A_rows df IH), key_columns_scaled. exact IH.
  - rewrite (step_B_rows df IH), key_columns_scaled. exact IH.
Qed.

End OneYear.

(** ** The loop passes through reached tables only *)

Lemma reached_after_iterations (ic_targets mc_targets : list Q)
  (df0 : table) (n : nat) :
  reached ic_targets mc_targets df0
          (after_iterations ic_targets mc_targets n df0).
Proof.
  induction n as [|n IH]; simpl.
  - apply reached_start.
  - apply reached_B, reached_A. exact IH.
Qed.

(** ** The iteration loop, unrolled *)

Lemma after_iterations_shift (ic_targets mc_targets : list Q) (n : nat)
  (df : table) :
  after_iterations ic_targets mc_targets (S n) df
  = after_iterations ic_targets mc_targets n
      (fst (ipf_body ic_targets mc_targets df)).
Proof.
  induction n as [|n IH].
  - reflexivity.
  - change (after_iterations ic_targets mc_targets (S (S n)) df)
      with (fst (ipf_body ic_targets mc_targets
                   (after_iterations ic_targets mc_targets (S n) df))).
    rewrite IH. reflexivity.
Qed.

Lemma delta_at_shift (ic_targets mc_targets : list Q) (df : table)
  (j : nat) :
  (1 <= j)%nat ->
  delta_at ic_targets mc_targets df (S j)
  = delta_at ic_targets mc_targets
      (fst (ipf_body ic_targets mc_targets df)) j.
Proof.
  intro Hj. unfold delta_at.
  destruct j as [|j]; [lia|].
  simpl pred. rewrite after_iterations_shift. reflexivity.
Qed.

Lemma ipf_loop_S (ic_targets mc_targets : list Q) (tol : Q)
  (r done : nat) (df : table) (final : option Q) :
  ipf_loop ic_targets mc_targets tol (S r) done df final
  = if Qlt_bool (snd (ipf_body ic_targets mc_targets df)) tol
    then (fst (ipf_body ic_targets mc_targets df),
          mkReport true (S done)
                   (Some (snd (ipf_body ic_targets mc_targets df))))
    else ipf_loop ic_targets mc_targets tol r (S done)
           (fst (ipf_body ic_targets mc_targets df))
           (Some (snd (ipf_body ic_targets mc_targets df))).
Proof. reflexivity. Qed.

Lemma ipf_loop_outcome (ic_targets mc_targets : list Q) (tol : Q)
  (remaining : nat) :
  forall (done : nat) (df : table) (final : option Q),
    exists m,
      loop_outcome ic_targets mc_targets tol remaining done df final
        (ipf_loop ic_targets mc_targets tol remaining done df final) m.
Proof.
  induction remaining as [|r IH]; intros done df final.
  - exists O. unfold loop_outcome. simpl.
    repeat split; try lia.
    right. repeat split; intros; lia.
  - rewrite ipf_loop_S.
    assert (Hd1 : delta_at ic_targets mc_targets df 1
                  = snd (ipf_body ic_targets mc_targets df))
      by reflexivity.
    set (df2 := fst (ipf_body ic_targets mc_targets df)) in *.
    set (mc := snd (ipf_body ic_targets mc_targets df)) in *.
    assert (Hshift : forall j, (1 <= j)%nat ->
              delta_at ic_targets mc_targets df (S j)
              = delta_at ic_targets mc_targets df2 j).
    { intros j Hj. apply delta_at_shift. exact Hj. }
    destruct (Qlt_bool mc tol) eqn:Et.
    + exists 1%nat. unfold loop_outcome.
      cbn [fst snd converged iterations_used final_max_change].
      split; [reflexivity|]. split; [lia|]. split; [lia|].
      left. rewrite Hd1. apply Qlt_bool_true in Et.
      repeat split; try lia; try exact Et.
    + destruct (IH (S done) df2 (Some mc)) as [m [H1 [H2 [H3 H4]]]].
      assert (Hmiss : ~ mc < tol).
      { apply Qlt_bool_false in Et. apply Qle_not_lt. exact Et. }
      exists (S m). unfold loop_outcome.
      split; [|split; [|split]].
      * rewrite H1, after_iterations_shift. reflexivity.
      * rewrite H2. lia.
      * lia.
      * destruct H4 as [[Hc [Hm [Hlt [Hmin Hfin]]]]|[Hc [Hm [Hall Hfin]]]].
        -- left. rewrite (Hshift m Hm).
           repeat split; try lia; try assumption.
           intros j Hj. destruct j as [|[|j]]; [lia| |].
           ++ rewrite Hd1. exact Hmiss.
           ++ rewrite (Hshift (S j)) by lia. apply Hmin. lia.
        -- right. split; [exact Hc|]. split; [lia|]. split.
           ++ intros j Hj. destruct j as [|[|j]]; [lia| |].
              ** rewrite Hd1. exact Hmiss.
              ** rewrite (Hshift (S j)) by lia. apply Hall. lia.
           ++ rewrite Hfin. destruct m as [|m'].
              ** rewrite Hd1. reflexivity.
              ** rewrite (Hshift (S m')) by lia. reflexivity.
Qed.

(** ** The loop over years, unrolled *)

Lemma solve_year_some (alloc : table)
  (county_insurer county_metal : list margin_row) (max_iter : nat) (tol : Q)
  (yr : Z) :
  year_slice alloc yr <> [] ->
  solve_year alloc county_insurer county_metal max_iter tol yr
  = Some (mkYearResult yr
       (fst (ipf_loop
               (targets_of (year_lookup county_insurer yr)
                           (map ic_key (year_slice alloc yr)))
               (targets_of (year_lookup county_metal yr)
                           (map mc_key (year_slice alloc yr)))
               tol max_iter 0 (year_slice alloc yr) None))
       (snd (ipf_loop
               (targets_of (year_lookup county_insurer yr)
                           (map ic_key (year_slice alloc yr)))
               (targets_of (year_lookup county_metal yr)
                           (map mc_key (year_slice alloc yr)))
               tol max_iter 0 (year_slice alloc yr) None))).
Proof.
  intro H. unfold solve_year.
  destruct (year_slice alloc yr) as [|c df] eqn:E; [congruence|].
  destruct (ipf_loop _ _ tol max_iter 0 (c :: df) None) as [df' rep].
  reflexivity.
Qed.

Lemma for_years_flat_map (alloc : table)
  (county_insurer county_metal : list margin_row) (max_iter : nat) (tol : Q)
  (years : list Z) :
  forall results,
    for_years alloc county_insurer county_metal max_iter tol years results
    = results
      ++ flat_map
           (fun yr =>
              match solve_year alloc county_insurer county_metal max_iter
                               tol yr with
              | Some r => [r]
              | None => []
              end) years.
Proof.
  induction years as [|yr years IH]; intro results; simpl.
  - rewrite app_nil_r. reflexivity.
  - destruct (solve_year alloc county_insurer county_metal max_iter tol yr).
    + rewrite IH, <- app_assoc. reflexivity.
    + apply IH.
Qed.


Lemma insert_year_In (y x : Z) (l : list Z) :
  In x (insert_year y l) <-> x = y \/ In x l.
Proof.
  induction l as [|z l IH]; simpl.
  - intuition.
  - destruct (y <? z)%Z; [simpl; intuition|].
    destruct (y =? z)%Z eqn:E.
    + apply Z.eqb_eq in E. subst z. simpl. intuition.
    + simpl. rewrite IH. intuition.
Qed.

Lemma sorted_unique_In (x : Z) (l : list Z) :
  In x (sorted_unique l) <-> In x l.
Proof.
  induction l as [|y l IH]; simpl.
  - reflexivity.
  - rewrite insert_year_In, IH. intuition.
Qed.

Lemma year_slice_In (alloc : table) (yr : Z) (c : cell) :
  In c (year_slice alloc yr) <-> In c alloc /\ year c = yr.
Proof.
  unfold year_slice. rewrite filter_In, Z.eqb_eq. reflexivity.
Qed.

Lemma year_slice_nonempty (alloc : table) (yr : Z) :
  year_slice alloc yr <> [] <-> In yr (map year alloc).
Proof.
  split.
  - intro H. destruct (year_slice alloc yr) as [|c l] eqn:E; [congruence|].
    assert (Hc : In c (year_slice alloc yr)) by (rewrite E; left; reflexivity).
    apply year_slice_In in Hc. destruct Hc as [Hc <-].
    apply in_map. exact Hc.
  - intros H E. apply in_map_iff in H. destruct H as [c [Hy Hc]].
    assert (Hin : In c (year_slice alloc yr))
      by (apply year_slice_In; split; assumption).
    rewrite E in Hin. destruct Hin.
Qed.

Lemma run_ipf_some (alloc : table)
  (county_insurer county_metal : list margin_row) (max_iter : nat) (tol : Q)
  (r : year_result) :
  In r (for_years alloc county_insurer county_metal max_iter tol
          (sorted_unique (map year alloc)) []) ->
  run_ipf alloc county_insurer county_metal max_iter tol
  = Some (map (fun c => with_est c (clip_lower0 (enrollment_est c)))
              (List.concat
                 (map yr_df
                    (for_years alloc county_insurer county_metal max_iter tol
                       (sorted_unique (map year alloc)) [])))).
Proof.
  intro H. unfold run_ipf.
  destruct (for_years alloc county_insurer county_metal max_iter tol
              (sorted_unique (map year alloc)) []) as [|r0 rs].
  - destruct H.
  - reflexivity.
Qed.

(** ** C5: the convergence flag *)


(** ** The initial allocation *)



Lemma filter_none {A : Type} (P : A -> bool) (l : list A) :
  (forall x, In x l -> P x = false) -> filter P l = [].
Proof.
  induction l as [|x l IH]; intro H; simpl; [reflexivity|].
  rewrite (H x (or_introl eq_refl)). apply IH.
  intros y Hy. apply H. right. exact Hy.
Qed.

(** A key that occurs once in a list selects one element. *)
Lemma filter_unique {A K : Type} (key_of : A -> K) (P : A -> bool)
  (x : A) (l : list A) :
  (forall y, P y = true <-> key_of y = key_of x) ->
  NoDup (map key_of l) -> In x l -> filter P l = [x].
Proof.
  intros HP. induction l as [|y l IH]; intros Hnd Hin; [destruct Hin|].
  simpl in Hnd. inversion Hnd as [|k ks Hk Hnd']; subst.
  simpl. destruct Hin as [->|Hin].
  - rewrite (proj2 (HP x) eq_refl). f_equal.
    apply filter_none. intros z Hz.
    destruct (P z) eqn:E; [|reflexivity].
    exfalso. apply Hk. apply HP in E. rewrite <- E. apply in_map. exact Hz.
  - destruct (P y) eqn:E.
    + exfalso. apply Hk. apply HP in E. rewrite E. apply in_map. exact Hin.
    + apply IH; assumption.
Qed.

Lemma flat_map_all_nil {A B : Type} (f : A -> list B) (l : list A) :
  (forall a, In a l -> f a = []) -> flat_map f l = [].
Proof.
  induction l as [|a l IH]; intro H; simpl; [reflexivity|].
  rewrite (H a (or_introl eq_refl)). apply IH.
  intros b Hb. apply H. right. exact Hb.
Qed.

(** ** When [run_ipf] fails *)

Lemma clip_lower0_ge0 (v : Q) : 0 <= clip_lower0 v.
Proof.
  unfold clip_lower0. destruct (Qlt_bool v 0) eqn:E.
  - apply Qle_refl.
  - apply Qlt_bool_false. exact E.
Qed.


(** ** The theorems at the sample inputs *)


(** * Further properties of the code *)

(** ** The order of the years *)

Lemma insert_year_HdRel (a y : Z) (l : list Z) :
  HdRel Z.lt a l -> (a < y)%Z -> HdRel Z.lt a (insert_year y l).
Proof.
  intros H Hay. destruct l as [|x l]; simpl.
  - constructor. exact Hay.
  - destruct (y <? x)%Z; [constructor; exact Hay|].
    destruct (y =? x)%Z; [exact H|].
    constructor. inversion H; assumption.
Qed.

Lemma insert_year_sorted (y : Z) (l : list Z) :
  Sorted Z.lt l -> Sorted Z.lt (insert_year y l).
Proof.
  induction 1 as [|x l Hs IH Hd]; simpl.
  - repeat constructor.
  - destruct (y <? x)%Z eqn:E1.
    + apply Z.ltb_lt in E1. repeat constructor; assumption.
    + destruct (y =? x)%Z eqn:E2.
      * constructor; assumption.
      * apply Z.ltb_ge in E1. apply Z.eqb_neq in E2.
        constructor; [exact IH|].
        apply insert_year_HdRel; [exact Hd|lia].
Qed.

Lemma sorted_unique_sorted (l : list Z) : Sorted Z.lt (sorted_unique l).
Proof.
  induction l as [|y l IH]; simpl.
  - constructor.
  - apply insert_year_sorted. exact IH.
Qed.

Lemma strictly_sorted_NoDup (l : list Z) : Sorted Z.lt l -> NoDup l.
Proof.
  intro H. apply Sorted_StronglySorted in H; [|exact Z.lt_strorder.(StrictOrder_Transitive)].
  induction H as [|x l _ IH Hx]; constructor; [|exact IH].
  intro Hin. rewrite Forall_forall in Hx. specialize (Hx x Hin). lia.
Qed.



(** ** The rows [run_ipf] returns *)

Lemma year_slice_cons (c : cell) (l : table) (y : Z) :
  year_slice (c :: l) y
  = if (year c =? y)%Z then c :: year_slice l y else year_slice l y.
Proof. reflexivity. Qed.

Lemma flat_map_ext_in {A B : Type} (f g : A -> list B) (l : list A) :
  (forall a, In a l -> f a = g a) -> flat_map f l = flat_map g l.
Proof.
  induction l as [|a l IH]; intro H; simpl; [reflexivity|].
  rewrite (H a (or_introl eq_refl)), IH; [reflexivity|].
  intros b Hb. apply H. right. exact Hb.
Qed.

Lemma year_slices_cons (c : cell) (l : table) (ys : list Z) :
  NoDup ys -> In (year c) ys ->
  Permutation (flat_map (year_slice (c :: l)) ys)
              (c :: flat_map (year_slice l) ys).
Proof.
  induction 1 as [|y ys Hy Hnd IH]; intro Hin; [destruct Hin|].
  cbn [flat_map]. rewrite year_slice_cons.
  destruct (year c =? y)%Z eqn:E.
  - apply Z.eqb_eq in E.
    rewrite (flat_map_ext_in (year_slice (c :: l)) (year_slice l) ys).
    + reflexivity.
    + intros y' Hy'. rewrite year_slice_cons.
      destruct (year c =? y')%Z eqn:E'; [|reflexivity].
      apply Z.eqb_eq in E'. exfalso. apply Hy. congruence.
  - apply Z.eqb_neq in E.
    destruct Hin as [Hin|Hin]; [exfalso; apply E; congruence|].
    rewrite (IH Hin). symmetry. apply Permutation_middle.
Qed.

Lemma year_slices_nil (ys : list Z) : flat_map (year_slice []) ys = [].
Proof. apply flat_map_all_nil. intros y _. reflexivity. Qed.

(** The slices of the years of a table, put together, are the table. *)
Lemma year_slices_permutation (alloc : table) (ys : list Z) :
  NoDup ys -> (forall c, In c alloc -> In (year c) ys) ->
  Permutation (flat_map (year_slice alloc) ys) alloc.
Proof.
  intro Hnd. induction alloc as [|c l IH]; intro Hall.
  - rewrite year_slices_nil. constructor.
  - rewrite (year_slices_cons c l ys Hnd (Hall c (or_introl eq_refl))).
    constructor. apply IH. intros d Hd. apply Hall. right. exact Hd.
Qed.

Lemma key_columns_clip (l : table) :
  map key_columns
      (map (fun c => with_est c (clip_lower0 (enrollment_est c))) l)
  = map key_columns l.
Proof. rewrite map_map. reflexivity. Qed.

Lemma results_key_columns (alloc : table)
  (county_insurer county_metal : list margin_row) (max_iter : nat) (tol : Q)
  (years : list Z) :
  (forall y, In y years -> In y (map year alloc)) ->
  map key_columns
      (List.concat
         (map yr_df
              (for_years alloc county_insurer county_metal max_iter tol
                         years [])))
  = map key_columns (flat_map (year_slice alloc) years).
Proof.
  rewrite for_years_flat_map. simpl.
  induction years as [|y years IH]; intro Hin; [reflexivity|].
  simpl.
  pose proof (proj2 (year_slice_nonempty alloc y) (Hin y (or_introl eq_refl)))
    as Hne.
  rewrite (solve_year_some alloc county_insurer county_metal max_iter tol y
             Hne).
  rewrite map_app, concat_app, !map_app.
  rewrite IH by (intros z Hz; apply Hin; right; exact Hz).
  f_equal. simpl. rewrite app_nil_r.
  destruct (ipf_loop_outcome
              (targets_of (year_lookup county_insurer y)
                          (map ic_key (year_slice alloc y)))
              (targets_of (year_lookup county_metal y)
                          (map mc_key (year_slice alloc y)))
              tol max_iter 0 (year_slice alloc y) None) as [m [H1 _]].
  rewrite H1.
  apply (reached_key_columns (year_lookup county_insurer y)
                             (year_lookup county_metal y)).
  apply reached_after_iterations.
Qed.

(** X2.  What [run_ipf] returns has the rows of the input table, with
    their key columns unchanged: they are the input rows grouped by
    ascending year, in input order within a year, and so a rearrangement
    of the input rows. *)
Theorem run_ipf_keeps_rows :
  forall (alloc : table) (county_insurer county_metal : list margin_row)
         (max_iter : nat) (tol : Q) (out : table),
    run_ipf alloc county_insurer county_metal max_iter tol = Some out ->
    map key_columns out
    = map key_columns
          (flat_map (year_slice alloc) (sorted_unique (map year alloc)))
    /\ Permutation (map key_columns out) (map key_columns alloc)
    /\ List.length out = List.length alloc.
Proof.
  intros alloc county_insurer county_metal max_iter tol out Hout.
  assert (Hne : exists r0,
             In r0 (for_years alloc county_insurer county_metal max_iter tol
                      (sorted_unique (map year alloc)) [])).
  { unfold run_ipf in Hout.
    destruct (for_years alloc county_insurer county_metal max_iter tol
                (sorted_unique (map year alloc)) []) as [|r0 rs];
      [discriminate|].
    exists r0. left. reflexivity. }
  destruct Hne as [r0 Hr0].
  rewrite (run_ipf_some _ _ _ _ _ _ Hr0) in Hout. injection Hout as <-.
  assert (E : map key_columns
                (map (fun c => with_est c (clip_lower0 (enrollment_est c)))
                   (List.concat
                      (map yr_df
                         (for_years alloc county_insurer county_metal
                            max_iter tol (sorted_unique (map year alloc))
                            []))))
              = map key_columns
                  (flat_map (year_slice alloc)
                            (sorted_unique (map year alloc)))).
  { rewrite key_columns_clip. apply results_key_columns.
    intros y Hy. apply sorted_unique_In. exact Hy. }
  assert (P : Permutation
                (flat_map (year_slice alloc) (sorted_unique (map year alloc)))
                alloc).
  { apply year_slices_permutation.
    - apply strictly_sorted_NoDup, sorted_unique_sorted.
    - intros c Hc. apply sorted_unique_In. apply in_map. exact Hc. }
  split; [exact E|]. split.
  - rewrite E. apply Permutation_map. exact P.
  - rewrite <- (length_map key_columns), E, length_map.
    apply Permutation_length. exact P.
Qed.

(** ** The order of the groups of [base] *)

#[local] Instance Z_compare_order : CmpOrder Z.compare.
Proof.
  split.
  - apply Z.compare_eq_iff.
  - intros a b c H1 H2. rewrite Z.compare_lt_iff in H1, H2 |- *. lia.
  - intros a b H. rewrite Z.compare_gt_iff in H. rewrite Z.compare_lt_iff.
    exact H.
Qed.

#[local] Instance string_compare_order : CmpOrder String.compare.
Proof.
  split.
  - apply String_as_OT.cmp_eq.
  - intros a b c H1 H2. apply String_as_OT.cmp_lt in H1.
    apply String_as_OT.cmp_lt in H2.
    apply String_as_OT.cmp_lt. apply (String_as_OT.lt_trans _ _ _ H1 H2).
  - intros a b H. rewrite String.compare_antisym, H. reflexivity.
Qed.

#[local] Instance lex_cmp_order {A B : Type} (ca : A -> A -> comparison)
  (cb : B -> B -> comparison) `{CmpOrder A ca} `{CmpOrder B cb} :
  CmpOrder (lex_cmp ca cb).
Proof.
  split.
  - intros [a1 a2] [b1 b2]. unfold lex_cmp. simpl.
    destruct (ca a1 b1) eqn:E.
    + apply cmp_eq_iff in E. subst b1. rewrite cmp_eq_iff.
      split; [intros ->; reflexivity|intro H1; inversion H1; reflexivity].
    + split; [discriminate|]. intro H1. inversion H1; subst.
      rewrite (proj2 (cmp_eq_iff b1 b1) eq_refl) in E. discriminate.
    + split; [discriminate|]. intro H1. inversion H1; subst.
      rewrite (proj2 (cmp_eq_iff b1 b1) eq_refl) in E. discriminate.
  - intros [a1 a2] [b1 b2] [c1 c2]. unfold lex_cmp. simpl.
    destruct (ca a1 b1) eqn:E1; try discriminate;
      destruct (ca b1 c1) eqn:E2; try discriminate; intros H1 H2.
    + apply cmp_eq_iff in E1, E2. subst b1 c1.
      rewrite (proj2 (cmp_eq_iff a1 a1) eq_refl).
      apply (cmp_lt_trans _ _ _ H1 H2).
    + apply cmp_eq_iff in E1. subst b1. rewrite E2. reflexivity.
    + apply cmp_eq_iff in E2. subst c1. rewrite E1. reflexivity.
    + rewrite (cmp_lt_trans _ _ _ E1 E2). reflexivity.
  - intros [a1 a2] [b1 b2]. unfold lex_cmp. simpl.
    destruct (ca a1 b1) eqn:E1; try discriminate; intro H1.
    + apply cmp_eq_iff in E1. subst b1.
      rewrite (proj2 (cmp_eq_iff a1 a1) eq_refl). apply cmp_gt_lt. exact H1.
    + rewrite (cmp_gt_lt _ _ E1). reflexivity.
Qed.

#[local] Instance base_key_cmp_order : CmpOrder base_key_cmp.
Proof. unfold base_key_cmp. typeclasses eauto. Qed.

Lemma base_key_cmp_refl (k : Z * Z * string * string * string) :
  base_key_cmp k k = Eq.
Proof. apply cmp_eq_iff. reflexivity. Qed.

Lemma base_row_lt_trans (a b c : base_row) :
  base_row_lt a b -> base_row_lt b c -> base_row_lt a c.
Proof. unfold base_row_lt. apply cmp_lt_trans. Qed.

Lemma base_row_lt_irrefl (a b : base_row) :
  base_row_lt a b -> base_key a <> base_key b.
Proof.
  unfold base_row_lt. intros H E. rewrite E, base_key_cmp_refl in H.
  discriminate.
Qed.

Lemma add_base_group_HdRel (a r : base_row) (groups : list base_row) :
  HdRel base_row_lt a groups -> base_row_lt a r ->
  HdRel base_row_lt a (add_base_group r groups).
Proof.
  intros H Har. destruct groups as [|g gs]; simpl.
  - constructor. exact Har.
  - inversion H as [|g' gs' Hag]; subst.
    destruct (base_key_cmp (base_key r) (base_key g)) eqn:E.
    + constructor. exact Hag.
    + constructor. exact Har.
    + constructor. exact Hag.
Qed.

Lemma add_base_group_sorted (r : base_row) (groups : list base_row) :
  Sorted base_row_lt groups -> Sorted base_row_lt (add_base_group r groups).
Proof.
  induction 1 as [|g gs Hs IH Hd]; simpl.
  - repeat constructor.
  - destruct (base_key_cmp (base_key r) (base_key g)) eqn:E.
    + constructor; [exact Hs|].
      destruct gs as [|g2 gs]; constructor.
      inversion Hd; subst. assumption.
    + repeat constructor; assumption.
    + constructor; [exact IH|].
      apply add_base_group_HdRel; [exact Hd|].
      apply cmp_gt_lt. exact E.
Qed.

Lemma groupby_sum_base_fold_sorted (rows : list kept_base_row) :
  forall groups,
    Sorted base_row_lt groups ->
    Sorted base_row_lt
      (fold_left
         (fun groups k =>
            match kb_plan k with
            | Some p =>
                add_base_group
                  (mkBase (kb_year k) (kb_rating_area k) (kb_insurer k) p
                          (kb_metal_tier k) (kb_enrollment k))
                  groups
            | None => groups
            end)
         rows groups).
Proof.
  induction rows as [|k rows IH]; intros groups H; simpl; [exact H|].
  apply IH. destruct (kb_plan k); [apply add_base_group_sorted|]; exact H.
Qed.

Lemma sorted_base_rows_NoDup (l : list base_row) :
  Sorted base_row_lt l -> NoDup (map base_key l).
Proof.
  intro H. apply Sorted_StronglySorted in H;
    [|intros a b c; apply base_row_lt_trans].
  induction H as [|x l _ IH Hx]; simpl; constructor; [|exact IH].
  intro Hin. apply in_map_iff in Hin. destruct Hin as [y [Hy Hin]].
  rewrite Forall_forall in Hx.
  apply (base_row_lt_irrefl x y (Hx y Hin)). symmetry. exact Hy.
Qed.

(** X6.  The cleaned base table is sorted strictly by year, rating area,
    insurer, plan and metal tier, so it holds every such key once. *)
Theorem clean_base_sorted_unique :
  forall raw : list raw_base_row,
    Sorted base_row_lt (clean_base raw)
    /\ NoDup (map base_key (clean_base raw)).
Proof.
  intro raw.
  assert (H : Sorted base_row_lt (clean_base raw)).
  { unfold clean_base, groupby_sum_base.
    apply groupby_sum_base_fold_sorted. constructor. }
  split; [exact H|apply sorted_base_rows_NoDup; exact H].
Qed.

(** ** The rows the cleaning keeps *)

Lemma add_base_group_In (r b : base_row) (groups : list base_row) :
  In b (add_base_group r groups) ->
  exists b', (b' = r \/ In b' groups) /\ base_key b = base_key b'.
Proof.
  induction groups as [|g gs IH]; simpl.
  - intros [<-|[]]. exists r. split; [left|]; reflexivity.
  - destruct (base_key_cmp (base_key r) (base_key g)).
    + intros [<-|Hin].
      * exists g. split; [right; left|]; reflexivity.
      * exists b. split; [right; right; exact Hin|reflexivity].
    + intros [<-|[<-|Hin]].
      * exists r. split; [left|]; reflexivity.
      * exists g. split; [right; left|]; reflexivity.
      * exists b. split; [right; right; exact Hin|reflexivity].
    + intros [<-|Hin].
      * exists g. split; [right; left|]; reflexivity.
      * destruct (IH Hin) as [b' [[->|Hb'] Hk]].
        -- exists r. split; [left; reflexivity|exact Hk].
        -- exists b'. split; [right; right; exact Hb'|exact Hk].
Qed.

Lemma groupby_sum_base_fold_keys (rows : list kept_base_row) :
  forall groups b,
    In b (fold_left
            (fun groups k =>
               match kb_plan k with
               | Some p =>
                   add_base_group
                     (mkBase (kb_year k) (kb_rating_area k) (kb_insurer k) p
                             (kb_metal_tier k) (kb_enrollment k))
                     groups
               | None => groups
               end)
            rows groups) ->
    (exists g, In g groups /\ base_key b = base_key g)
    \/ (exists k, In k rows /\ kept_key k = Some (base_key b)).
Proof.
  induction rows as [|k rows IH]; intros groups b H; simpl in H.
  - left. exists b. split; [exact H|reflexivity].
  - destruct (IH _ _ H) as [[g [Hg Hk]]|[k' [Hk' Hkey]]].
    + destruct (kb_plan k) as [p|] eqn:Ep.
      * destruct (add_base_group_In _ _ _ Hg) as [b' [[->|Hb'] Hkb]].
        -- right. exists k. split; [left; reflexivity|].
           unfold kept_key. rewrite Ep, Hk, Hkb. reflexivity.
        -- left. exists b'. split; [exact Hb'|congruence].
      * left. exists g. split; assumption.
    + right. exists k'. split; [right; exact Hk'|exact Hkey].
Qed.

Lemma map_dict_In (d : list (string * string)) (v w : string) :
  map_dict d v = Some w -> In (v, w) d.
Proof.
  induction d as [|[k x] d IH]; simpl; [discriminate|].
  destruct (String.eqb k v) eqn:E.
  - apply String.eqb_eq in E. intro H. injection H as <-. subst k.
    left. reflexivity.
  - intro H. right. apply IH. exact H.
Qed.

Lemma kept_base_rows_In (raw : list raw_base_row) (k : kept_base_row) :
  In k (kept_base_rows raw)
  <-> exists r, In r raw /\ keep_base_row r = Some k.
Proof.
  unfold kept_base_rows. rewrite in_flat_map.
  split; intros [r [Hr H]]; exists r; split; try exact Hr.
  - destruct (keep_base_row r) as [k'|]; [|destruct H].
    destruct H as [->|[]]. reflexivity.
  - rewrite H. left. reflexivity.
Qed.

Lemma keep_base_row_fields (r : raw_base_row) (k : kept_base_row) :
  keep_base_row r = Some k ->
  rb_year r = Some (kb_year k)
  /\ rb_rating_area r = Some (kb_rating_area k)
  /\ rb_issuer_name r = Some (kb_insurer k)
  /\ kb_insurer k <> ""%string
  /\ kb_plan k = rb_plan_type r
  /\ (exists metal, rb_metal_level r = Some metal
                    /\ In (metal, kb_metal_tier k) metal_map)
  /\ kb_enrollment k = to_numeric_fillna0 (rb_enrollees r).
Proof.
  unfold keep_base_row.
  destruct (rb_year r) as [y|]; [|discriminate].
  destruct (rb_rating_area r) as [ra|]; [|discriminate].
  destruct (rb_issuer_name r) as [ins|]; [|discriminate].
  destruct (rb_metal_level r) as [metal|]; [|discriminate].
  destruct (String.eqb ins "") eqn:Ei; cbn [negb andb]; [discriminate|].
  destruct (String.eqb metal ""); cbn [negb andb]; [discriminate|].
  destruct (map_dict metal_map metal) as [tier|] eqn:Em; [|discriminate].
  intro H. injection H as <-. cbn [kb_year kb_rating_area kb_insurer kb_plan
                                   kb_metal_tier kb_enrollment].
  repeat split; try reflexivity.
  - intros ->. discriminate Ei.
  - exists metal. split; [reflexivity|]. apply map_dict_In. exact Em.
Qed.

(** X7.  Every row of the cleaned base table stems from a raw row with a
    year, a rating area, a non-empty insurer, a plan and a metal level
    that is a key of the metal map; its metal tier is one of Bronze,
    Silver, Gold, Platinum, Minimum Coverage and Bronze HDHP.  A raw row
    already labelled Bronze HDHP is not among them, that label being no
    key of the map. *)
Theorem clean_base_rows_are_valid :
  forall (raw : list raw_base_row) (b : base_row),
    In b (clean_base raw) ->
    In (b_metal_tier b) metal_tiers
    /\ b_insurer b <> ""%string
    /\ exists r metal,
         In r raw
         /\ rb_year r = Some (b_year b)
         /\ rb_rating_area r = Some (b_rating_area b)
         /\ rb_issuer_name r = Some (b_insurer b)
         /\ rb_plan_type r = Some (b_plan b)
         /\ rb_metal_level r = Some metal
         /\ In (metal, b_metal_tier b) metal_map
         /\ metal <> "Bronze HDHP"%string.
Proof.
  intros raw b Hb. unfold clean_base, groupby_sum_base in Hb.
  destruct (groupby_sum_base_fold_keys _ _ _ Hb) as [[g [[] _]]|[k [Hk Hkey]]].
  apply kept_base_rows_In in Hk. destruct Hk as [r [Hr Hkeep]].
  destruct (keep_base_row_fields r k Hkeep)
    as [Hy [Hra [Hins [Hne [Hplan [[metal [Hm Hmap]] _]]]]]].
  unfold kept_key in Hkey. destruct (kb_plan k) as [p|] eqn:Ep; [|discriminate].
  injection Hkey as Ey Era Ei Epl Emt.
  rewrite <- Ey, <- Era, <- Ei, <- Epl, <- Emt in *.
  assert (Htier : In (kb_metal_tier k) metal_tiers /\ metal <> "Bronze HDHP"%string).
  { unfold metal_map in Hmap. simpl in Hmap.
    repeat (destruct Hmap as [Hmap|Hmap];
            [inversion Hmap; subst; split;
             [simpl; tauto|discriminate]|]).
    destruct Hmap. }
  split; [apply Htier|]. split; [exact Hne|].
  exists r, metal. rewrite <- Hplan.
  repeat split; try assumption. apply Htier.
Qed.

(** ** The enrollment of a group of [base] *)

Lemma in_base_group_iff (k key_of_row : Z * Z * string * string * string) :
  in_base_group k key_of_row = true <-> key_of_row = k.
Proof.
  unfold in_base_group. rewrite <- (cmp_eq_iff (cmp := base_key_cmp)).
  destruct (base_key_cmp key_of_row k); split; congruence.
Qed.

Lemma add_base_group_total (r : base_row) (groups : list base_row)
  (k : Z * Z * string * string * string) :
  Qsum (map b_enrollment
            (filter (fun g => in_base_group k (base_key g))
                    (add_base_group r groups)))
  == Qsum (map b_enrollment
               (filter (fun g => in_base_group k (base_key g)) groups))
     + (if in_base_group k (base_key r) then b_enrollment r else 0).
Proof.
  induction groups as [|g gs IH].
  - cbn [add_base_group filter].
    destruct (in_base_group k (base_key r)); unfold Qsum;
      cbn [map fold_right]; ring.
  - cbn [add_base_group].
    destruct (base_key_cmp (base_key r) (base_key g)) eqn:E.
    + apply cmp_eq_iff in E. cbn [filter].
      change (base_key
                (mkBase (b_year g) (b_rating_area g) (b_insurer g) (b_plan g)
                        (b_metal_tier g) (b_enrollment g + b_enrollment r)))
        with (base_key g).
      rewrite E.
      destruct (in_base_group k (base_key g)); unfold Qsum;
        cbn [map fold_right b_enrollment]; ring.
    + cbn [filter].
      destruct (in_base_group k (base_key r));
        destruct (in_base_group k (base_key g)); unfold Qsum;
        cbn [map fold_right]; ring.
    + cbn [filter].
      destruct (in_base_group k (base_key g)).
      * cbn [map]. unfold Qsum in *. cbn [fold_right]. rewrite IH. ring.
      * exact IH.
Qed.

Lemma groupby_sum_base_fold_total (rows : list kept_base_row)
  (k : Z * Z * string * string * string) :
  forall groups,
    Qsum (map b_enrollment
              (filter (fun g => in_base_group k (base_key g))
                 (fold_left
                    (fun groups k =>
                       match kb_plan k with
                       | Some p =>
                           add_base_group
                             (mkBase (kb_year k) (kb_rating_area k)
                                     (kb_insurer k) p (kb_metal_tier k)
                                     (kb_enrollment k))
                             groups
                       | None => groups
                       end)
                    rows groups)))
    == Qsum (map b_enrollment
                 (filter (fun g => in_base_group k (base_key g)) groups))
       + Qsum (map kb_enrollment
                   (filter (fun k' => match kept_key k' with
                                      | Some key_of_row =>
                                          in_base_group k key_of_row
                                      | None => false
                                      end) rows)).
Proof.
  induction rows as [|k' rows IH]; intro groups; cbn [fold_left filter].
  - unfold Qsum at 3. cbn [map fold_right]. ring.
  - rewrite IH. unfold kept_key at 2.
    destruct (kb_plan k') as [p|].
    + rewrite add_base_group_total.
      change (base_key
                (mkBase (kb_year k') (kb_rating_area k') (kb_insurer k') p
                        (kb_metal_tier k') (kb_enrollment k')))
        with (kb_year k', kb_rating_area k', kb_insurer k', p,
              kb_metal_tier k').
      destruct (in_base_group k
                  (kb_year k', kb_rating_area k', kb_insurer k', p,
                   kb_metal_tier k')); unfold Qsum;
        cbn [map fold_right b_enrollment]; ring.
    + ring.
Qed.

(** X8.  The enrollment of a row of the cleaned base table is the sum of
    the enrollments, a missing one counting as 0, of the kept raw rows
    that have its year, rating area, insurer, plan and harmonised metal
    tier. *)
Theorem clean_base_sums_groups :
  forall (raw : list raw_base_row) (b : base_row),
    In b (clean_base raw) ->
    b_enrollment b
    == Qsum (map kb_enrollment
                 (filter (fun k => match kept_key k with
                                   | Some key_of_row =>
                                       in_base_group (base_key b) key_of_row
                                   | None => false
                                   end)
                         (kept_base_rows raw))).
Proof.
  intros raw b Hb.
  pose proof (groupby_sum_base_fold_total (kept_base_rows raw) (base_key b) [])
    as H.
  fold (groupby_sum_base (kept_base_rows raw)) in H.
  fold (clean_base raw) in H.
  rewrite (filter_unique base_key
             (fun g => in_base_group (base_key b) (base_key g)) b
             (clean_base raw)) in H.
  - cbn [filter map] in H. unfold Qsum at 1 2 in H. cbn [fold_right] in H.
    lra.
  - intro y. apply in_base_group_iff.
  - apply sorted_base_rows_NoDup.
    unfold clean_base, groupby_sum_base.
    apply groupby_sum_base_fold_sorted. constructor.
  - exact Hb.
Qed.

(** ** The validation checks on what [run_ipf] returns *)

(** X10.  Check 4 of [validate] never finds a negative estimate in what
    [run_ipf] returns, whatever the inputs. *)
Theorem no_negative_estimates_returned :
  forall (alloc : table) (county_insurer county_metal : list margin_row)
         (max_iter : nat) (tol : Q) (out : table),
    run_ipf alloc county_insurer county_metal max_iter tol = Some out ->
    neg_count out = 0%nat.
Proof.
  intros alloc county_insurer county_metal max_iter tol out Hout.
  unfold run_ipf in Hout.
  destruct (for_years alloc county_insurer county_metal max_iter tol
              (sorted_unique (map year alloc)) []) as [|r0 rs];
    [discriminate|].
  injection Hout as <-. unfold neg_count.
  rewrite filter_none; [reflexivity|].
  intros c Hc. apply in_map_iff in Hc. destruct Hc as [d [<- _]].
  simpl. apply Qlt_bool_false. apply clip_lower0_ge0.
Qed.

(** ** The margin consistency report *)



(** ** The further properties at the sample inputs *)

Lemma sample_out_returned :
  run_ipf sample_alloc sample_county_insurer sample_county_metal 100
          (1 # 1000) = Some sample_out.
Proof. vm_compute. reflexivity. Defined.

Lemma negative_out_returned :
  run_ipf sample_alloc (clean_margin negative_raw_insurer)
          sample_county_metal 100 (1 # 1000) = Some negative_out.
Proof. vm_compute. reflexivity. Defined.

(** X2 at the sample: the two rows come back. *)
Lemma run_ipf_keeps_rows_witness :
  List.length sample_out = List.length sample_alloc.
Proof.
  exact (proj2 (proj2 (run_ipf_keeps_rows sample_alloc sample_county_insurer
                         sample_county_metal 100 (1 # 1000) sample_out
                         sample_out_returned))).
Defined.

Lemma sample_hdhp_group_cleaned :
  In sample_hdhp_group (clean_base sample_raw_base).
Proof. vm_compute. right. left. reflexivity. Defined.

(** X7 at the sample rows: the group of the three HDHP rows has a tier of
    the list. *)
Lemma clean_base_rows_are_valid_witness :
  In (b_metal_tier sample_hdhp_group) metal_tiers.
Proof.
  exact (proj1 (clean_base_rows_are_valid sample_raw_base sample_hdhp_group
                  sample_hdhp_group_cleaned)).
Defined.

(** X8 at the sample rows: the group of the three HDHP rows holds 14
    enrollees, the row without a count adding none. *)
Lemma clean_base_sums_groups_witness :
  b_enrollment sample_hdhp_group == 14
  /\ b_enrollment sample_hdhp_group
     == Qsum (map kb_enrollment
                  (filter (fun k => match kept_key k with
                                    | Some key_of_row =>
                                        in_base_group
                                          (base_key sample_hdhp_group)
                                          key_of_row
                                    | None => false
                                    end)
                          (kept_base_rows sample_raw_base))).
Proof.
  split; [vm_compute; reflexivity|].
  exact (clean_base_sums_groups sample_raw_base sample_hdhp_group
           sample_hdhp_group_cleaned).
Defined.

(** X10 at the input with the negative count: no negative estimate comes
    back. *)
Lemma no_negative_estimates_returned_witness :
  neg_count negative_out = 0%nat.
Proof.
  exact (no_negative_estimates_returned sample_alloc
           (clean_margin negative_raw_insurer) sample_county_metal 100
           (1 # 1000) negative_out negative_out_returned).
Defined.

(** ** From the raw tables to the allocated table *)



(** * The numeric claims, in binary64 *)

(** From here on the names are those of [F64]. *)
Import F64.

(** ** Signs, zeros and NaN *)

(** Rounding keeps the sign it is given. *)
Lemma binary_round_aux_sign (sx : bool) (mx ex : Z) (lx : location) :
  match binary_round_aux prec emax sx mx ex lx with
  | S754_zero s | S754_infinity s | S754_finite s _ _ => s = sx
  | S754_nan => True
  end.
Proof.
  unfold binary_round_aux.
  destruct (shr_fexp prec emax mx ex lx) as [mrs' e'].
  destruct (shr_fexp prec emax _ e' loc_Exact) as [mrs'' e''].
  destruct (shr_m mrs''); [reflexivity| |exact I].
  destruct (Z.leb e'' (Z.sub emax prec)); reflexivity.
Qed.

(** The doubles that are not below zero: NaN, the two zeros, and the
    positive numbers up to infinity. *)
Lemma not_negative_shape (x : f64) :
  ltb x zero = false
  <-> match x with
      | S754_infinity s | S754_finite s _ _ => s = false
      | _ => True
      end.
Proof.
  destruct x as [s|[]| |[] m e]; cbn; split; intro H;
    try reflexivity; try exact I; try discriminate.
Qed.

Lemma rounded_not_negative (mx ex : Z) (lx : location) :
  ltb (binary_round_aux prec emax false mx ex lx) zero = false.
Proof.
  apply not_negative_shape.
  pose proof (binary_round_aux_sign false mx ex lx) as H.
  destruct (binary_round_aux prec emax false mx ex lx); try exact H; exact I.
Qed.

Lemma mul_not_negative (x f : f64) :
  ltb x zero = false -> ltb f zero = false -> ltb (mul x f) zero = false.
Proof.
  intros Hx Hf. apply not_negative_shape in Hx, Hf.
  destruct x as [sx|sx| |sx mx ex]; destruct f as [sf|sf| |sf mf ef];
    subst; try reflexivity.
  cbn [mul SFmul xorb]. apply rounded_not_negative.
Qed.

(** What exceeds [1e-10] is a positive number or plus infinity. *)
Lemma above_eps_shape (s : f64) :
  ltb eps s = true ->
  match s with
  | S754_infinity sg | S754_finite sg _ _ => sg = false
  | _ => False
  end.
Proof.
  destruct s as [sg|[]| |[] m e]; cbn; intro H;
    try reflexivity; try discriminate.
Qed.

Lemma div_not_negative (t s : f64) :
  ltb t zero = false -> ltb eps s = true -> ltb (div t s) zero = false.
Proof.
  intros Ht Hs. apply not_negative_shape in Ht. apply above_eps_shape in Hs.
  destruct t as [st|st| |st mt et]; destruct s as [ss|ss| |ss ms es];
    subst; try reflexivity; try contradiction.
  cbn [div SFdiv xorb].
  destruct (SFdiv_core_binary prec emax (Z.pos mt) et (Z.pos ms) es)
    as [[mz ez] lz].
  apply rounded_not_negative.
Qed.

Lemma factor_of_not_negative (s t : f64) :
  ltb t zero = false -> ltb (factor_of s t) zero = false.
Proof.
  intro Ht. unfold factor_of. destruct (ltb eps s) eqn:E.
  - apply div_not_negative; assumption.
  - reflexivity.
Qed.

(** A target that is a zero gives a factor that is a zero. *)
Lemma factor_of_zero_target (s t : f64) :
  is_zero t = true -> is_zero (factor_of s t) = true.
Proof.
  intro Ht. unfold factor_of. destruct (ltb eps s) eqn:E; [|reflexivity].
  apply above_eps_shape in E.
  destruct t as [st| | |]; try discriminate.
  destruct s as [ss|ss| |ss ms es]; try contradiction; reflexivity.
Qed.

Lemma mul_zero_factor (x f : f64) :
  is_zero f = true ->
  (is_finite x = true -> is_zero (mul x f) = true)
  /\ (is_finite x = false -> mul x f = nan).
Proof.
  intro Hf. destruct f as [sf| | |]; try discriminate.
  destruct x as [sx|sx| |sx mx ex]; split; intro H;
    try reflexivity; try discriminate.
Qed.

(** A zero times a finite factor is a zero; times an infinite factor or
    NaN it is NaN. *)
Lemma mul_zero_cell (x f : f64) :
  is_zero x = true ->
  (is_finite f = true -> is_zero (mul x f) = true)
  /\ (is_finite f = false -> mul x f = nan).
Proof.
  intro Hx. destruct x as [sx| | |]; try discriminate.
  destruct f as [sf|sf| |sf mf ef]; split; intro H;
    try reflexivity; try discriminate.
Qed.

(** ** The order of the doubles *)

Lemma ltb_rank (x y : f64) :
  ltb x y = true
  <-> is_nan x = false /\ is_nan y = false /\ lt3 (rank x) (rank y).
Proof.
  unfold ltb, SFltb.
  destruct x as [sx|[]| |[] mx ex]; destruct y as [sy|[]| |[] my ey];
    cbn [SFcompare is_nan rank lt3];
    try (split; [discriminate|intros [H1 [H2 H3]]; try discriminate; lia]);
    try (split; [intros _; repeat split; lia|reflexivity]);
    try (destruct sx; split;
         [try discriminate; intros _; repeat split; lia
         |intros [H1 [H2 H3]]; try reflexivity; lia]);
    try (destruct sy; split;
         [try discriminate; intros _; repeat split; lia
         |intros [H1 [H2 H3]]; try reflexivity; lia]).
  - destruct (Z.compare_spec ex ey) as [E|E|E].
    + change (Pos.compare_cont Eq mx my) with (mx ?= my)%positive.
      destruct (Pos.compare_spec mx my) as [F|F|F]; cbn [CompOpp];
        (split; [try discriminate; intros _; repeat split; lia
                |intros [_ [_ H]]; try reflexivity; lia]).
    + split; [discriminate|intros [_ [_ H]]; lia].
    + split; [intros _; repeat split; lia|reflexivity].
  - destruct (Z.compare_spec ex ey) as [E|E|E].
    + change (Pos.compare_cont Eq mx my) with (mx ?= my)%positive.
      destruct (Pos.compare_spec mx my) as [F|F|F];
        (split; [try discriminate; intros _; repeat split; lia
                |intros [_ [_ H]]; try reflexivity; lia]).
    + split; [intros _; repeat split; lia|reflexivity].
    + split; [discriminate|intros [_ [_ H]]; lia].
Qed.

Lemma ltb_true_rank (x y : f64) :
  ltb x y = true -> lt3 (rank x) (rank y).
Proof. intro H. apply ltb_rank in H. tauto. Qed.

Lemma ltb_false_rank (x y : f64) :
  is_nan x = false -> is_nan y = false -> ltb x y = false ->
  ~ lt3 (rank x) (rank y).
Proof.
  intros Hx Hy H Hlt.
  assert (Ht : ltb x y = true) by (apply ltb_rank; tauto).
  congruence.
Qed.

Lemma ltb_not_nan (x y : f64) :
  ltb x y = true -> is_nan x = false /\ is_nan y = false.
Proof. intro H. apply ltb_rank in H. tauto. Qed.

(** [x <= y < z] gives [x < z], with [x <= y] read as "not [y < x]". *)
Lemma ltb_le_lt_trans (x y z : f64) :
  is_nan x = false -> ltb y x = false -> ltb y z = true -> ltb x z = true.
Proof.
  intros Hx Hyx Hyz.
  destruct (ltb_not_nan y z Hyz) as [Hy Hz].
  apply ltb_true_rank in Hyz. apply (ltb_false_rank y x Hy Hx) in Hyx.
  apply ltb_rank. split; [exact Hx|]. split; [exact Hz|].
  destruct (rank x) as [[x1 x2] x3], (rank y) as [[y1 y2] y3],
           (rank z) as [[z1 z2] z3].
  unfold lt3 in *. lia.
Qed.

(** [x < y <= z] leaves no room for [z < x]. *)
Lemma ltb_lt_le_not_lt (x y z : f64) :
  is_nan z = false -> ltb x y = true -> ltb z y = false -> ltb z x = false.
Proof.
  intros Hz Hxy Hzy.
  destruct (ltb_not_nan x y Hxy) as [Hx Hy].
  apply ltb_true_rank in Hxy. apply (ltb_false_rank z y Hz Hy) in Hzy.
  destruct (ltb z x) eqn:E; [|reflexivity].
  apply ltb_true_rank in E.
  destruct (rank x) as [[x1 x2] x3], (rank y) as [[y1 y2] y3],
           (rank z) as [[z1 z2] z3].
  unfold lt3 in *. lia.
Qed.

(** [x <= y <= z] leaves no room for [z < x]. *)
Lemma ltb_le_le_not_lt (x y z : f64) :
  is_nan x = false -> is_nan y = false -> is_nan z = false ->
  ltb y x = false -> ltb z y = false -> ltb z x = false.
Proof.
  intros Hx Hy Hz Hyx Hzy.
  apply (ltb_false_rank y x Hy Hx) in Hyx.
  apply (ltb_false_rank z y Hz Hy) in Hzy.
  destruct (ltb z x) eqn:E; [|reflexivity].
  apply ltb_true_rank in E.
  destruct (rank x) as [[x1 x2] x3], (rank y) as [[y1 y2] y3],
           (rank z) as [[z1 z2] z3].
  unfold lt3 in *. lia.
Qed.

Lemma ltb_irrefl (x : f64) : ltb x x = false.
Proof.
  destruct (ltb x x) eqn:E; [|reflexivity].
  apply ltb_true_rank in E.
  destruct (rank x) as [[x1 x2] x3]. unfold lt3 in E. lia.
Qed.

Lemma is_nan_eq (x : f64) : is_nan x = true -> x = nan.
Proof. destruct x; try discriminate. reflexivity. Qed.

(** ** The maximum of an array *)

Lemma fold_maximum_some_nan (l : list f64) :
  forall x,
    Exists (fun r => is_nan r = true) (x :: l) -> fold_left maximum l x = nan.
Proof.
  induction l as [|y l IH]; intros x H.
  - inversion H as [? ? Hx|? ? Hl]; subst.
    + apply is_nan_eq. exact Hx.
    + inversion Hl.
  - cbn [fold_left]. apply IH.
    inversion H as [? ? Hx|? ? Hl]; subst.
    + left. unfold maximum. rewrite Hx. exact Hx.
    + inversion Hl as [? ? Hy|? ? Hl']; subst.
      * left. unfold maximum. destruct (is_nan x) eqn:Ex; [exact Ex|].
        rewrite Hy. exact Hy.
      * right. exact Hl'.
Qed.

Lemma fold_maximum_spec (l : list f64) :
  forall x,
    Forall (fun r => is_nan r = false) (x :: l) ->
    is_nan (fold_left maximum l x) = false
    /\ In (fold_left maximum l x) (x :: l)
    /\ Forall (fun r => ltb (fold_left maximum l x) r = false) (x :: l).
Proof.
  induction l as [|y l IH]; intros x H.
  - inversion H as [|? ? Hx _]; subst. cbn [fold_left].
    split; [exact Hx|]. split; [left; reflexivity|].
    constructor; [apply ltb_irrefl|constructor].
  - inversion H as [|? ? Hx Hl]; subst.
    inversion Hl as [|? ? Hy Hl']; subst.
    cbn [fold_left].
    assert (Hm : maximum x y = if ltb x y then y else x)
      by (unfold maximum; rewrite Hx, Hy; reflexivity).
    assert (Hmn : is_nan (maximum x y) = false)
      by (rewrite Hm; destruct (ltb x y); assumption).
    destruct (IH (maximum x y)) as [H1 [H2 H3]];
      [constructor; assumption|].
    set (m := fold_left maximum l (maximum x y)) in *.
    inversion H3 as [|? ? Hmx Hml]; subst.
    split; [exact H1|]. split.
    + destruct H2 as [E|Hin].
      * rewrite <- E, Hm. destruct (ltb x y); [right; left|left]; reflexivity.
      * right. right. exact Hin.
    + rewrite Hm in Hmx. destruct (ltb x y) eqn:Exy.
      * constructor; [|constructor; assumption].
        apply (ltb_lt_le_not_lt x y m); assumption.
      * constructor; [exact Hmx|]. constructor; [|exact Hml].
        apply (ltb_le_le_not_lt y x m); assumption.
Qed.

(** [np_max]: NaN as soon as one element is NaN; otherwise an element that
    no element exceeds. *)
Lemma np_max_spec (a : list f64) :
  a <> [] ->
  (Exists (fun r => is_nan r = true) a -> np_max a = nan)
  /\ (Forall (fun r => is_nan r = false) a ->
      is_nan (np_max a) = false
      /\ In (np_max a) a
      /\ Forall (fun r => ltb (np_max a) r = false) a).
Proof.
  destruct a as [|x l]; [congruence|]. intros _. split.
  - apply fold_maximum_some_nan.
  - apply fold_maximum_spec.
Qed.

Lemma with_nan_or_without (a : list f64) :
  Exists (fun r => is_nan r = true) a
  \/ Forall (fun r => is_nan r = false) a.
Proof.
  induction a as [|x a IH].
  - right. constructor.
  - destruct (is_nan x) eqn:E.
    + left. left. exact E.
    + destruct IH as [H|H]; [left; right; exact H|right].
      constructor; assumption.
Qed.

(** ** The convergence statistic *)

Lemma masked_changes (prev_est : list f64) :
  forall current_est,
    List.length current_est = List.length prev_est ->
    zip_with relative_change
      (bool_index current_est (map (fun p => ltb eps p) prev_est))
      (bool_index prev_est (map (fun p => ltb eps p) prev_est))
    = relative_changes prev_est current_est.
Proof.
  unfold relative_changes.
  induction prev_est as [|p prev IH]; intros [|c cur] H; simpl in *;
    try reflexivity; try discriminate.
  destruct (ltb eps p); simpl; rewrite IH by lia; reflexivity.
Qed.

Lemma any_nonzero (prev_est current_est : list f64) :
  List.length current_est = List.length prev_est ->
  existsb (fun b => b) (map (fun p => ltb eps p) prev_est) = false
  <-> relative_changes prev_est current_est = [].
Proof.
  unfold relative_changes. revert current_est.
  induction prev_est as [|p prev IH]; intros [|c cur] H; simpl in *;
    try discriminate.
  - split; reflexivity.
  - destruct (ltb eps p); simpl.
    + split; discriminate.
    + apply IH. lia.
Qed.

Lemma max_change_of_changes (prev_est current_est : list f64) :
  List.length current_est = List.length prev_est ->
  max_change_of prev_est current_est
  = match relative_changes prev_est current_est with
    | [] => zero
    | _ :: _ => np_max (relative_changes prev_est current_est)
    end.
Proof.
  intro H. unfold max_change_of.
  rewrite (masked_changes prev_est current_est H).
  destruct (existsb (fun b => b) (map (fun p => ltb eps p) prev_est)) eqn:E.
  - destruct (relative_changes prev_est current_est) eqn:R; [|reflexivity].
    apply (any_nonzero prev_est current_est H) in R. congruence.
  - apply (any_nonzero prev_est current_est H) in E. rewrite E. reflexivity.
Qed.

Lemma in_combine_nth {A B : Type} (a : A) (b : B) (la : list A) :
  forall lb,
    In (a, b) (combine la lb)
    <-> exists i, nth_error la i = Some a /\ nth_error lb i = Some b.
Proof.
  induction la as [|x la IH]; intros [|y lb]; simpl.
  - split; [intros []|intros [[|i] [H _]]; discriminate].
  - split; [intros []|intros [[|i] [H _]]; discriminate].
  - split; [intros []|intros [[|i] [_ H]]; discriminate].
  - rewrite IH. split.
    + intros [E|[i Hi]].
      * inversion E; subst. exists O. split; reflexivity.
      * exists (S i). exact Hi.
    + intros [[|i] [H1 H2]]; simpl in *.
      * left. congruence.
      * right. exists i. split; assumption.
Qed.

Lemma in_relative_changes (prev_est current_est : list f64) (x : f64) :
  In x (relative_changes prev_est current_est)
  <-> exists i c p,
        nth_error current_est i = Some c /\ nth_error prev_est i = Some p
        /\ ltb eps p = true /\ x = relative_change c p.
Proof.
  unfold relative_changes. rewrite in_map_iff. split.
  - intros [[c p] [Hx Hin]]. apply filter_In in Hin.
    destruct Hin as [Hin Hp]. simpl in *.
    apply in_combine_nth in Hin. destruct Hin as [i [Hc Hpi]].
    exists i, c, p. repeat split; try assumption. symmetry. exact Hx.
  - intros [i [c [p [Hc [Hp [He Hx]]]]]].
    exists (c, p). split; [symmetry; exact Hx|].
    apply filter_In. split; [|exact He].
    apply in_combine_nth. exists i. split; assumption.
Qed.

(** A relative change is NaN or not below zero. *)
Lemma relative_change_not_negative (c p : f64) :
  ltb eps p = true -> ltb (relative_change c p) zero = false.
Proof.
  intro Hp. unfold relative_change. apply div_not_negative; [|exact Hp].
  apply not_negative_shape. destruct (sub c p); cbn; try reflexivity; exact I.
Qed.

(** ** A scaling step, row by row, in binary64 *)

Lemma targets_of_some (lookup : series) (keys : list key) :
  forall ts,
    targets_of lookup keys = Some ts ->
    ts = map (target_of lookup) keys
    /\ Forall (fun k => series_get lookup k zero = Some (target_of lookup k))
              keys.
Proof.
  induction keys as [|k keys IH]; intros ts H; cbn [targets_of] in H.
  - inversion H. split; [reflexivity|constructor].
  - destruct (series_get lookup k zero) as [v|] eqn:Ek; [|discriminate].
    destruct (targets_of lookup keys) as [vs|]; [|discriminate].
    inversion H; subst. destruct (IH vs eq_refl) as [-> HF].
    assert (Et : target_of lookup k = v)
      by (unfold target_of; rewrite Ek; reflexivity).
    split.
    + cbn [map]. rewrite Et. reflexivity.
    + constructor; [rewrite Et; exact Ek|exact HF].
Qed.

Lemma key_eqb_eq (a b : key) : key_eqb a b = true <-> a = b.
Proof.
  unfold key_eqb. rewrite andb_true_iff, !String.eqb_eq.
  destruct a, b; simpl. split; [intros [-> ->]; reflexivity|].
  intro H. inversion H. split; reflexivity.
Qed.

(** An index without duplicates holds at most one value under a key. *)
Lemma matches_unique (lookup : series) (k : key) :
  NoDup (map fst lookup) -> (List.length (matches lookup k) <= 1)%nat.
Proof.
  unfold matches. induction lookup as [|[k' v] l IH]; intro Hnd.
  - simpl. lia.
  - cbn [map fst] in Hnd. inversion Hnd as [|? ? Hk Hnd']; subst.
    cbn [filter fst]. destruct (key_eqb k' k) eqn:E.
    + apply key_eqb_eq in E. subst k'.
      assert (Hnone : filter (fun entry : key * f64 => key_eqb (fst entry) k) l
                      = []).
      { clear IH Hnd Hnd'. induction l as [|[k2 v2] l IHl]; [reflexivity|].
        cbn [filter fst]. destruct (key_eqb k2 k) eqn:E2.
        - apply key_eqb_eq in E2. subst k2. exfalso. apply Hk. left.
          reflexivity.
        - apply IHl. intro Hin. apply Hk. right. exact Hin. }
      rewrite Hnone. simpl. lia.
    + apply IH. exact Hnd'.
Qed.

Lemma series_get_unique_keys (lookup : series) (k : key) (default : f64) :
  NoDup (map fst lookup) -> exists v, series_get lookup k default = Some v.
Proof.
  intro Hnd. pose proof (matches_unique lookup k Hnd) as Hlen.
  unfold series_get.
  destruct (matches lookup k) as [|v [|v' l]]; eauto.
  simpl in Hlen. lia.
Qed.

Lemma targets_of_unique_keys (lookup : series) (keys : list key) :
  NoDup (map fst lookup) -> exists ts, targets_of lookup keys = Some ts.
Proof.
  intro Hnd. induction keys as [|k keys IH].
  - exists []. reflexivity.
  - destruct (series_get_unique_keys lookup k zero Hnd) as [v Hv].
    destruct IH as [vs Hvs].
    exists (v :: vs). cbn [targets_of]. rewrite Hv, Hvs. reflexivity.
Qed.

Lemma zip_columns_f64 (F : f64 -> f64 -> f64) (h g : cell -> f64)
  (df : table) :
  assign_est df
    (zip_with mul (est_values df) (zip_with F (map h df) (map g df)))
  = map (fun c => with_est c (mul (enrollment_est c) (F (h c) (g c)))) df.
Proof.
  unfold assign_est, est_values.
  induction df as [|c df IH]; simpl; [reflexivity|].
  f_equal. exact IH.
Qed.

Lemma key_columns_ic_f64 (df df0 : table) :
  map key_columns df = map key_columns df0 -> map ic_key df = map ic_key df0.
Proof.
  intro H.
  assert (E : forall l, map ic_key l = map ic_key (map key_columns l))
    by (intro l; rewrite map_map; reflexivity).
  rewrite (E df), (E df0), H. reflexivity.
Qed.

Lemma key_columns_mc_f64 (df df0 : table) :
  map key_columns df = map key_columns df0 -> map mc_key df = map mc_key df0.
Proof.
  intro H.
  assert (E : forall l, map mc_key l = map mc_key (map key_columns l))
    by (intro l; rewrite map_map; reflexivity).
  rewrite (E df), (E df0), H. reflexivity.
Qed.

Lemma key_columns_scaled_f64 (f : cell -> f64) (df : table) :
  map key_columns (map (fun c => with_est c (f c)) df) = map key_columns df.
Proof. rewrite map_map. reflexivity. Qed.

Lemma key_columns_length_f64 (df df' : table) :
  map key_columns df = map key_columns df' ->
  List.length df = List.length df'.
Proof.
  intro H. rewrite <- (length_map key_columns df), H. apply length_map.
Qed.

Section OneYearBinary64.

Variable array_sum : list f64 -> f64.
Variables ic_lookup mc_lookup : series.
Variable df0 : table.
Variables ic_targets mc_targets : list f64.
Hypothesis ic_targets_built :
  targets_of ic_lookup (map ic_key df0) = Some ic_targets.
Hypothesis mc_targets_built :
  targets_of mc_lookup (map mc_key df0) = Some mc_targets.

(** The factor a step applies to a row. *)
Lemma step_A_rows_f64 (df : table) :
  map key_columns df = map key_columns df0 ->
  step_A array_sum ic_targets df
  = map (fun c =>
           with_est c
             (mul (enrollment_est c)
                  (factor_of (group_sum array_sum ic_key df (ic_key c))
                             (target_of ic_lookup (ic_key c)))))
        df.
Proof.
  intro H. unfold step_A, scale_step, where_factors, transform_sum.
  destruct (targets_of_some _ _ _ ic_targets_built) as [-> _].
  rewrite <- (key_columns_ic_f64 _ _ H), map_map.
  apply (zip_columns_f64 factor_of
           (fun c => group_sum array_sum ic_key df (ic_key c))
           (fun c => target_of ic_lookup (ic_key c))).
Qed.

Lemma step_B_rows_f64 (df : table) :
  map key_columns df = map key_columns df0 ->
  step_B array_sum mc_targets df
  = map (fun c =>
           with_est c
             (mul (enrollment_est c)
                  (factor_of (group_sum array_sum mc_key df (mc_key c))
                             (target_of mc_lookup (mc_key c)))))
        df.
Proof.
  intro H. unfold step_B, scale_step, where_factors, transform_sum.
  destruct (targets_of_some _ _ _ mc_targets_built) as [-> _].
  rewrite <- (key_columns_mc_f64 _ _ H), map_map.
  apply (zip_columns_f64 factor_of
           (fun c => group_sum array_sum mc_key df (mc_key c))
           (fun c => target_of mc_lookup (mc_key c))).
Qed.

Lemma reached_key_columns_f64 (df : table) :
  reached array_sum ic_targets mc_targets df0 df ->
  map key_columns df = map key_columns df0.
Proof.
  induction 1 as [|df _ IH|df _ IH].
  - reflexivity.
  - rewrite (step_A_rows_f64 df IH), key_columns_scaled_f64. exact IH.
  - rewrite (step_B_rows_f64 df IH), key_columns_scaled_f64. exact IH.
Qed.

(** The lookups answer for the key of every row of a reached table. *)
Lemma reached_ic_target (df : table) (c : cell) :
  reached array_sum ic_targets mc_targets df0 df -> In c df ->
  series_get ic_lookup (ic_key c) zero = Some (target_of ic_lookup (ic_key c)).
Proof.
  intros Hr Hin.
  destruct (targets_of_some _ _ _ ic_targets_built) as [_ HF].
  rewrite <- (key_columns_ic_f64 _ _ (reached_key_columns_f64 df Hr)) in HF.
  rewrite Forall_forall in HF. apply HF. apply in_map. exact Hin.
Qed.

Lemma reached_mc_target (df : table) (c : cell) :
  reached array_sum ic_targets mc_targets df0 df -> In c df ->
  series_get mc_lookup (mc_key c) zero = Some (target_of mc_lookup (mc_key c)).
Proof.
  intros Hr Hin.
  destruct (targets_of_some _ _ _ mc_targets_built) as [_ HF].
  rewrite <- (key_columns_mc_f64 _ _ (reached_key_columns_f64 df Hr)) in HF.
  rewrite Forall_forall in HF. apply HF. apply in_map. exact Hin.
Qed.

(** Row [i] of a table after either step. *)
Lemma step_A_row (df : table) (i : nat) (c : cell) :
  reached array_sum ic_targets mc_targets df0 df ->
  nth_error df i = Some c ->
  nth_error (step_A array_sum ic_targets df) i
  = Some (with_est c
            (mul (enrollment_est c)
                 (factor_of (group_sum array_sum ic_key df (ic_key c))
                            (target_of ic_lookup (ic_key c))))).
Proof.
  intros Hr Hi.
  rewrite (step_A_rows_f64 df (reached_key_columns_f64 df Hr)).
  exact (map_nth_error
           (fun c => with_est c
              (mul (enrollment_est c)
                   (factor_of (group_sum array_sum ic_key df (ic_key c))
                              (target_of ic_lookup (ic_key c)))))
           i df Hi).
Qed.

Lemma step_B_row (df : table) (i : nat) (c : cell) :
  reached array_sum ic_targets mc_targets df0 df ->
  nth_error df i = Some c ->
  nth_error (step_B array_sum mc_targets df) i
  = Some (with_est c
            (mul (enrollment_est c)
                 (factor_of (group_sum array_sum mc_key df (mc_key c))
                            (target_of mc_lookup (mc_key c))))).
Proof.
  intros Hr Hi.
  rewrite (step_B_rows_f64 df (reached_key_columns_f64 df Hr)).
  exact (map_nth_error
           (fun c => with_est c
              (mul (enrollment_est c)
                   (factor_of (group_sum array_sum mc_key df (mc_key c))
                              (target_of mc_lookup (mc_key c)))))
           i df Hi).
Qed.

Lemma reached_after_iterations_f64 (n : nat) :
  reached array_sum ic_targets mc_targets df0
          (after_iterations array_sum ic_targets mc_targets n df0).
Proof.
  induction n as [|n IH]; simpl.
  - apply reached_start.
  - apply reached_B, reached_A. exact IH.
Qed.

End OneYearBinary64.

(** ** C1: what a scaling step does to a row *)

Lemma factor_of_cases (s t x : f64) :
  (ltb eps s = true -> mul x (factor_of s t) = mul x (div t s))
  /\ (ltb eps s = false ->
      mul x (factor_of s t) = mul x zero
      /\ (is_finite x = true -> is_zero (mul x zero) = true)
      /\ (is_finite x = false -> mul x zero = nan)).
Proof.
  unfold factor_of. split; intro H; rewrite H; [reflexivity|].
  split; [reflexivity|]. apply mul_zero_factor. reflexivity.
Qed.

(** C1, in doubles.  On every table a year passes through, Step A and
    Step B keep the key columns of each row and multiply its estimate by
    the factor of its group: by the double quotient [target / sum] when the
    sum of the group exceeds 1e-10, and by 0 otherwise, which leaves a zero
    in a finite cell and NaN in an infinite or NaN one.  Here [sum] is what
    the summation kernel returns for the group and [target] what the lookup
    holds for its key. *)
Theorem scaling_step_applies_group_factor :
  forall (array_sum : list f64 -> f64) (ic_lookup mc_lookup : series)
         (df0 : table) (ic_targets mc_targets : list f64),
    targets_of ic_lookup (map ic_key df0) = Some ic_targets ->
    targets_of mc_lookup (map mc_key df0) = Some mc_targets ->
    forall (df : table) (i : nat) (c : cell),
      reached array_sum ic_targets mc_targets df0 df ->
      nth_error df i = Some c ->
      (exists t c',
          series_get ic_lookup (ic_key c) zero = Some t
          /\ nth_error (step_A array_sum ic_targets df) i = Some c'
          /\ key_columns c' = key_columns c
          /\ (ltb eps (group_sum array_sum ic_key df (ic_key c)) = true ->
              enrollment_est c'
              = mul (enrollment_est c)
                    (div t (group_sum array_sum ic_key df (ic_key c))))
          /\ (ltb eps (group_sum array_sum ic_key df (ic_key c)) = false ->
              enrollment_est c' = mul (enrollment_est c) zero
              /\ (is_finite (enrollment_est c) = true ->
                  is_zero (enrollment_est c') = true)
              /\ (is_finite (enrollment_est c) = false ->
                  enrollment_est c' = nan)))
      /\ (exists t c',
             series_get mc_lookup (mc_key c) zero = Some t
             /\ nth_error (step_B array_sum mc_targets df) i = Some c'
             /\ key_columns c' = key_columns c
             /\ (ltb eps (group_sum array_sum mc_key df (mc_key c)) = true ->
                 enrollment_est c'
                 = mul (enrollment_est c)
                       (div t (group_sum array_sum mc_key df (mc_key c))))
             /\ (ltb eps (group_sum array_sum mc_key df (mc_key c)) = false ->
                 enrollment_est c' = mul (enrollment_est c) zero
                 /\ (is_finite (enrollment_est c) = true ->
                     is_zero (enrollment_est c') = true)
                 /\ (is_finite (enrollment_est c) = false ->
                     enrollment_est c' = nan))).
Proof.
  intros array_sum ic_lookup mc_lookup df0 ic_targets mc_targets Hic Hmc
         df i c Hr Hi.
  pose proof (nth_error_In _ _ Hi) as Hin.
  split.
  - exists (target_of ic_lookup (ic_key c)). eexists.
    split; [exact (reached_ic_target array_sum ic_lookup mc_lookup df0
                     ic_targets mc_targets Hic Hmc df c Hr Hin)|].
    split; [exact (step_A_row array_sum ic_lookup mc_lookup df0 ic_targets
                     mc_targets Hic Hmc df i c Hr Hi)|].
    split; [reflexivity|]. cbn [enrollment_est with_est].
    destruct (factor_of_cases (group_sum array_sum ic_key df (ic_key c))
                (target_of ic_lookup (ic_key c)) (enrollment_est c))
      as [Ha Hb].
    split; [exact Ha|]. intro E. destruct (Hb E) as [E0 [Hz Hn]].
    rewrite E0. repeat split; assumption.
  - exists (target_of mc_lookup (mc_key c)). eexists.
    split; [exact (reached_mc_target array_sum ic_lookup mc_lookup df0
                     ic_targets mc_targets Hic Hmc df c Hr Hin)|].
    split; [exact (step_B_row array_sum ic_lookup mc_lookup df0 ic_targets
                     mc_targets Hic Hmc df i c Hr Hi)|].
    split; [reflexivity|]. cbn [enrollment_est with_est].
    destruct (factor_of_cases (group_sum array_sum mc_key df (mc_key c))
                (target_of mc_lookup (mc_key c)) (enrollment_est c))
      as [Ha Hb].
    split; [exact Ha|]. intro E. destruct (Hb E) as [E0 [Hz Hn]].
    rewrite E0. repeat split; assumption.
Qed.

(** ** The iteration loop and the loop over years, unrolled *)

Lemma after_iterations_shift_f64 (array_sum : list f64 -> f64)
  (ic_targets mc_targets : list f64) (n : nat) (df : table) :
  after_iterations array_sum ic_targets mc_targets (S n) df
  = after_iterations array_sum ic_targets mc_targets n
      (fst (ipf_body array_sum ic_targets mc_targets df)).
Proof.
  induction n as [|n IH].
  - reflexivity.
  - change (after_iterations array_sum ic_targets mc_targets (S (S n)) df)
      with (fst (ipf_body array_sum ic_targets mc_targets
                   (after_iterations array_sum ic_targets mc_targets
                                     (S n) df))).
    rewrite IH. reflexivity.
Qed.

Lemma ipf_loop_S_f64 (array_sum : list f64 -> f64)
  (ic_targets mc_targets : list f64) (tol : f64)
  (r done : nat) (df : table) (final : f64) :
  ipf_loop array_sum ic_targets mc_targets tol (S r) done df final
  = if ltb (snd (ipf_body array_sum ic_targets mc_targets df)) tol
    then (fst (ipf_body array_sum ic_targets mc_targets df),
          mkReport true (S done)
                   (snd (ipf_body array_sum ic_targets mc_targets df)))
    else ipf_loop array_sum ic_targets mc_targets tol r (S done)
           (fst (ipf_body array_sum ic_targets mc_targets df))
           (snd (ipf_body array_sum ic_targets mc_targets df)).
Proof. reflexivity. Qed.

(** What the loop returns is the table after some number [m] of bodies;
    with [converged] set, body [m] is the one whose max change was below
    [tol]. *)
Lemma ipf_loop_outcome_f64 (array_sum : list f64 -> f64)
  (ic_targets mc_targets : list f64) (tol : f64) (remaining : nat) :
  forall (done : nat) (df : table) (final : f64),
    exists m,
      (m <= remaining)%nat
      /\ fst (ipf_loop array_sum ic_targets mc_targets tol remaining done df
                       final)
         = after_iterations array_sum ic_targets mc_targets m df
      /\ iterations_used
           (snd (ipf_loop array_sum ic_targets mc_targets tol remaining done
                          df final))
         = (done + m)%nat
      /\ (converged
            (snd (ipf_loop array_sum ic_targets mc_targets tol remaining done
                           df final)) = true ->
          (1 <= m)%nat
          /\ ltb (delta_at array_sum ic_targets mc_targets df m) tol = true).
Proof.
  induction remaining as [|r IH]; intros done df final.
  - exists O. cbn. repeat split; try lia; discriminate.
  - rewrite ipf_loop_S_f64.
    destruct (ltb (snd (ipf_body array_sum ic_targets mc_targets df)) tol)
      eqn:Et.
    + exists 1%nat. cbn [fst snd converged iterations_used].
      split; [lia|]. split; [reflexivity|]. split; [lia|].
      intros _. split; [lia|exact Et].
    + destruct (IH (S done)
                   (fst (ipf_body array_sum ic_targets mc_targets df))
                   (snd (ipf_body array_sum ic_targets mc_targets df)))
        as [m [H1 [H2 [H3 H4]]]].
      exists (S m). split; [lia|]. split; [|split].
      * rewrite H2, after_iterations_shift_f64. reflexivity.
      * rewrite H3. lia.
      * intro Hc. destruct (H4 Hc) as [Hm Hlt]. split; [lia|].
        unfold delta_at in *. destruct m as [|m']; [lia|].
        cbn [Nat.pred] in *. rewrite after_iterations_shift_f64. exact Hlt.
Qed.

Lemma clip_lower0_not_negative (v : f64) : ltb (clip_lower0 v) zero = false.
Proof.
  unfold clip_lower0. destruct (ltb v zero) eqn:E; [reflexivity|exact E].
Qed.

Lemma clip_lower0_same (v : f64) : ltb v zero = false -> clip_lower0 v = v.
Proof. intro H. unfold clip_lower0. rewrite H. reflexivity. Qed.

Lemma with_est_same_f64 (c : cell) : with_est c (enrollment_est c) = c.
Proof. destruct c. reflexivity. Qed.

Lemma leb_zero_not_negative (x : f64) :
  leb zero x = true -> ltb x zero = false.
Proof. destruct x as [s|[]| |[] m e]; cbn; congruence. Qed.

Section YearsBinary64.

Variable array_sum : list f64 -> f64.
Variable alloc : table.
Variables county_insurer county_metal : list margin_row.
Variable max_iter : nat.
Variable tol : f64.

(** A year that yields a result had its two target arrays built as 1-D
    arrays, and the result is what the loop left; or no loop body was to
    run, and the result is the slice of the year. *)
Lemma solve_year_ok (yr : Z) (r : year_result) :
  solve_year array_sum alloc county_insurer county_metal max_iter tol yr
  = Ok (Some r) ->
  (exists ic_targets mc_targets,
      targets_of (year_lookup county_insurer yr)
                 (map ic_key (year_slice alloc yr)) = Some ic_targets
      /\ targets_of (year_lookup county_metal yr)
                    (map mc_key (year_slice alloc yr)) = Some mc_targets
      /\ yr_year r = yr
      /\ yr_df r
         = fst (ipf_loop array_sum ic_targets mc_targets tol max_iter 0
                         (year_slice alloc yr) inf)
      /\ yr_report r
         = snd (ipf_loop array_sum ic_targets mc_targets tol max_iter 0
                         (year_slice alloc yr) inf))
  \/ (max_iter = 0%nat /\ yr_year r = yr
      /\ yr_df r = year_slice alloc yr
      /\ yr_report r = mkReport false 0 inf).
Proof.
  unfold solve_year.
  destruct (year_slice alloc yr) as [|c df] eqn:E; [discriminate|].
  assert (Hskip :
            (if (array_built (year_lookup county_insurer yr)
                             (map ic_key (c :: df))
                 && array_built (year_lookup county_metal yr)
                                (map mc_key (c :: df))
                 && (max_iter =? 0)%nat)%bool
             then Ok (Some (mkYearResult yr (c :: df) (mkReport false 0 inf)))
             else ValueError) = Ok (Some r) ->
            max_iter = 0%nat /\ yr_year r = yr
            /\ yr_df r = c :: df /\ yr_report r = mkReport false 0 inf).
  { destruct (array_built (year_lookup county_insurer yr)
                          (map ic_key (c :: df))
              && array_built (year_lookup county_metal yr)
                             (map mc_key (c :: df)))%bool;
      cbn [andb]; [|discriminate].
    destruct (max_iter =? 0)%nat eqn:Em; [|discriminate].
    apply Nat.eqb_eq in Em. intro H. inversion H; subst.
    repeat split; reflexivity. }
  destruct (targets_of (year_lookup county_insurer yr) (map ic_key (c :: df)))
    as [ict|]; [|intro H; right; exact (Hskip H)].
  destruct (targets_of (year_lookup county_metal yr) (map mc_key (c :: df)))
    as [mct|]; [|intro H; right; exact (Hskip H)].
  destruct (ipf_loop array_sum ict mct tol max_iter 0 (c :: df) inf)
    as [df' rep] eqn:EL.
  intro H. inversion H; subst. left. exists ict, mct. rewrite EL.
  repeat split; reflexivity.
Qed.

Lemma solve_year_reached_f64 (yr : Z) (r : year_result) :
  solve_year array_sum alloc county_insurer county_metal max_iter tol yr
  = Ok (Some r) ->
  (exists ic_targets mc_targets,
      targets_of (year_lookup county_insurer yr)
                 (map ic_key (year_slice alloc yr)) = Some ic_targets
      /\ targets_of (year_lookup county_metal yr)
                    (map mc_key (year_slice alloc yr)) = Some mc_targets
      /\ reached array_sum ic_targets mc_targets (year_slice alloc yr)
                 (yr_df r))
  \/ yr_df r = year_slice alloc yr.
Proof.
  intro H. destruct (solve_year_ok yr r H)
    as [[ict [mct [Hic [Hmc [_ [Hdf _]]]]]]|[_ [_ [Hdf _]]]];
    [left|right; exact Hdf].
  exists ict, mct. split; [exact Hic|]. split; [exact Hmc|].
  destruct (ipf_loop_outcome_f64 array_sum ict mct tol max_iter 0
              (year_slice alloc yr) inf) as [m [_ [Hm _]]].
  rewrite Hdf, Hm.
  apply reached_after_iterations_f64.
Qed.

(** Every result of the loop over the years was there before or comes
    from one of the years. *)
Lemma for_years_ok (years : list Z) :
  forall acc results,
    for_years array_sum alloc county_insurer county_metal max_iter tol years
              acc = Ok results ->
    forall r, In r results ->
      In r acc
      \/ exists yr,
           In yr years
           /\ solve_year array_sum alloc county_insurer county_metal max_iter
                         tol yr = Ok (Some r).
Proof.
  induction years as [|yr years IH]; intros acc results H r Hr;
    cbn [for_years] in H.
  - inversion H; subst. left. exact Hr.
  - destruct (solve_year array_sum alloc county_insurer county_metal max_iter
                         tol yr) as [[r0|]|] eqn:E; [| |discriminate].
    + destruct (IH _ _ H r Hr) as [Hacc|[y [Hy Hs]]].
      * apply in_app_or in Hacc. destruct Hacc as [Hacc|[<-|[]]].
        -- left. exact Hacc.
        -- right. exists yr. split; [left; reflexivity|exact E].
      * right. exists y. split; [right; exact Hy|exact Hs].
    + destruct (IH _ _ H r Hr) as [Hacc|[y [Hy Hs]]].
      * left. exact Hacc.
      * right. exists y. split; [right; exact Hy|exact Hs].
Qed.

(** The loop over the years fails only where a year fails, and keeps what
    it had. *)
Lemma for_years_succeeds (years : list Z) :
  (forall yr, In yr years ->
     solve_year array_sum alloc county_insurer county_metal max_iter tol yr
     <> ValueError) ->
  forall acc,
    exists results,
      for_years array_sum alloc county_insurer county_metal max_iter tol years
                acc = Ok results
      /\ (forall r, In r acc -> In r results)
      /\ (forall yr r, In yr years ->
            solve_year array_sum alloc county_insurer county_metal max_iter
                       tol yr = Ok (Some r) -> In r results).
Proof.
  induction years as [|yr years IH]; intros Hok acc; cbn [for_years].
  - exists acc. split; [reflexivity|]. split; [auto|]. intros yr r [].
  - assert (Hok' : forall y, In y years ->
              solve_year array_sum alloc county_insurer county_metal max_iter
                         tol y <> ValueError)
      by (intros y Hy; apply Hok; right; exact Hy).
    destruct (solve_year array_sum alloc county_insurer county_metal max_iter
                         tol yr) as [[r0|]|] eqn:E.
    + destruct (IH Hok' (acc ++ [r0])) as [results [H1 [H2 H3]]].
      exists results. split; [exact H1|]. split.
      * intros r Hr. apply H2. apply in_or_app. left. exact Hr.
      * intros y r [<-|Hy] Hs.
        -- rewrite E in Hs. inversion Hs; subst. apply H2.
           apply in_or_app. right. left. reflexivity.
        -- apply (H3 y r Hy Hs).
    + destruct (IH Hok' acc) as [results [H1 [H2 H3]]].
      exists results. split; [exact H1|]. split; [exact H2|].
      intros y r [<-|Hy] Hs.
      * rewrite E in Hs. discriminate.
      * apply (H3 y r Hy Hs).
    + exfalso. apply (Hok yr); [left; reflexivity|exact E].
Qed.

(** What [run_ipf] returns is the clipped concatenation of the results of
    the years. *)
Lemma run_ipf_ok (out : table) :
  run_ipf array_sum alloc county_insurer county_metal max_iter tol = Ok out ->
  exists results,
    for_years array_sum alloc county_insurer county_metal max_iter tol
              (sorted_unique (map year alloc)) [] = Ok results
    /\ out
       = map (fun c => with_est c (clip_lower0 (enrollment_est c)))
             (List.concat (map yr_df results)).
Proof.
  unfold run_ipf.
  destruct (for_years array_sum alloc county_insurer county_metal max_iter tol
              (sorted_unique (map year alloc)) []) as [[|r rs]|];
    try discriminate.
  intro H. inversion H; subst. exists (r :: rs). split; reflexivity.
Qed.

End YearsBinary64.

(** ** C3: no estimate falls below zero *)

Lemma target_of_in (lookup : series) (k : key) :
  target_of lookup k = zero \/ In (target_of lookup k) (map snd lookup).
Proof.
  unfold target_of, series_get, matches.
  destruct (filter (fun entry => key_eqb (fst entry) k) lookup)
    as [|e [|e' l]] eqn:E; cbn [map]; try (left; reflexivity).
  right. apply in_map.
  assert (H : In e (filter (fun entry => key_eqb (fst entry) k) lookup))
    by (rewrite E; left; reflexivity).
  apply filter_In in H. tauto.
Qed.

Lemma year_lookup_values (targets : list margin_row) (yr : Z) (v : f64) :
  In v (map snd (year_lookup targets yr)) ->
  exists r, In r targets /\ m_target r = v.
Proof.
  unfold year_lookup, set_index. rewrite map_map. cbn [snd].
  intro H. apply in_map_iff in H. destruct H as [r [Hv Hr]].
  apply filter_In in Hr. exists r. tauto.
Qed.

Lemma year_targets_not_negative (targets : list margin_row) (yr : Z)
  (k : key) :
  Forall (fun r => leb zero (m_target r) = true) targets ->
  ltb (target_of (year_lookup targets yr) k) zero = false.
Proof.
  intro H. destruct (target_of_in (year_lookup targets yr) k) as [E|Hin].
  - rewrite E. reflexivity.
  - apply year_lookup_values in Hin. destruct Hin as [r [Hr <-]].
    rewrite Forall_forall in H. apply leb_zero_not_negative. apply H.
    exact Hr.
Qed.

Lemma scaled_rows_not_negative (f : cell -> f64) (df : table) :
  Forall (fun c => ltb (enrollment_est c) zero = false) df ->
  (forall c, ltb (f c) zero = false) ->
  Forall (fun c => ltb (enrollment_est c) zero = false)
         (map (fun c => with_est c (mul (enrollment_est c) (f c))) df).
Proof.
  intros H Hf. rewrite Forall_forall in *. intros c' Hin.
  apply in_map_iff in Hin. destruct Hin as [c [<- Hc]].
  cbn [enrollment_est with_est]. apply mul_not_negative; [apply H; exact Hc|].
  apply Hf.
Qed.

Lemma reached_not_negative (array_sum : list f64 -> f64)
  (ic_lookup mc_lookup : series) (df0 : table)
  (ic_targets mc_targets : list f64) :
  targets_of ic_lookup (map ic_key df0) = Some ic_targets ->
  targets_of mc_lookup (map mc_key df0) = Some mc_targets ->
  (forall k, ltb (target_of ic_lookup k) zero = false) ->
  (forall k, ltb (target_of mc_lookup k) zero = false) ->
  Forall (fun c => ltb (enrollment_est c) zero = false) df0 ->
  forall df,
    reached array_sum ic_targets mc_targets df0 df ->
    Forall (fun c => ltb (enrollment_est c) zero = false) df.
Proof.
  intros Hic Hmc Hti Htm H0 df Hr.
  induction Hr as [|df Hr IH|df Hr IH].
  - exact H0.
  - rewrite (step_A_rows_f64 array_sum ic_lookup df0 ic_targets Hic df
               (reached_key_columns_f64 array_sum ic_lookup mc_lookup df0
                  ic_targets mc_targets Hic Hmc df Hr)).
    apply scaled_rows_not_negative; [exact IH|].
    intro c. apply factor_of_not_negative. apply Hti.
  - rewrite (step_B_rows_f64 array_sum mc_lookup df0 mc_targets Hmc df
               (reached_key_columns_f64 array_sum ic_lookup mc_lookup df0
                  ic_targets mc_targets Hic Hmc df Hr)).
    apply scaled_rows_not_negative; [exact IH|].
    intro c. apply factor_of_not_negative. apply Htm.
Qed.

(** C3, in doubles.  With every initial estimate and every target at
    least 0, no estimate is ever below 0: in every table a year passes
    through, after any sequence of Step A and Step B, each estimate is at
    least 0 or NaN; and what [run_ipf] returns is the concatenation of the
    yearly results as the loops left them, the final clip changing
    nothing, again with no estimate below 0. *)
Theorem estimates_never_below_zero :
  forall (array_sum : list f64 -> f64) (alloc : table)
         (county_insurer county_metal : list margin_row)
         (max_iter : nat) (tol : f64),
    Forall (fun c => leb zero (enrollment_est c) = true) alloc ->
    Forall (fun r => leb zero (m_target r) = true) county_insurer ->
    Forall (fun r => leb zero (m_target r) = true) county_metal ->
    (forall (yr : Z) (ic_targets mc_targets : list f64) (df : table),
        targets_of (year_lookup county_insurer yr)
                   (map ic_key (year_slice alloc yr)) = Some ic_targets ->
        targets_of (year_lookup county_metal yr)
                   (map mc_key (year_slice alloc yr)) = Some mc_targets ->
        reached array_sum ic_targets mc_targets (year_slice alloc yr) df ->
        Forall (fun c => ltb (enrollment_est c) zero = false) df)
    /\ (forall out,
           run_ipf array_sum alloc county_insurer county_metal max_iter tol
           = Ok out ->
           exists results,
             for_years array_sum alloc county_insurer county_metal max_iter
                       tol (sorted_unique (map year alloc)) [] = Ok results
             /\ out = List.concat (map yr_df results)
             /\ Forall (fun c => ltb (enrollment_est c) zero = false) out).
Proof.
  intros array_sum alloc county_insurer county_metal max_iter tol
         Halloc Hci Hcm.
  assert (Hyear : forall (yr : Z) (ic_targets mc_targets : list f64)
                         (df : table),
             targets_of (year_lookup county_insurer yr)
                        (map ic_key (year_slice alloc yr)) = Some ic_targets ->
             targets_of (year_lookup county_metal yr)
                        (map mc_key (year_slice alloc yr)) = Some mc_targets ->
             reached array_sum ic_targets mc_targets (year_slice alloc yr) df ->
             Forall (fun c => ltb (enrollment_est c) zero = false) df).
  { intros yr ict mct df Hic Hmc Hr.
    apply (reached_not_negative array_sum (year_lookup county_insurer yr)
             (year_lookup county_metal yr) (year_slice alloc yr) ict mct
             Hic Hmc).
    - intro k. apply year_targets_not_negative. exact Hci.
    - intro k. apply year_targets_not_negative. exact Hcm.
    - rewrite Forall_forall in *. intros c Hc.
      apply filter_In in Hc. apply leb_zero_not_negative. apply Halloc.
      tauto.
    - exact Hr. }
  split; [exact Hyear|].
  intros out Hout.
  destruct (run_ipf_ok array_sum alloc county_insurer county_metal max_iter
              tol out Hout) as [results [Hres ->]].
  assert (Hall : Forall (fun c => ltb (enrollment_est c) zero = false)
                        (List.concat (map yr_df results))).
  { rewrite Forall_forall. intros c Hc. apply in_concat in Hc.
    destruct Hc as [l [Hl Hc]]. apply in_map_iff in Hl.
    destruct Hl as [r [<- Hr]].
    destruct (for_years_ok array_sum alloc county_insurer county_metal
                max_iter tol _ _ _ Hres r Hr) as [[]|[yr [_ Hs]]].
    destruct (solve_year_reached_f64 array_sum alloc county_insurer
                county_metal max_iter tol yr r Hs)
      as [[ict [mct [Hic [Hmc Hreach]]]]|Hdf].
    - pose proof (Hyear yr ict mct (yr_df r) Hic Hmc Hreach) as HF.
      rewrite Forall_forall in HF. apply HF. exact Hc.
    - rewrite Hdf in Hc. apply filter_In in Hc.
      rewrite Forall_forall in Halloc. apply leb_zero_not_negative.
      apply Halloc. tauto. }
  assert (Hsame : map (fun c => with_est c (clip_lower0 (enrollment_est c)))
                      (List.concat (map yr_df results))
                  = List.concat (map yr_df results)).
  { rewrite <- (map_id (List.concat (map yr_df results))) at 2.
    apply map_ext_in. intros c Hc. rewrite Forall_forall in Hall.
    rewrite (clip_lower0_same _ (Hall c Hc)). apply with_est_same_f64. }
  exists results. split; [exact Hres|]. split; [exact Hsame|].
  rewrite Hsame. exact Hall.
Qed.

(** ** C4: a group with target 0 *)

(** A cell that is a zero or NaN stays a zero or NaN, with its key
    columns, through every further step. *)
Lemma zero_or_nan_stays (array_sum : list f64 -> f64)
  (ic_lookup mc_lookup : series) (df0 : table)
  (ic_targets mc_targets : list f64) :
  targets_of ic_lookup (map ic_key df0) = Some ic_targets ->
  targets_of mc_lookup (map mc_key df0) = Some mc_targets ->
  forall (df1 : table) (i : nat) (c : cell),
    reached array_sum ic_targets mc_targets df0 df1 ->
    nth_error df1 i = Some c ->
    is_zero (enrollment_est c) = true \/ enrollment_est c = nan ->
    forall d,
      reached array_sum ic_targets mc_targets df1 d ->
      reached array_sum ic_targets mc_targets df0 d
      /\ exists c',
           nth_error d i = Some c'
           /\ key_columns c' = key_columns c
           /\ (is_zero (enrollment_est c') = true
               \/ enrollment_est c' = nan).
Proof.
  intros Hic Hmc df1 i c Hr1 Hi Hv d Hd.
  induction Hd as [|d Hd [IHr [c' [Hi' [Hk' Hv']]]]
                   |d Hd [IHr [c' [Hi' [Hk' Hv']]]]].
  - split; [exact Hr1|]. exists c. split; [exact Hi|].
    split; [reflexivity|exact Hv].
  - split; [apply reached_A; exact IHr|].
    eexists. split; [exact (step_A_row array_sum ic_lookup mc_lookup df0
                              ic_targets mc_targets Hic Hmc d i c' IHr Hi')|].
    split; [exact Hk'|]. cbn [enrollment_est with_est].
    destruct Hv' as [Hv'|Hv'].
    + destruct (is_finite
                  (factor_of (group_sum array_sum ic_key d (ic_key c'))
                             (target_of ic_lookup (ic_key c')))) eqn:Ef.
      * left. apply (mul_zero_cell _ _ Hv'). exact Ef.
      * right. apply (mul_zero_cell _ _ Hv'). exact Ef.
    + right. rewrite Hv'. reflexivity.
  - split; [apply reached_B; exact IHr|].
    eexists. split; [exact (step_B_row array_sum ic_lookup mc_lookup df0
                              ic_targets mc_targets Hic Hmc d i c' IHr Hi')|].
    split; [exact Hk'|]. cbn [enrollment_est with_est].
    destruct Hv' as [Hv'|Hv'].
    + destruct (is_finite
                  (factor_of (group_sum array_sum mc_key d (mc_key c'))
                             (target_of mc_lookup (mc_key c')))) eqn:Ef.
      * left. apply (mul_zero_cell _ _ Hv'). exact Ef.
      * right. apply (mul_zero_cell _ _ Hv'). exact Ef.
    + right. rewrite Hv'. reflexivity.
Qed.

(** C4, in doubles.  A key the lookup does not hold has target 0.  Where
    the insurer x county target of a row is a zero, Step A multiplies the
    row by a factor that is a zero, whatever the mass of its group: a
    finite estimate becomes a zero, an infinite or NaN one becomes NaN.
    In every table reached afterwards the estimate of the row is a zero or
    NaN; each further step leaves a zero at zero when the factor it
    applies to the row is finite, and turns it into NaN when that factor
    is infinite or NaN. *)
Theorem zero_target_group_is_zeroed :
  forall (array_sum : list f64 -> f64) (ic_lookup mc_lookup : series)
         (df0 : table) (ic_targets mc_targets : list f64),
    targets_of ic_lookup (map ic_key df0) = Some ic_targets ->
    targets_of mc_lookup (map mc_key df0) = Some mc_targets ->
    (forall k, matches ic_lookup k = [] ->
               series_get ic_lookup k zero = Some zero)
    /\ forall (df : table) (i : nat) (c : cell) (t : f64),
         reached array_sum ic_targets mc_targets df0 df ->
         nth_error df i = Some c ->
         series_get ic_lookup (ic_key c) zero = Some t ->
         is_zero t = true ->
         (exists c1,
             nth_error (step_A array_sum ic_targets df) i = Some c1
             /\ key_columns c1 = key_columns c
             /\ (is_finite (enrollment_est c) = true ->
                 is_zero (enrollment_est c1) = true)
             /\ (is_finite (enrollment_est c) = false ->
                 enrollment_est c1 = nan))
         /\ forall df',
              reached array_sum ic_targets mc_targets
                      (step_A array_sum ic_targets df) df' ->
              is_finite (enrollment_est c) = true ->
              exists c',
                nth_error df' i = Some c'
                /\ key_columns c' = key_columns c
                /\ (is_zero (enrollment_est c') = true
                    \/ enrollment_est c' = nan)
                /\ (is_zero (enrollment_est c') = true ->
                    exists fa fb ca cb,
                      nth_error (step_A array_sum ic_targets df') i = Some ca
                      /\ enrollment_est ca = mul (enrollment_est c') fa
                      /\ (is_finite fa = true ->
                          is_zero (enrollment_est ca) = true)
                      /\ (is_finite fa = false -> enrollment_est ca = nan)
                      /\ nth_error (step_B array_sum mc_targets df') i
                         = Some cb
                      /\ enrollment_est cb = mul (enrollment_est c') fb
                      /\ (is_finite fb = true ->
                          is_zero (enrollment_est cb) = true)
                      /\ (is_finite fb = false -> enrollment_est cb = nan)).
Proof.
  intros array_sum ic_lookup mc_lookup df0 ic_targets mc_targets Hic Hmc.
  split.
  { intros k Hk. unfold series_get. rewrite Hk. reflexivity. }
  intros df i c t Hr Hi Ht Hz.
  assert (Et : target_of ic_lookup (ic_key c) = t)
    by (unfold target_of; rewrite Ht; reflexivity).
  pose proof (step_A_row array_sum ic_lookup mc_lookup df0 ic_targets
                mc_targets Hic Hmc df i c Hr Hi) as HA.
  rewrite Et in HA.
  pose proof (factor_of_zero_target
                (group_sum array_sum ic_key df (ic_key c)) t Hz) as Hf.
  destruct (mul_zero_factor (enrollment_est c) _ Hf) as [Hfin Hinf].
  split.
  { eexists. split; [exact HA|]. split; [reflexivity|].
    cbn [enrollment_est with_est]. split; assumption. }
  intros df' Hr' Hc.
  assert (Hr1 : reached array_sum ic_targets mc_targets df0
                        (step_A array_sum ic_targets df))
    by (apply reached_A; exact Hr).
  assert (Hinv : forall d,
             reached array_sum ic_targets mc_targets
                     (step_A array_sum ic_targets df) d ->
             reached array_sum ic_targets mc_targets df0 d
             /\ exists c',
                  nth_error d i = Some c'
                  /\ key_columns c' = key_columns c
                  /\ (is_zero (enrollment_est c') = true
                      \/ enrollment_est c' = nan)).
  { intros d Hd.
    apply (zero_or_nan_stays array_sum ic_lookup mc_lookup df0 ic_targets
             mc_targets Hic Hmc (step_A array_sum ic_targets df) i _ Hr1 HA);
      [|exact Hd].
    left. cbn [enrollment_est with_est]. apply Hfin. exact Hc. }
  destruct (Hinv df' Hr') as [Hr0 [c' [Hi' [Hk' Hv']]]].
  exists c'. split; [exact Hi'|]. split; [exact Hk'|]. split; [exact Hv'|].
  intro Hz'.
  exists (factor_of (group_sum array_sum ic_key df' (ic_key c'))
                    (target_of ic_lookup (ic_key c'))),
         (factor_of (group_sum array_sum mc_key df' (mc_key c'))
                    (target_of mc_lookup (mc_key c'))).
  eexists. eexists.
  split; [exact (step_A_row array_sum ic_lookup mc_lookup df0 ic_targets
                   mc_targets Hic Hmc df' i c' Hr0 Hi')|].
  cbn [enrollment_est with_est]. split; [reflexivity|].
  split; [apply (mul_zero_cell _ _ Hz')|].
  split; [apply (mul_zero_cell _ _ Hz')|].
  split; [exact (step_B_row array_sum ic_lookup mc_lookup df0 ic_targets
                   mc_targets Hic Hmc df' i c' Hr0 Hi')|].
  cbn [enrollment_est with_est]. split; [reflexivity|].
  split; apply (mul_zero_cell _ _ Hz').
Qed.

(** ** C10: what Step B leaves in a metal-tier group *)

(** C10, in doubles.  The table at the end of an iteration is Step B of
    Step A of the table before it.  For every metal tier x county group
    whose sum before Step B exceeds 1e-10 there is one factor, the double
    quotient [target / sum], such that every row of the group leaves Step B
    with its estimate multiplied by that factor. *)
Theorem step_B_scales_mc_groups :
  forall (array_sum : list f64 -> f64) (ic_lookup mc_lookup : series)
         (df0 : table) (ic_targets mc_targets : list f64),
    targets_of ic_lookup (map ic_key df0) = Some ic_targets ->
    targets_of mc_lookup (map mc_key df0) = Some mc_targets ->
    forall (n : nat),
      let before_B :=
        step_A array_sum ic_targets
               (after_iterations array_sum ic_targets mc_targets n df0) in
      let after_B :=
        after_iterations array_sum ic_targets mc_targets (S n) df0 in
      after_B = step_B array_sum mc_targets before_B
      /\ forall (k : key),
           ltb eps (group_sum array_sum mc_key before_B k) = true ->
           (exists c, In c before_B /\ mc_key c = k) ->
           exists t,
             series_get mc_lookup k zero = Some t
             /\ forall i c,
                  nth_error before_B i = Some c -> mc_key c = k ->
                  exists c',
                    nth_error after_B i = Some c'
                    /\ key_columns c' = key_columns c
                    /\ enrollment_est c'
                       = mul (enrollment_est c)
                             (div t (group_sum array_sum mc_key before_B k)).
Proof.
  intros array_sum ic_lookup mc_lookup df0 ic_targets mc_targets Hic Hmc n
         before_B after_B.
  assert (Hr : reached array_sum ic_targets mc_targets df0 before_B)
    by (apply reached_A, reached_after_iterations_f64).
  split; [reflexivity|].
  intros k Hk [c0 [Hin0 Hk0]].
  exists (target_of mc_lookup k). split.
  - rewrite <- Hk0.
    apply (reached_mc_target array_sum ic_lookup mc_lookup df0 ic_targets
             mc_targets Hic Hmc before_B c0 Hr Hin0).
  - intros i c Hi Hc. eexists.
    split; [exact (step_B_row array_sum ic_lookup mc_lookup df0 ic_targets
                     mc_targets Hic Hmc before_B i c Hr Hi)|].
    split; [reflexivity|]. cbn [enrollment_est with_est].
    rewrite Hc. unfold factor_of. rewrite Hk. reflexivity.
Qed.

(** ** C2: the convergence statistic *)

(** The three shapes of [max_change]: 0 when no prior estimate exceeds
    1e-10; NaN when a relative change is NaN; and otherwise a relative
    change that none exceeds. *)
Lemma max_change_cases (prev_est current_est : list f64) :
  List.length current_est = List.length prev_est ->
  let changes := relative_changes prev_est current_est in
  let delta := max_change_of prev_est current_est in
  (changes = [] /\ delta = zero)
  \/ (Exists (fun x => is_nan x = true) changes /\ delta = nan)
  \/ (Forall (fun x => is_nan x = false) changes
      /\ is_nan delta = false /\ In delta changes
      /\ Forall (fun x => ltb delta x = false) changes).
Proof.
  intros Hlen changes delta. unfold delta.
  rewrite (max_change_of_changes prev_est current_est Hlen). fold changes.
  destruct changes as [|x l] eqn:E; [left; split; reflexivity|right].
  assert (Hne : x :: l <> []) by discriminate.
  destruct (np_max_spec (x :: l) Hne) as [Hnan Hmax].
  destruct (with_nan_or_without (x :: l)) as [H|H].
  - left. split; [exact H|apply Hnan; exact H].
  - right. split; [exact H|apply Hmax; exact H].
Qed.

Lemma max_change_not_negative (prev_est current_est : list f64) :
  List.length current_est = List.length prev_est ->
  ltb (max_change_of prev_est current_est) zero = false.
Proof.
  intro Hlen.
  destruct (max_change_cases prev_est current_est Hlen)
    as [[_ ->]|[[_ ->]|[_ [_ [Hin _]]]]]; try reflexivity.
  apply in_relative_changes in Hin.
  destruct Hin as [i [c [p [_ [_ [Hp ->]]]]]].
  apply relative_change_not_negative. exact Hp.
Qed.

(** A max change below [tol] bounds every relative change. *)
Lemma max_change_below (prev_est current_est : list f64) (tol x : f64) :
  List.length current_est = List.length prev_est ->
  ltb (max_change_of prev_est current_est) tol = true ->
  In x (relative_changes prev_est current_est) ->
  ltb x tol = true.
Proof.
  intros Hlen Hd Hx.
  destruct (max_change_cases prev_est current_est Hlen)
    as [[E _]|[[_ E]|[Hnn [_ [_ Hub]]]]].
  - rewrite E in Hx. destruct Hx.
  - rewrite E in Hd. discriminate.
  - rewrite Forall_forall in Hnn, Hub.
    apply (ltb_le_lt_trans x (max_change_of prev_est current_est) tol);
      [apply Hnn; exact Hx|apply Hub; exact Hx|exact Hd].
Qed.

(** With a positive [tol] that bounds every relative change, the max
    change is below [tol]. *)
Lemma below_max_change (prev_est current_est : list f64) (tol : f64) :
  List.length current_est = List.length prev_est ->
  ltb zero tol = true ->
  (forall x, In x (relative_changes prev_est current_est) ->
             ltb x tol = true) ->
  ltb (max_change_of prev_est current_est) tol = true.
Proof.
  intros Hlen Htol Hall.
  destruct (max_change_cases prev_est current_est Hlen)
    as [[_ ->]|[[Hex _]|[_ [_ [Hin _]]]]].
  - exact Htol.
  - apply Exists_exists in Hex. destruct Hex as [x [Hx Hn]].
    destruct (ltb_not_nan x tol (Hall x Hx)) as [Hx' _]. congruence.
  - apply Hall. exact Hin.
Qed.

Lemma est_values_nth_f64 (df : table) (i : nat) (c : cell) :
  nth_error df i = Some c ->
  nth_error (est_values df) i = Some (enrollment_est c).
Proof.
  intro H. unfold est_values.
  exact (map_nth_error enrollment_est i df H).
Qed.

Lemma est_values_nth_inv_f64 (df : table) (i : nat) (v : f64) :
  nth_error (est_values df) i = Some v ->
  exists c, nth_error df i = Some c /\ enrollment_est c = v.
Proof.
  unfold est_values. rewrite nth_error_map.
  destruct (nth_error df i) as [c|]; simpl; intro H; [|discriminate].
  exists c. split; [reflexivity|congruence].
Qed.

Section BodyBinary64.

Variable array_sum : list f64 -> f64.
Variables ic_lookup mc_lookup : series.
Variable df0 : table.
Variables ic_targets mc_targets : list f64.
Hypothesis ic_targets_built :
  targets_of ic_lookup (map ic_key df0) = Some ic_targets.
Hypothesis mc_targets_built :
  targets_of mc_lookup (map mc_key df0) = Some mc_targets.

Lemma ipf_body_length (df : table) :
  reached array_sum ic_targets mc_targets df0 df ->
  List.length
    (est_values (fst (ipf_body array_sum ic_targets mc_targets df)))
  = List.length (est_values df).
Proof.
  intro Hr. unfold est_values. rewrite !length_map.
  apply key_columns_length_f64.
  transitivity (map key_columns df0).
  - apply (reached_key_columns_f64 array_sum ic_lookup mc_lookup df0
             ic_targets mc_targets ic_targets_built mc_targets_built).
    apply reached_B, reached_A. exact Hr.
  - symmetry.
    apply (reached_key_columns_f64 array_sum ic_lookup mc_lookup df0
             ic_targets mc_targets ic_targets_built mc_targets_built df Hr).
Qed.

(** The relative changes of a loop body, in terms of its rows. *)
Lemma in_body_changes (df : table) (x : f64) :
  In x (relative_changes
          (est_values df)
          (est_values (fst (ipf_body array_sum ic_targets mc_targets df))))
  <-> exists i c c2,
        nth_error df i = Some c
        /\ nth_error (fst (ipf_body array_sum ic_targets mc_targets df)) i
           = Some c2
        /\ ltb eps (enrollment_est c) = true
        /\ x = relative_change (enrollment_est c2) (enrollment_est c).
Proof.
  rewrite in_relative_changes. split.
  - intros [i [v2 [v [H2 [H1 [Hv Hx]]]]]].
    apply est_values_nth_inv_f64 in H1. destruct H1 as [c [Hc <-]].
    apply est_values_nth_inv_f64 in H2. destruct H2 as [c2 [Hc2 <-]].
    exists i, c, c2. repeat split; assumption.
  - intros [i [c [c2 [Hc [Hc2 [Hv Hx]]]]]].
    exists i, (enrollment_est c2), (enrollment_est c).
    repeat split; try assumption; apply est_values_nth_f64; assumption.
Qed.

End BodyBinary64.

(** C2, in doubles.  In a loop body run on a table [df] of a year, with
    [df2] the table after Step A then Step B, the relative changes are the
    values [|current - prior| / prior] of the rows whose estimate in [df]
    exceeds 1e-10, the other rows taking no part.  When there is no such
    row the max change is 0, and the loop stops at this body with
    [converged] set if [0 < tol] and goes on to the next body otherwise.
    When a relative change is NaN the max change is NaN.  Otherwise the
    max change is one of the relative changes and none of them exceeds
    it. *)
Theorem max_change_is_largest_relative_change :
  forall (array_sum : list f64 -> f64) (ic_lookup mc_lookup : series)
         (df0 : table) (ic_targets mc_targets : list f64),
    targets_of ic_lookup (map ic_key df0) = Some ic_targets ->
    targets_of mc_lookup (map mc_key df0) = Some mc_targets ->
    forall (df : table),
      reached array_sum ic_targets mc_targets df0 df ->
      let df2 := fst (ipf_body array_sum ic_targets mc_targets df) in
      let delta := snd (ipf_body array_sum ic_targets mc_targets df) in
      let changes := relative_changes (est_values df) (est_values df2) in
      df2 = step_B array_sum mc_targets (step_A array_sum ic_targets df)
      /\ (forall x,
             In x changes
             <-> exists i c c2,
                   nth_error df i = Some c /\ nth_error df2 i = Some c2
                   /\ ltb eps (enrollment_est c) = true
                   /\ x = relative_change (enrollment_est c2)
                                          (enrollment_est c))
      /\ (changes = [] ->
          delta = zero
          /\ forall (tol : f64) (remaining done : nat) (final : f64),
               (ltb zero tol = true ->
                ipf_loop array_sum ic_targets mc_targets tol (S remaining)
                         done df final
                = (df2, mkReport true (S done) zero))
               /\ (ltb zero tol = false ->
                   ipf_loop array_sum ic_targets mc_targets tol (S remaining)
                            done df final
                   = ipf_loop array_sum ic_targets mc_targets tol remaining
                              (S done) df2 zero))
      /\ (Exists (fun x => is_nan x = true) changes -> delta = nan)
      /\ (changes <> [] -> Forall (fun x => is_nan x = false) changes ->
          In delta changes /\ Forall (fun x => ltb delta x = false) changes).
Proof.
  intros array_sum ic_lookup mc_lookup df0 ic_targets mc_targets Hic Hmc df
         Hr df2 delta changes.
  pose proof (ipf_body_length array_sum ic_lookup mc_lookup df0 ic_targets
                mc_targets Hic Hmc df Hr) as Hlen.
  pose proof (max_change_cases (est_values df) (est_values df2) Hlen)
    as Hcases.
  change (max_change_of (est_values df) (est_values df2)) with delta
    in Hcases.
  change (relative_changes (est_values df) (est_values df2)) with changes
    in Hcases.
  split; [reflexivity|].
  split; [intro x; apply in_body_changes|].
  split; [|split].
  - intro E.
    assert (Hd : delta = zero).
    { destruct Hcases as [[_ Hd]|[[Hex _]|[_ [_ [Hin _]]]]].
      - exact Hd.
      - rewrite E in Hex. inversion Hex.
      - rewrite E in Hin. destruct Hin. }
    split; [exact Hd|].
    intros tol remaining done final.
    rewrite ipf_loop_S_f64. fold delta df2. rewrite Hd.
    split; intros ->; reflexivity.
  - intro Hex.
    destruct Hcases as [[E _]|[[_ Hd]|[Hnn _]]].
    + rewrite E in Hex. inversion Hex.
    + exact Hd.
    + apply Exists_exists in Hex. destruct Hex as [x [Hx Hn]].
      rewrite Forall_forall in Hnn. rewrite (Hnn x Hx) in Hn. discriminate.
  - intros Hne Hnn.
    destruct Hcases as [[E _]|[[Hex _]|[_ [_ [Hin Hub]]]]].
    + congruence.
    + apply Exists_exists in Hex. destruct Hex as [x [Hx Hn]].
      rewrite Forall_forall in Hnn. rewrite (Hnn x Hx) in Hn. discriminate.
    + split; assumption.
Qed.

(** ** C6: the converging iteration and one more *)

(** C6, in doubles.  When the loop of a year ends with [converged] set,
    the body that set it, the last one run, changed every row whose
    estimate before that body exceeded 1e-10 by less than [tol] in relative
    terms.  One more body, run on the converged table, changes every such
    row by less than [tol] exactly when its own max change is below
    [tol]. *)
Theorem last_iteration_within_tol :
  forall (array_sum : list f64 -> f64) (ic_lookup mc_lookup : series)
         (df0 : table) (ic_targets mc_targets : list f64) (tol : f64)
         (max_iter : nat),
    targets_of ic_lookup (map ic_key df0) = Some ic_targets ->
    targets_of mc_lookup (map mc_key df0) = Some mc_targets ->
    let L := ipf_loop array_sum ic_targets mc_targets tol max_iter 0 df0 inf in
    converged (snd L) = true ->
    let before :=
      after_iterations array_sum ic_targets mc_targets
        (Nat.pred (iterations_used (snd L))) df0 in
    fst L = fst (ipf_body array_sum ic_targets mc_targets before)
    /\ (forall i c c2,
           nth_error before i = Some c -> nth_error (fst L) i = Some c2 ->
           ltb eps (enrollment_est c) = true ->
           ltb (relative_change (enrollment_est c2) (enrollment_est c)) tol
           = true)
    /\ ((forall i c c2,
            nth_error (fst L) i = Some c ->
            nth_error
              (fst (ipf_body array_sum ic_targets mc_targets (fst L))) i
            = Some c2 ->
            ltb eps (enrollment_est c) = true ->
            ltb (relative_change (enrollment_est c2) (enrollment_est c)) tol
            = true)
        <-> ltb (snd (ipf_body array_sum ic_targets mc_targets (fst L))) tol
            = true).
Proof.
  intros array_sum ic_lookup mc_lookup df0 ic_targets mc_targets tol max_iter
         Hic Hmc L Hc before.
  destruct (ipf_loop_outcome_f64 array_sum ic_targets mc_targets tol max_iter
              0 df0 inf) as [m [_ [H1 [H2 H4]]]].
  fold L in H1, H2, H4. destruct (H4 Hc) as [Hm Hlt].
  simpl in H2.
  assert (Hbefore : before
                    = after_iterations array_sum ic_targets mc_targets
                                       (Nat.pred m) df0)
    by (unfold before; rewrite H2; reflexivity).
  assert (Hr : reached array_sum ic_targets mc_targets df0 before)
    by (rewrite Hbefore; apply reached_after_iterations_f64).
  assert (HL : fst L = fst (ipf_body array_sum ic_targets mc_targets before)).
  { rewrite H1, Hbefore. destruct m as [|m']; [lia|]. reflexivity. }
  assert (Hdelta : ltb (snd (ipf_body array_sum ic_targets mc_targets before))
                       tol = true).
  { rewrite Hbefore. exact Hlt. }
  assert (HrL : reached array_sum ic_targets mc_targets df0 (fst L))
    by (rewrite H1; apply reached_after_iterations_f64).
  pose proof (ipf_body_length array_sum ic_lookup mc_lookup df0 ic_targets
                mc_targets Hic Hmc before Hr) as Hlen.
  pose proof (ipf_body_length array_sum ic_lookup mc_lookup df0 ic_targets
                mc_targets Hic Hmc (fst L) HrL) as HlenL.
  assert (Htol : ltb zero tol = true).
  { apply (ltb_le_lt_trans zero
             (snd (ipf_body array_sum ic_targets mc_targets before)) tol);
      [reflexivity| |exact Hdelta].
    apply max_change_not_negative. exact Hlen. }
  split; [exact HL|]. split; [|split].
  - intros i c c2 Hi Hi2 He.
    apply (max_change_below _ _ tol _ Hlen Hdelta).
    apply in_body_changes. exists i, c, c2. rewrite <- HL.
    repeat split; assumption.
  - intro Hall. apply (below_max_change _ _ tol HlenL Htol).
    intros x Hx. apply in_body_changes in Hx.
    destruct Hx as [i [c [c2 [Hi [Hi2 [He ->]]]]]].
    apply (Hall i c c2 Hi Hi2 He).
  - intros Hd i c c2 Hi Hi2 He.
    apply (max_change_below _ _ tol _ HlenL Hd).
    apply in_body_changes. exists i, c, c2. repeat split; assumption.
Qed.

(** ** C9: negative targets *)

Lemma year_lookup_keys_NoDup (targets : list margin_row) (yr : Z) :
  NoDup (map margin_key targets) -> NoDup (map fst (year_lookup targets yr)).
Proof.
  unfold year_lookup, set_index. rewrite map_map. cbn [fst].
  induction targets as [|r targets IH]; intro H; [constructor|].
  cbn [map] in H. inversion H as [|? ? Hr Hnd]; subst.
  cbn [filter]. destruct (m_year r =? yr)%Z eqn:E; [|apply IH; exact Hnd].
  cbn [map]. constructor; [|apply IH; exact Hnd].
  intro Hin. apply Hr. apply in_map_iff in Hin.
  destruct Hin as [r' [Hk Hr']]. apply filter_In in Hr'.
  destruct Hr' as [Hr' Hy]. apply in_map_iff. exists r'.
  split; [|exact Hr'].
  apply Z.eqb_eq in E, Hy. unfold margin_key. inversion Hk. congruence.
Qed.

Lemma solve_year_of_slice (array_sum : list f64 -> f64) (alloc : table)
  (county_insurer county_metal : list margin_row) (max_iter : nat)
  (tol : f64) (yr : Z) :
  NoDup (map margin_key county_insurer) ->
  NoDup (map margin_key county_metal) ->
  solve_year array_sum alloc county_insurer county_metal max_iter tol yr
  <> ValueError
  /\ (year_slice alloc yr <> [] ->
      exists r,
        solve_year array_sum alloc county_insurer county_metal max_iter tol yr
        = Ok (Some r)).
Proof.
  intros Hci Hcm. unfold solve_year.
  destruct (year_slice alloc yr) as [|c df].
  - split; [discriminate|congruence].
  - destruct (targets_of_unique_keys (year_lookup county_insurer yr)
                (map ic_key (c :: df)) (year_lookup_keys_NoDup _ yr Hci))
      as [ict ->].
    destruct (targets_of_unique_keys (year_lookup county_metal yr)
                (map mc_key (c :: df)) (year_lookup_keys_NoDup _ yr Hcm))
      as [mct ->].
    destruct (ipf_loop array_sum ict mct tol max_iter 0 (c :: df) inf)
      as [df' rep].
    split; [discriminate|]. intros _. eexists. reflexivity.
Qed.

(** C9, as the code has it.  With a non-empty allocation table and
    profile tables that hold each (year, insurer or metal tier, county)
    once, as [clean_data] leaves them, [run_ipf] returns a table whatever
    the signs of the targets; a target enters the factor [target / sum] of
    its group as it is; and the final clip leaves no estimate below 0 in
    what is returned. *)
Theorem negative_targets_are_absorbed :
  forall (array_sum : list f64 -> f64) (alloc : table)
         (county_insurer county_metal : list margin_row)
         (max_iter : nat) (tol : f64),
    alloc <> [] ->
    NoDup (map margin_key county_insurer) ->
    NoDup (map margin_key county_metal) ->
    (exists out,
        run_ipf array_sum alloc county_insurer county_metal max_iter tol
        = Ok out
        /\ Forall (fun c => ltb (enrollment_est c) zero = false) out)
    /\ (forall s t, ltb eps s = true -> factor_of s t = div t s).
Proof.
  intros array_sum alloc county_insurer county_metal max_iter tol
         Hne Hci Hcm.
  split; [|intros s t H; unfold factor_of; rewrite H; reflexivity].
  destruct (for_years_succeeds array_sum alloc county_insurer county_metal
              max_iter tol (sorted_unique (map year alloc))
              (fun yr _ => proj1 (solve_year_of_slice array_sum alloc
                                    county_insurer county_metal max_iter tol
                                    yr Hci Hcm)) [])
    as [results [Hres [_ Hin]]].
  destruct alloc as [|c0 alloc'] eqn:Ea; [congruence|]. rewrite <- Ea in *.
  assert (Hc0 : In c0 alloc) by (rewrite Ea; left; reflexivity).
  assert (Hslice : year_slice alloc (year c0) <> []).
  { intro E.
    assert (H : In c0 (year_slice alloc (year c0))).
    { unfold year_slice. apply filter_In. split; [exact Hc0|].
      apply Z.eqb_refl. }
    rewrite E in H. destruct H. }
  destruct (proj2 (solve_year_of_slice array_sum alloc county_insurer
                     county_metal max_iter tol (year c0) Hci Hcm) Hslice)
    as [r Hr].
  assert (Hyear : In (year c0) (sorted_unique (map year alloc)))
    by (apply sorted_unique_In, in_map; exact Hc0).
  pose proof (Hin (year c0) r Hyear Hr) as Hrin.
  unfold run_ipf. rewrite Hres.
  destruct results as [|r0 rs]; [destruct Hrin|].
  eexists. split; [reflexivity|].
  rewrite Forall_forall. intros c Hc. apply in_map_iff in Hc.
  destruct Hc as [d [<- _]]. cbn [enrollment_est with_est].
  apply clip_lower0_not_negative.
Qed.

(** ** C7: the years share no state *)

Lemma load_new_object_old (s : store) (f : frame) (o : nat) :
  (o < List.length s)%nat -> load (fst (new_object s f)) o = load s o.
Proof. intro H. unfold load, new_object. cbn [fst]. apply app_nth1. exact H. Qed.

Lemma load_new_object_new (s : store) (f : frame) :
  load (fst (new_object s f)) (snd (new_object s f)) = f.
Proof.
  unfold load, new_object. cbn [fst snd].
  rewrite app_nth2 by lia. rewrite Nat.sub_diag. reflexivity.
Qed.

Lemma length_replace_at (s : store) :
  forall o f, List.length (replace_at s o f) = List.length s.
Proof.
  induction s as [|g s IH]; intros [|o] f; cbn [replace_at List.length];
    try reflexivity.
  rewrite IH. reflexivity.
Qed.

Lemma load_replace_at_same (s : store) :
  forall o f, (o < List.length s)%nat -> load (replace_at s o f) o = f.
Proof.
  unfold load.
  induction s as [|g s IH]; intros [|o] f H; cbn [List.length] in H;
    cbn [replace_at nth]; try lia; [reflexivity|].
  apply IH. lia.
Qed.

Lemma load_replace_at_other (s : store) :
  forall o o' f, o' <> o -> load (replace_at s o f) o' = load s o'.
Proof.
  unfold load.
  induction s as [|g s IH]; intros [|o] [|o'] f H; cbn [replace_at nth];
    try reflexivity; try congruence.
  apply IH. congruence.
Qed.

Section ObjectsOfRunFacts.

Variable array_sum : list f64 -> f64.

(** A scaling step on the store does to the object [df] what the step
    does to its rows, and touches no other object. *)
Lemma scale_step_on_spec (by_key : cell -> key) (targets : list f64)
  (s : store) (df : nat) :
  (df < List.length s)%nat ->
  cells_at (scale_step_on array_sum by_key targets s df) df
  = scale_step array_sum by_key targets (cells_at s df)
  /\ List.length (scale_step_on array_sum by_key targets s df)
     = List.length s
  /\ forall o, o <> df ->
       load (scale_step_on array_sum by_key targets s df) o = load s o.
Proof.
  intro H. unfold scale_step_on, set_est. split; [|split].
  - unfold cells_at at 1. rewrite load_replace_at_same by exact H.
    reflexivity.
  - apply length_replace_at.
  - intros o Ho. apply load_replace_at_other. exact Ho.
Qed.

Lemma ipf_body_on_spec (ic_targets mc_targets : list f64) (s : store)
  (df : nat) :
  (df < List.length s)%nat ->
  cells_at (fst (ipf_body_on array_sum ic_targets mc_targets s df)) df
  = fst (ipf_body array_sum ic_targets mc_targets (cells_at s df))
  /\ snd (ipf_body_on array_sum ic_targets mc_targets s df)
     = snd (ipf_body array_sum ic_targets mc_targets (cells_at s df))
  /\ List.length (fst (ipf_body_on array_sum ic_targets mc_targets s df))
     = List.length s
  /\ forall o, o <> df ->
       load (fst (ipf_body_on array_sum ic_targets mc_targets s df)) o
       = load s o.
Proof.
  intro H. unfold ipf_body_on, ipf_body, step_A, step_B. cbn [fst snd].
  destruct (scale_step_on_spec ic_key ic_targets s df H) as [A1 [A2 A3]].
  assert (H1 : (df < List.length
                       (scale_step_on array_sum ic_key ic_targets s df))%nat)
    by (rewrite A2; exact H).
  destruct (scale_step_on_spec mc_key mc_targets _ df H1) as [B1 [B2 B3]].
  split; [rewrite B1, A1; reflexivity|].
  split; [rewrite B1, A1; reflexivity|].
  split; [rewrite B2, A2; reflexivity|].
  intros o Ho. rewrite (B3 o Ho). apply A3. exact Ho.
Qed.

Lemma ipf_loop_on_spec (ic_targets mc_targets : list f64) (tol : f64)
  (remaining : nat) :
  forall (done : nat) (s : store) (df : nat) (final : f64),
    (df < List.length s)%nat ->
    cells_at (fst (ipf_loop_on array_sum ic_targets mc_targets tol remaining
                               done s df final)) df
    = fst (ipf_loop array_sum ic_targets mc_targets tol remaining done
                    (cells_at s df) final)
    /\ snd (ipf_loop_on array_sum ic_targets mc_targets tol remaining done s
                        df final)
       = snd (ipf_loop array_sum ic_targets mc_targets tol remaining done
                       (cells_at s df) final)
    /\ List.length (fst (ipf_loop_on array_sum ic_targets mc_targets tol
                                     remaining done s df final))
       = List.length s
    /\ forall o, o <> df ->
         load (fst (ipf_loop_on array_sum ic_targets mc_targets tol remaining
                                done s df final)) o
         = load s o.
Proof.
  induction remaining as [|r IH]; intros done s df final H.
  - cbn. repeat split; reflexivity.
  - cbn [ipf_loop_on]. rewrite ipf_loop_S_f64.
    destruct (ipf_body_on_spec ic_targets mc_targets s df H)
      as [B1 [B2 [B3 B4]]].
    destruct (ipf_body_on array_sum ic_targets mc_targets s df)
      as [s2 max_change] eqn:Eb. cbn [fst snd] in B1, B2, B3, B4.
    rewrite <- B2.
    destruct (ltb max_change tol).
    + cbn [fst snd]. rewrite <- B1. repeat split; try reflexivity; assumption.
    + assert (H2 : (df < List.length s2)%nat) by (rewrite B3; exact H).
      destruct (IH (S done) s2 df max_change H2) as [L1 [L2 [L3 L4]]].
      rewrite <- B1.
      split; [exact L1|]. split; [exact L2|].
      split; [rewrite L3; exact B3|].
      intros o Ho. rewrite (L4 o Ho). apply B4. exact Ho.
Qed.

Variables alloc county_insurer county_metal : nat.
Variable max_iter : nat.
Variable tol : f64.

(** What a pass does to the store, against what [solve_year] computes
    from the contents of the three argument objects: every object that
    existed before the pass is left as it was, and the result of the year
    is held by the one object the pass creates. *)
Lemma solve_year_on_spec (s : store) (results : list result_entry)
  (yr : Z) :
  (alloc < List.length s)%nat ->
  (county_insurer < List.length s)%nat ->
  (county_metal < List.length s)%nat ->
  match solve_year array_sum (cells_at s alloc)
                   (margins_at s county_insurer) (margins_at s county_metal)
                   max_iter tol yr with
  | ValueError =>
      solve_year_on array_sum alloc county_insurer county_metal max_iter tol
                    s results yr = ValueError
  | Ok None =>
      exists s',
        solve_year_on array_sum alloc county_insurer county_metal max_iter
                      tol s results yr = Ok (s', results)
        /\ List.length s' = S (List.length s)
        /\ forall o, (o < List.length s)%nat -> load s' o = load s o
  | Ok (Some r) =>
      exists s',
        solve_year_on array_sum alloc county_insurer county_metal max_iter
                      tol s results yr
        = Ok (s', results ++ [(yr, List.length s, yr_report r)])
        /\ List.length s' = S (List.length s)
        /\ (forall o, (o < List.length s)%nat -> load s' o = load s o)
        /\ cells_at s' (List.length s) = yr_df r
  end.
Proof.
  intros Ha Hi Hm. unfold solve_year, solve_year_on.
  set (f := Cells (year_slice (cells_at s alloc) yr)).
  pose proof (load_new_object_new s f) as Hnew.
  assert (Hold : forall o, (o < List.length s)%nat ->
                           load (fst (new_object s f)) o = load s o)
    by (intros o Ho; apply load_new_object_old; exact Ho).
  assert (Hlen : List.length (fst (new_object s f)) = S (List.length s))
    by (unfold new_object; cbn [fst]; rewrite length_app; simpl; lia).
  destruct (new_object s f) as [s1 df] eqn:En.
  assert (Edf : df = List.length s)
    by (unfold new_object in En; inversion En; reflexivity).
  cbn [fst snd] in Hnew, Hold, Hlen.
  assert (Hcells : cells_at s1 df = year_slice (cells_at s alloc) yr)
    by (unfold cells_at at 1; rewrite Hnew; reflexivity).
  assert (Hci : margins_at s1 county_insurer = margins_at s county_insurer)
    by (unfold margins_at; rewrite (Hold _ Hi); reflexivity).
  assert (Hcm : margins_at s1 county_metal = margins_at s county_metal)
    by (unfold margins_at; rewrite (Hold _ Hm); reflexivity).
  rewrite Hcells, Hci, Hcm.
  destruct (year_slice (cells_at s alloc) yr) as [|c rows] eqn:Es.
  - exists s1. split; [reflexivity|]. split; assumption.
  - destruct (targets_of (year_lookup (margins_at s county_insurer) yr)
                         (map ic_key (c :: rows))) as [ict|].
    + destruct (targets_of (year_lookup (margins_at s county_metal) yr)
                           (map mc_key (c :: rows))) as [mct|].
      * assert (Hdf : (df < List.length s1)%nat) by lia.
        destruct (ipf_loop_on_spec ict mct tol max_iter 0 s1 df inf Hdf)
          as [L1 [L2 [L3 L4]]].
        rewrite Hcells in L1, L2.
        destruct (ipf_loop_on array_sum ict mct tol max_iter 0 s1 df inf)
          as [s2 rep].
        destruct (ipf_loop array_sum ict mct tol max_iter 0 (c :: rows) inf)
          as [df' rep'].
        cbn [fst snd] in L1, L2, L3, L4. subst rep df.
        exists s2. cbn [yr_report yr_df].
        split; [reflexivity|]. split; [lia|]. split; [|exact L1].
        intros o Ho. rewrite L4 by lia. apply Hold. exact Ho.
      * destruct (array_built _ _ && array_built _ _ && _)%bool;
          [|reflexivity].
        exists s1. cbn [yr_report yr_df]. subst df.
        split; [reflexivity|]. split; [exact Hlen|].
        split; [exact Hold|exact Hcells].
    + destruct (array_built _ _ && array_built _ _ && _)%bool;
        [|reflexivity].
      exists s1. cbn [yr_report yr_df]. subst df.
      split; [reflexivity|]. split; [exact Hlen|].
      split; [exact Hold|exact Hcells].
Qed.

(** The loop over any list of years: every object that existed before is
    left as it was, and each entry added to [results] is the result of
    its own year, computed from the three argument objects alone. *)
Lemma for_years_on_spec (years : list Z) :
  forall (s : store) (results : list result_entry) s' results',
    (alloc < List.length s)%nat ->
    (county_insurer < List.length s)%nat ->
    (county_metal < List.length s)%nat ->
    for_years_on array_sum alloc county_insurer county_metal max_iter tol
                 years s results = Ok (s', results') ->
    (List.length s <= List.length s')%nat
    /\ (forall o, (o < List.length s)%nat -> load s' o = load s o)
    /\ exists added,
         results' = results ++ added
         /\ (forall yr o rep,
                In (yr, o, rep) added ->
                In yr years
                /\ exists r,
                     solve_year array_sum (cells_at s alloc)
                                (margins_at s county_insurer)
                                (margins_at s county_metal) max_iter tol yr
                     = Ok (Some r)
                     /\ cells_at s' o = yr_df r /\ rep = yr_report r)
         /\ (forall yr r,
                In yr years ->
                solve_year array_sum (cells_at s alloc)
                           (margins_at s county_insurer)
                           (margins_at s county_metal) max_iter tol yr
                = Ok (Some r) ->
                exists o, In (yr, o, yr_report r) added
                          /\ cells_at s' o = yr_df r).
Proof.
  induction years as [|yr years IH];
    intros s results s' results' Ha Hi Hm H; cbn [for_years_on] in H.
  - inversion H; subst. split; [lia|]. split; [reflexivity|].
    exists []. rewrite app_nil_r. split; [reflexivity|].
    split; [intros yr o rep []|intros yr r []].
  - pose proof (solve_year_on_spec s results yr Ha Hi Hm) as Hspec.
    destruct (solve_year_on array_sum alloc county_insurer county_metal
                            max_iter tol s results yr)
      as [[s1 results1]|] eqn:Ey; [|discriminate].
    assert (Hstep : List.length s1 = S (List.length s)
                    /\ (forall o, (o < List.length s)%nat ->
                                  load s1 o = load s o)).
    { destruct (solve_year array_sum (cells_at s alloc)
                           (margins_at s county_insurer)
                           (margins_at s county_metal) max_iter tol yr)
        as [[r|]|]; [| |discriminate].
      - destruct Hspec as [s0 [E [Hl [Ho _]]]]. inversion E; subst.
        split; assumption.
      - destruct Hspec as [s0 [E [Hl Ho]]]. inversion E; subst.
        split; assumption. }
    destruct Hstep as [Hl1 Ho1].
    assert (Ea : cells_at s1 alloc = cells_at s alloc)
      by (unfold cells_at; rewrite (Ho1 _ Ha); reflexivity).
    assert (Ei : margins_at s1 county_insurer = margins_at s county_insurer)
      by (unfold margins_at; rewrite (Ho1 _ Hi); reflexivity).
    assert (Em : margins_at s1 county_metal = margins_at s county_metal)
      by (unfold margins_at; rewrite (Ho1 _ Hm); reflexivity).
    destruct (IH s1 results1 s' results' ltac:(lia) ltac:(lia) ltac:(lia) H)
      as [Hlen [Hold [added [Hres [Hin Hall]]]]].
    rewrite Ea, Ei, Em in Hin, Hall.
    split; [lia|]. split.
    { intros o Ho. rewrite Hold by lia. apply Ho1. exact Ho. }
    destruct (solve_year array_sum (cells_at s alloc)
                         (margins_at s county_insurer)
                         (margins_at s county_metal) max_iter tol yr)
      as [[r|]|] eqn:Es; [| |discriminate].
    + destruct Hspec as [s0 [E [_ [_ Hc]]]]. inversion E; subst s0 results1.
      assert (Hc' : cells_at s' (List.length s) = yr_df r).
      { unfold cells_at. rewrite Hold by lia. exact Hc. }
      exists ((yr, List.length s, yr_report r) :: added).
      split; [rewrite Hres, <- app_assoc; reflexivity|]. split.
      * intros y o rep [E1|Hadd].
        -- inversion E1; subst. split; [left; reflexivity|].
           exists r. split; [exact Es|]. split; [exact Hc'|reflexivity].
        -- destruct (Hin y o rep Hadd) as [Hy Hr].
           split; [right; exact Hy|exact Hr].
      * intros y r' [<-|Hy] Hs.
        -- rewrite Es in Hs. inversion Hs; subst r'.
           exists (List.length s). split; [left; reflexivity|exact Hc'].
        -- destruct (Hall y r' Hy Hs) as [o [Ho Hco]].
           exists o. split; [right; exact Ho|exact Hco].
    + destruct Hspec as [s0 [E _]]. inversion E; subst s0 results1.
      exists added. split; [exact Hres|]. split.
      * intros y o rep Hadd. destruct (Hin y o rep Hadd) as [Hy Hr].
        split; [right; exact Hy|exact Hr].
      * intros y r' [<-|Hy] Hs; [congruence|]. apply (Hall y r' Hy Hs).
Qed.

End ObjectsOfRunFacts.

(** C7.  Run the passes of [for yr in years] over two orderings of the
    same years, from a store that holds the three argument objects of
    [run_ipf].  Either way every object that existed before the loop, the
    three arguments among them, is left as it was; each entry of
    [results] holds what [solve_year] computes for its year from the
    contents of the three arguments alone; and an entry of a year under
    one ordering has its counterpart under the other, with the same
    estimates in its table, the same flag [converged] and the same number
    of iterations. *)
Theorem years_share_no_state :
  forall (array_sum : list f64 -> f64) (s : store)
         (alloc county_insurer county_metal : nat) (max_iter : nat)
         (tol : f64) (years1 years2 : list Z) (s1 s2 : store)
         (results1 results2 : list result_entry),
    (alloc < List.length s)%nat ->
    (county_insurer < List.length s)%nat ->
    (county_metal < List.length s)%nat ->
    Permutation years1 years2 ->
    for_years_on array_sum alloc county_insurer county_metal max_iter tol
                 years1 s [] = Ok (s1, results1) ->
    for_years_on array_sum alloc county_insurer county_metal max_iter tol
                 years2 s [] = Ok (s2, results2) ->
    (forall o, (o < List.length s)%nat ->
               load s1 o = load s o /\ load s2 o = load s o)
    /\ forall yr o1 rep,
         In (yr, o1, rep) results1 ->
         (exists r,
             solve_year array_sum (cells_at s alloc)
                        (margins_at s county_insurer)
                        (margins_at s county_metal) max_iter tol yr
             = Ok (Some r)
             /\ cells_at s1 o1 = yr_df r /\ rep = yr_report r)
         /\ exists o2,
              In (yr, o2, rep) results2 /\ cells_at s2 o2 = cells_at s1 o1.
Proof.
  intros array_sum s alloc county_insurer county_metal max_iter tol
         years1 years2 s1 s2 results1 results2 Ha Hi Hm Hperm H1 H2.
  destruct (for_years_on_spec array_sum alloc county_insurer county_metal
              max_iter tol years1 s [] s1 results1 Ha Hi Hm H1)
    as [_ [Hold1 [added1 [E1 [Hin1 _]]]]].
  destruct (for_years_on_spec array_sum alloc county_insurer county_metal
              max_iter tol years2 s [] s2 results2 Ha Hi Hm H2)
    as [_ [Hold2 [added2 [E2 [_ Hall2]]]]].
  cbn [app] in E1, E2. subst added1 added2.
  split.
  - intros o Ho. split; [apply Hold1|apply Hold2]; exact Ho.
  - intros yr o1 rep Hin.
    destruct (Hin1 yr o1 rep Hin) as [Hy [r [Hs [Hc Hrep]]]].
    split; [exists r; repeat split; assumption|].
    destruct (Hall2 yr r (Permutation_in yr Hperm Hy) Hs) as [o2 [Ho2 Hc2]].
    exists o2. subst rep. split; [exact Ho2|]. congruence.
Qed.

(** ** C8: the initial allocation *)











(** ** The cleaned control totals as a lookup *)

Lemma margin_key_eqb_eq (a b : Z * string * string) :
  margin_key_eqb a b = true <-> a = b.
Proof.
  unfold margin_key_eqb. destruct a as [[y1 d1] c1], b as [[y2 d2] c2].
  cbn [fst snd]. rewrite !andb_true_iff, Z.eqb_eq, !String.eqb_eq.
  split; [intros [[-> ->] ->]; reflexivity|].
  intro H. inversion H. auto.
Qed.

Lemma margin_key_eqb_neq (a b : Z * string * string) :
  margin_key_eqb a b = false <-> a <> b.
Proof.
  split.
  - intros H E. apply margin_key_eqb_eq in E. congruence.
  - intro H. destruct (margin_key_eqb a b) eqn:E; [|reflexivity].
    apply margin_key_eqb_eq in E. contradiction.
Qed.

Lemma add_to_group_values (k : Z * string * string) (v : f64)
  (groups : list ((Z * string * string) * list f64))
  (k' : Z * string * string) :
  values_of (add_to_group k v groups) k'
  = if margin_key_eqb k k' then values_of groups k' ++ [v]
    else values_of groups k'.
Proof.
  induction groups as [|[k1 vs] gs IH].
  - cbn [add_to_group values_of]. destruct (margin_key_eqb k k'); reflexivity.
  - cbn [add_to_group]. destruct (margin_key_eqb k1 k) eqn:E1.
    + apply margin_key_eqb_eq in E1. subst k1. cbn [values_of].
      destruct (margin_key_eqb k k'); reflexivity.
    + cbn [values_of]. rewrite IH.
      destruct (margin_key_eqb k1 k') eqn:E2; [|reflexivity].
      destruct (margin_key_eqb k k') eqn:E3; [|reflexivity].
      apply margin_key_eqb_eq in E2, E3. apply margin_key_eqb_neq in E1.
      congruence.
Qed.

Lemma add_to_group_keys (k : Z * string * string) (v : f64)
  (groups : list ((Z * string * string) * list f64)) :
  map fst (add_to_group k v groups)
  = if existsb (fun g => margin_key_eqb (fst g) k) groups
    then map fst groups
    else map fst groups ++ [k].
Proof.
  induction groups as [|[k1 vs] gs IH]; [reflexivity|].
  cbn [add_to_group existsb fst]. destruct (margin_key_eqb k1 k); [reflexivity|].
  cbn [map fst orb]. rewrite IH.
  destruct (existsb (fun g => margin_key_eqb (fst g) k) gs); reflexivity.
Qed.

Lemma add_to_group_NoDup (k : Z * string * string) (v : f64)
  (groups : list ((Z * string * string) * list f64)) :
  NoDup (map fst groups) -> NoDup (map fst (add_to_group k v groups)).
Proof.
  intro H. rewrite add_to_group_keys.
  destruct (existsb (fun g => margin_key_eqb (fst g) k) groups) eqn:E;
    [exact H|].
  apply NoDup_app; [exact H|repeat constructor; intros []|].
  intros x Hx [<-|[]].
  apply in_map_iff in Hx. destruct Hx as [g [Hg Hin]].
  assert (Ht : existsb (fun g => margin_key_eqb (fst g) k) groups = true).
  { apply existsb_exists. exists g. split; [exact Hin|].
    apply margin_key_eqb_eq. exact Hg. }
  congruence.
Qed.

Lemma add_to_group_nonempty (k : Z * string * string) (v : f64)
  (groups : list ((Z * string * string) * list f64)) :
  Forall (fun g => snd g <> []) groups ->
  Forall (fun g => snd g <> []) (add_to_group k v groups).
Proof.
  induction groups as [|[k1 vs] gs IH]; intro H; cbn [add_to_group].
  - constructor; [discriminate|constructor].
  - inversion H as [|? ? H1 H2]; subst.
    destruct (margin_key_eqb k1 k).
    + constructor; [|exact H2]. cbn [snd]. destruct vs; discriminate.
    + constructor; [exact H1|apply IH; exact H2].
Qed.

(** What the fold over the raw rows leaves under each key. *)
Lemma group_values_fold (upper_strip : string -> string)
  (raw : list raw_margin_row) (k : Z * string * string) :
  forall groups,
    NoDup (map fst groups) ->
    Forall (fun g => snd g <> []) groups ->
    NoDup (map fst (fold_left (add_raw_row upper_strip) raw groups))
    /\ Forall (fun g => snd g <> [])
              (fold_left (add_raw_row upper_strip) raw groups)
    /\ values_of (fold_left (add_raw_row upper_strip) raw groups) k
       = values_of groups k ++ raw_values upper_strip raw k.
Proof.
  unfold raw_values.
  induction raw as [|r raw IH]; intros groups Hnd Hne; cbn [fold_left].
  - cbn [filter map]. rewrite app_nil_r. auto.
  - unfold add_raw_row at 2 4 6. cbn [filter].
    destruct (raw_margin_key upper_strip r) as [kr|].
    + destruct (IH (add_to_group kr (to_numeric_fillna0 (raw_enrollees r))
                                 groups)
                   (add_to_group_NoDup _ _ _ Hnd)
                   (add_to_group_nonempty _ _ _ Hne)) as [H1 [H2 H3]].
      split; [exact H1|]. split; [exact H2|].
      rewrite H3, add_to_group_values.
      destruct (margin_key_eqb kr k); cbn [map]; [|reflexivity].
      rewrite <- app_assoc. reflexivity.
    + apply IH; assumption.
Qed.

(** In a list of groups with distinct keys, the groups filed under a key
    are the one that holds its values, or none. *)
Lemma groups_of_key (groups : list ((Z * string * string) * list f64))
  (k : Z * string * string) :
  NoDup (map fst groups) ->
  Forall (fun g => snd g <> []) groups ->
  map snd (filter (fun g => margin_key_eqb (fst g) k) groups)
  = match values_of groups k with
    | [] => []
    | v :: vs => [v :: vs]
    end.
Proof.
  induction groups as [|[k1 vs] gs IH]; intros Hnd Hne; [reflexivity|].
  cbn [map fst] in Hnd. inversion Hnd as [|? ? Hk Hnd']; subst.
  inversion Hne as [|? ? H1 H2]; subst. cbn [snd] in H1.
  cbn [filter values_of fst]. destruct (margin_key_eqb k1 k) eqn:E.
  - apply margin_key_eqb_eq in E. subst k1. cbn [map snd].
    assert (Hnone : filter (fun g => margin_key_eqb (fst g) k) gs = []).
    { clear IH Hnd Hnd' Hne H2.
      induction gs as [|[k2 v2] gs IHg]; [reflexivity|].
      cbn [filter fst]. destruct (margin_key_eqb k2 k) eqn:E2.
      - apply margin_key_eqb_eq in E2. subst k2. exfalso. apply Hk.
        left. reflexivity.
      - apply IHg. intro Hin. apply Hk. right. exact Hin. }
    rewrite Hnone. destruct vs; [congruence|reflexivity].
  - apply IH; assumption.
Qed.

Lemma margin_key_eqb_split (y : Z) (d c : string) (yr : Z) (k : key) :
  margin_key_eqb (y, d, c) (yr, fst k, snd k)
  = ((y =? yr)%Z && key_eqb (d, c) k)%bool.
Proof.
  unfold margin_key_eqb, key_eqb. cbn [fst snd]. symmetry. apply andb_assoc.
Qed.

Lemma matches_cleaned (array_sum : list f64 -> f64)
  (groups : list ((Z * string * string) * list f64)) (yr : Z) (k : key) :
  matches
    (year_lookup
       (map (fun g => mkMargin (fst (fst (fst g))) (snd (fst (fst g)))
                               (snd (fst g)) (array_sum (snd g)))
            groups) yr) k
  = map array_sum
        (map snd (filter (fun g => margin_key_eqb (fst g) (yr, fst k, snd k))
                         groups)).
Proof.
  unfold matches, year_lookup, set_index.
  induction groups as [|[[[y d] c] vs] gs IH]; [reflexivity|].
  cbn [map filter fst snd m_year m_dim m_county m_target].
  rewrite margin_key_eqb_split.
  destruct (y =? yr)%Z;
    cbn [andb map filter fst snd m_dim m_county m_target]; [|exact IH].
  destruct (key_eqb (d, c) k); cbn [map snd]; rewrite IH; reflexivity.
Qed.

(** X5.  The cleaned profile holds every (year, insurer or tier, county)
    once, the county being the upper-cased and stripped name; and the
    lookup of a year returns, for every key, what the summation kernel
    makes of the counts of the raw rows of that year and key in row order,
    a count that does not parse counting as 0.  A key without raw rows
    gives the default 0, and rows with a missing key column count
    nowhere. *)
Theorem clean_margin_lookup :
  forall (array_sum : list f64 -> f64) (upper_strip : string -> string)
         (raw : list raw_margin_row),
    NoDup (map margin_key (clean_margin array_sum upper_strip raw))
    /\ forall (yr : Z) (k : key),
         series_get (year_lookup (clean_margin array_sum upper_strip raw) yr)
                    k zero
         = Some match raw_values upper_strip raw (yr, fst k, snd k) with
                | [] => zero
                | v :: vs => array_sum (v :: vs)
                end.
Proof.
  intros array_sum upper_strip raw.
  assert (Hfold : forall k3,
             NoDup (map fst (group_values upper_strip raw))
             /\ Forall (fun g => snd g <> []) (group_values upper_strip raw)
             /\ values_of (group_values upper_strip raw) k3
                = raw_values upper_strip raw k3).
  { intro k3. unfold group_values.
    apply (group_values_fold upper_strip raw k3 []); constructor. }
  split.
  - unfold clean_margin. rewrite map_map. unfold margin_key.
    cbn [m_year m_dim m_county].
    rewrite (map_ext _ fst)
      by (intros [[[y d] c] vs]; reflexivity).
    apply (Hfold (0%Z, EmptyString, EmptyString)).
  - intros yr k. destruct (Hfold (yr, fst k, snd k)) as [Hnd [Hne Hv]].
    unfold series_get, clean_margin.
    rewrite matches_cleaned, (groups_of_key _ _ Hnd Hne), Hv.
    destruct (raw_values upper_strip raw (yr, fst k, snd k)); reflexivity.
Qed.

(** ** Cells without mass *)

(** X3.  The solver never gives mass to a cell that has none: a row whose
    estimate is a zero in a year's slice keeps its key columns and is a
    zero or NaN in every table the year passes through. *)
Theorem zero_cell_is_zero_or_nan :
  forall (array_sum : list f64 -> f64) (ic_lookup mc_lookup : series)
         (df0 : table) (ic_targets mc_targets : list f64),
    targets_of ic_lookup (map ic_key df0) = Some ic_targets ->
    targets_of mc_lookup (map mc_key df0) = Some mc_targets ->
    forall (i : nat) (c : cell),
      nth_error df0 i = Some c ->
      is_zero (enrollment_est c) = true ->
      forall df,
        reached array_sum ic_targets mc_targets df0 df ->
        exists c',
          nth_error df i = Some c'
          /\ key_columns c' = key_columns c
          /\ (is_zero (enrollment_est c') = true
              \/ enrollment_est c' = nan).
Proof.
  intros array_sum ic_lookup mc_lookup df0 ic_targets mc_targets Hic Hmc
         i c Hi Hz df Hr.
  exact (proj2 (zero_or_nan_stays array_sum ic_lookup mc_lookup df0
                  ic_targets mc_targets Hic Hmc df0 i c
                  (reached_start array_sum _ _ _) Hi (or_introl Hz) df Hr)).
Qed.

(** ** When [run_ipf] raises *)

Lemma series_get_none (s : series) (k : key) (default : f64) :
  series_get s k default = None <-> (2 <= List.length (matches s k))%nat.
Proof.
  unfold series_get. destruct (matches s k) as [|v [|v' l]]; simpl.
  - split; [discriminate|lia].
  - split; [discriminate|lia].
  - split; [lia|reflexivity].
Qed.

Lemma targets_of_none (lookup : series) (keys : list key) :
  targets_of lookup keys = None
  <-> exists k, In k keys /\ series_get lookup k zero = None.
Proof.
  induction keys as [|k keys IH]; cbn [targets_of].
  - split; [discriminate|intros [k [[] _]]].
  - destruct (series_get lookup k zero) as [v|] eqn:E.
    + destruct (targets_of lookup keys) as [vs|].
      * split; [discriminate|].
        intros [k' [[<-|Hin] Hk]]; [congruence|]. exfalso.
        assert (Hn : Some vs = None)
          by (apply (proj2 IH); exists k'; split; assumption).
        discriminate Hn.
      * split; [|reflexivity]. intros _.
        destruct (proj1 IH eq_refl) as [k' [Hin Hk]].
        exists k'. split; [right; exact Hin|exact Hk].
    + split; [|reflexivity]. intros _. exists k.
      split; [left; reflexivity|exact E].
Qed.

Section RaisesBinary64.

Variable array_sum : list f64 -> f64.
Variable alloc : table.
Variables county_insurer county_metal : list margin_row.
Variable max_iter : nat.
Variable tol : f64.

(** A year with rows is never skipped. *)
Lemma solve_year_not_skipped (c : cell) :
  In c alloc ->
  solve_year array_sum alloc county_insurer county_metal max_iter tol (year c)
  <> Ok None.
Proof.
  intro Hc. unfold solve_year.
  destruct (year_slice alloc (year c)) as [|c1 df] eqn:Es.
  - assert (Hin : In c (year_slice alloc (year c))).
    { unfold year_slice. apply filter_In. split; [exact Hc|].
      apply Z.eqb_refl. }
    rewrite Es in Hin. destruct Hin.
  - destruct (targets_of (year_lookup county_insurer (year c))
                         (map ic_key (c1 :: df))) as [ict|];
      [destruct (targets_of (year_lookup county_metal (year c))
                            (map mc_key (c1 :: df))) as [mct|]|];
      try (destruct (array_built _ _ && array_built _ _ && _)%bool;
           discriminate).
    destruct (ipf_loop array_sum ict mct tol max_iter 0 (c1 :: df) inf).
    discriminate.
Qed.

Hypothesis some_iteration : (1 <= max_iter)%nat.

Lemma solve_year_raises (yr : Z) :
  solve_year array_sum alloc county_insurer county_metal max_iter tol yr
  = ValueError
  <-> exists c,
        In c alloc /\ year c = yr
        /\ asks_duplicated_key county_insurer county_metal c.
Proof.
  unfold solve_year, asks_duplicated_key.
  assert (Hslice : forall c, In c (year_slice alloc yr)
                             <-> In c alloc /\ year c = yr).
  { intro c. unfold year_slice. rewrite filter_In, Z.eqb_eq. reflexivity. }
  assert (Hiter : (max_iter =? 0)%nat = false)
    by (apply Nat.eqb_neq; lia).
  rewrite Hiter, !andb_false_r.
  destruct (year_slice alloc yr) as [|c0 df] eqn:Es.
  - split; [discriminate|]. intros [c [Hc [Hy _]]].
    destruct (proj2 (Hslice c) (conj Hc Hy)).
  - destruct (targets_of (year_lookup county_insurer yr)
                         (map ic_key (c0 :: df))) as [ict|] eqn:Ei.
    + destruct (targets_of (year_lookup county_metal yr)
                           (map mc_key (c0 :: df))) as [mct|] eqn:Em.
      * destruct (ipf_loop array_sum ict mct tol max_iter 0 (c0 :: df) inf)
          as [df' rep].
        split; [discriminate|]. intros [c [Hc [Hy Hd]]]. exfalso.
        pose proof (proj2 (Hslice c) (conj Hc Hy)) as Hin. subst yr.
        destruct Hd as [Hd|Hd]; apply series_get_none with (default := zero)
          in Hd.
        -- assert (Hn : targets_of (year_lookup county_insurer (year c))
                                   (map ic_key (c0 :: df)) = None).
           { apply targets_of_none. exists (ic_key c).
             split; [apply in_map; exact Hin|exact Hd]. }
           congruence.
        -- assert (Hn : targets_of (year_lookup county_metal (year c))
                                   (map mc_key (c0 :: df)) = None).
           { apply targets_of_none. exists (mc_key c).
             split; [apply in_map; exact Hin|exact Hd]. }
           congruence.
      * split; [|reflexivity]. intros _.
        apply targets_of_none in Em. destruct Em as [k [Hk Hg]].
        apply in_map_iff in Hk. destruct Hk as [c [<- Hc]].
        apply Hslice in Hc. destruct Hc as [Hc Hy].
        exists c. split; [exact Hc|]. split; [exact Hy|]. right.
        rewrite Hy. apply series_get_none in Hg. exact Hg.
    + split; [|reflexivity]. intros _.
      apply targets_of_none in Ei. destruct Ei as [k [Hk Hg]].
      apply in_map_iff in Hk. destruct Hk as [c [<- Hc]].
      apply Hslice in Hc. destruct Hc as [Hc Hy].
      exists c. split; [exact Hc|]. split; [exact Hy|]. left.
      rewrite Hy. apply series_get_none in Hg. exact Hg.
Qed.

End RaisesBinary64.

Lemma for_years_raises (array_sum : list f64 -> f64) (alloc : table)
  (county_insurer county_metal : list margin_row) (max_iter : nat)
  (tol : f64) (years : list Z) :
  forall acc,
    for_years array_sum alloc county_insurer county_metal max_iter tol years
              acc = ValueError
    <-> exists yr,
          In yr years
          /\ solve_year array_sum alloc county_insurer county_metal max_iter
                        tol yr = ValueError.
Proof.
  induction years as [|yr years IH]; intro acc; cbn [for_years].
  - split; [discriminate|intros [yr [[] _]]].
  - destruct (solve_year array_sum alloc county_insurer county_metal max_iter
                         tol yr) as [[r|]|] eqn:E.
    + rewrite IH. split; intros [y [Hy Hs]].
      * exists y. split; [right; exact Hy|exact Hs].
      * destruct Hy as [<-|Hy]; [congruence|]. exists y. split; assumption.
    + rewrite IH. split; intros [y [Hy Hs]].
      * exists y. split; [right; exact Hy|exact Hs].
      * destruct Hy as [<-|Hy]; [congruence|]. exists y. split; assumption.
    + split; [|reflexivity]. intros _. exists yr.
      split; [left; reflexivity|exact E].
Qed.

(** X16.  With at least one loop body to run ([main] asks for 100),
    [run_ipf] raises in two cases only: the allocation table has no rows,
    so that [pd.concat] has nothing to concatenate, or some row asks the
    insurer or the metal lookup of its year for a key that the lookup
    holds more than once.  Neither the values of the targets, nor the
    estimates or [tol] make it raise. *)
Theorem run_ipf_raises_iff :
  forall (array_sum : list f64 -> f64) (alloc : table)
         (county_insurer county_metal : list margin_row)
         (max_iter : nat) (tol : f64),
    (1 <= max_iter)%nat ->
    (run_ipf array_sum alloc county_insurer county_metal max_iter tol
     = ValueError
     <-> alloc = []
         \/ exists c,
              In c alloc
              /\ asks_duplicated_key county_insurer county_metal c).
Proof.
  intros array_sum alloc county_insurer county_metal max_iter tol Hiter.
  split.
  - intro H.
    destruct (for_years array_sum alloc county_insurer county_metal max_iter
                tol (sorted_unique (map year alloc)) []) as [results|] eqn:E.
    + left. destruct alloc as [|c0 alloc'] eqn:Ea; [reflexivity|]. exfalso.
      rewrite <- Ea in *.
      assert (Hc0 : In c0 alloc) by (rewrite Ea; left; reflexivity).
      assert (Hnone : forall yr,
                 In yr (sorted_unique (map year alloc)) ->
                 solve_year array_sum alloc county_insurer county_metal
                            max_iter tol yr <> ValueError).
      { intros yr Hy Hs.
        assert (Hv : for_years array_sum alloc county_insurer county_metal
                               max_iter tol (sorted_unique (map year alloc))
                               [] = ValueError)
          by (apply for_years_raises; exists yr; split; assumption).
        congruence. }
      assert (Hyear : In (year c0) (sorted_unique (map year alloc)))
        by (apply sorted_unique_In, in_map; exact Hc0).
      destruct (solve_year array_sum alloc county_insurer county_metal
                           max_iter tol (year c0)) as [[r|]|] eqn:Es.
      * destruct (for_years_succeeds array_sum alloc county_insurer
                    county_metal max_iter tol _ Hnone [])
          as [results' [Hres [_ Hin]]].
        pose proof (Hin (year c0) r Hyear Es) as Hr.
        assert (results' = results) by congruence. subst results'.
        unfold run_ipf in H. rewrite E in H.
        destruct results as [|r0 rs]; [destruct Hr|discriminate].
      * exact (solve_year_not_skipped array_sum alloc county_insurer
                 county_metal max_iter tol c0 Hc0 Es).
      * exact (Hnone (year c0) Hyear Es).
    + right. apply for_years_raises in E. destruct E as [yr [_ Hs]].
      apply (solve_year_raises array_sum alloc county_insurer county_metal
               max_iter tol Hiter) in Hs.
      destruct Hs as [c [Hc [_ Hd]]].
      exists c. split; assumption.
  - intros [->|[c [Hc Hd]]]; [reflexivity|].
    assert (Hs : solve_year array_sum alloc county_insurer county_metal
                            max_iter tol (year c) = ValueError)
      by (apply (solve_year_raises array_sum alloc county_insurer
                   county_metal max_iter tol Hiter);
          exists c; repeat split; assumption).
    assert (Hf : for_years array_sum alloc county_insurer county_metal
                           max_iter tol (sorted_unique (map year alloc)) []
                 = ValueError).
    { apply for_years_raises. exists (year c). split; [|exact Hs].
      apply sorted_unique_In, in_map. exact Hc. }
    unfold run_ipf. rewrite Hf. reflexivity.
Qed.

(** ** [run_ipf] on the store and on the contents of its arguments *)

Lemma assign_est_map (f : f64 -> f64) (rows : table) :
  assign_est rows (map f (est_values rows))
  = map (fun c => with_est c (f (enrollment_est c))) rows.
Proof.
  unfold assign_est, est_values.
  induction rows as [|c rows IH]; simpl; [reflexivity|].
  f_equal. exact IH.
Qed.

Lemma solve_year_year_f64 (array_sum : list f64 -> f64) (alloc : table)
  (county_insurer county_metal : list margin_row) (max_iter : nat)
  (tol : f64) (yr : Z) (r : year_result) :
  solve_year array_sum alloc county_insurer county_metal max_iter tol yr
  = Ok (Some r) ->
  yr_year r = yr.
Proof.
  intro H.
  destruct (solve_year_ok array_sum alloc county_insurer county_metal
              max_iter tol yr r H) as [[ict [mct [_ [_ [Hy _]]]]]|[_ [Hy _]]];
    exact Hy.
Qed.

Section RunOnStore.

Variable array_sum : list f64 -> f64.
Variables alloc county_insurer county_metal : nat.
Variable max_iter : nat.
Variable tol : f64.

(** The loop over the years on the store does what the loop over the
    years does with the contents of the three arguments: it fails where
    that fails, and otherwise adds one entry per result, in the same
    order, leaving every older object as it was. *)
Lemma for_years_on_refines (years : list Z) :
  forall (s : store) (results : list result_entry)
         (acc : list year_result),
    (alloc < List.length s)%nat ->
    (county_insurer < List.length s)%nat ->
    (county_metal < List.length s)%nat ->
    match for_years array_sum (cells_at s alloc)
                    (margins_at s county_insurer)
                    (margins_at s county_metal) max_iter tol years acc with
    | ValueError =>
        for_years_on array_sum alloc county_insurer county_metal max_iter tol
                     years s results = ValueError
    | Ok rs =>
        exists s' added new_rs,
          for_years_on array_sum alloc county_insurer county_metal max_iter
                       tol years s results = Ok (s', results ++ added)
          /\ rs = acc ++ new_rs
          /\ map (entry_view s') added = map result_view new_rs
          /\ (List.length s <= List.length s')%nat
          /\ forall o, (o < List.length s)%nat -> load s' o = load s o
    end.
Proof.
  induction years as [|yr years IH]; intros s results acc Ha Hi Hm;
    cbn [for_years for_years_on].
  - exists s, [], []. rewrite !app_nil_r.
    split; [reflexivity|]. split; [reflexivity|]. split; [reflexivity|].
    split; [lia|reflexivity].
  - pose proof (solve_year_on_spec array_sum alloc county_insurer
                  county_metal max_iter tol s results yr Ha Hi Hm) as Hspec.
    destruct (solve_year array_sum (cells_at s alloc)
                         (margins_at s county_insurer)
                         (margins_at s county_metal) max_iter tol yr)
      as [[r|]|] eqn:Es.
    + destruct Hspec as [s1 [E [Hl [Ho Hc]]]]. rewrite E.
      assert (Ea : cells_at s1 alloc = cells_at s alloc)
        by (unfold cells_at; rewrite (Ho _ Ha); reflexivity).
      assert (Ei : margins_at s1 county_insurer
                   = margins_at s county_insurer)
        by (unfold margins_at; rewrite (Ho _ Hi); reflexivity).
      assert (Em : margins_at s1 county_metal = margins_at s county_metal)
        by (unfold margins_at; rewrite (Ho _ Hm); reflexivity).
      pose proof (IH s1 (results ++ [(yr, List.length s, yr_report r)])
                     (acc ++ [r]) ltac:(lia) ltac:(lia) ltac:(lia)) as H.
      rewrite Ea, Ei, Em in H.
      destruct (for_years array_sum (cells_at s alloc)
                          (margins_at s county_insurer)
                          (margins_at s county_metal) max_iter tol years
                          (acc ++ [r])) as [rs|]; [|exact H].
      destruct H as [s' [added [new_rs [E' [Hrs [Hview [Hlen Hold]]]]]]].
      exists s', ((yr, List.length s, yr_report r) :: added), (r :: new_rs).
      split; [rewrite E', <- app_assoc; reflexivity|].
      split; [rewrite Hrs, <- app_assoc; reflexivity|].
      split; [|split; [lia|]].
      * cbn [map]. rewrite Hview. f_equal.
        unfold entry_view, result_view. cbn [fst snd].
        rewrite (solve_year_year_f64 _ _ _ _ _ _ _ _ Es).
        unfold cells_at. rewrite Hold by lia. fold (cells_at s1 (List.length s)).
        rewrite Hc. reflexivity.
      * intros o Hlt. rewrite Hold by lia. apply Ho. exact Hlt.
    + destruct Hspec as [s1 [E [Hl Ho]]]. rewrite E.
      assert (Ea : cells_at s1 alloc = cells_at s alloc)
        by (unfold cells_at; rewrite (Ho _ Ha); reflexivity).
      assert (Ei : margins_at s1 county_insurer
                   = margins_at s county_insurer)
        by (unfold margins_at; rewrite (Ho _ Hi); reflexivity).
      assert (Em : margins_at s1 county_metal = margins_at s county_metal)
        by (unfold margins_at; rewrite (Ho _ Hm); reflexivity).
      pose proof (IH s1 results acc ltac:(lia) ltac:(lia) ltac:(lia)) as H.
      rewrite Ea, Ei, Em in H.
      destruct (for_years array_sum (cells_at s alloc)
                          (margins_at s county_insurer)
                          (margins_at s county_metal) max_iter tol years acc)
        as [rs|]; [|exact H].
      destruct H as [s' [added [new_rs [E' [Hrs [Hview [Hlen Hold]]]]]]].
      exists s', added, new_rs.
      split; [exact E'|]. split; [exact Hrs|]. split; [exact Hview|].
      split; [lia|]. intros o Hlt. rewrite Hold by lia. apply Ho. exact Hlt.
    + rewrite Hspec. reflexivity.
Qed.

End RunOnStore.

(** X17.  [run_ipf] does not change its arguments: run on a store that
    holds them, it raises exactly where [run_ipf] raises on their contents,
    and otherwise returns a new object holding the table that [run_ipf]
    computes from their contents, every object that existed before the
    call being left as it was. *)
Theorem run_ipf_leaves_arguments :
  forall (array_sum : list f64 -> f64) (s : store)
         (alloc county_insurer county_metal : nat) (max_iter : nat)
         (tol : f64),
    (alloc < List.length s)%nat ->
    (county_insurer < List.length s)%nat ->
    (county_metal < List.length s)%nat ->
    match run_ipf array_sum (cells_at s alloc) (margins_at s county_insurer)
                  (margins_at s county_metal) max_iter tol with
    | ValueError =>
        run_ipf_on array_sum alloc county_insurer county_metal max_iter tol s
        = ValueError
    | Ok out =>
        exists s' allocated,
          run_ipf_on array_sum alloc county_insurer county_metal max_iter tol
                     s = Ok (s', allocated)
          /\ cells_at s' allocated = out
          /\ (List.length s <= allocated)%nat
          /\ forall o, (o < List.length s)%nat -> load s' o = load s o
    end.
Proof.
  intros array_sum s alloc county_insurer county_metal max_iter tol
         Ha Hi Hm.
  unfold run_ipf, run_ipf_on.
  pose proof (for_years_on_refines array_sum alloc county_insurer
                county_metal max_iter tol
                (sorted_unique (map year (cells_at s alloc))) s [] []
                Ha Hi Hm) as H.
  destruct (for_years array_sum (cells_at s alloc)
                      (margins_at s county_insurer)
                      (margins_at s county_metal) max_iter tol
                      (sorted_unique (map year (cells_at s alloc))) [])
    as [rs|]; [|rewrite H; reflexivity].
  destruct H as [s' [added [new_rs [E [Hrs [Hview [Hlen Hold]]]]]]].
  cbn [app] in E, Hrs. subst new_rs. rewrite E.
  destruct rs as [|r rs]; destruct added as [|e added];
    try discriminate Hview; [reflexivity|].
  assert (Hrows : map (fun e0 => cells_at s' (snd (fst e0))) (e :: added)
                  = map yr_df (r :: rs)).
  { assert (Hsnd : map (fun v : Z * table * report => snd (fst v))
                       (map (entry_view s') (e :: added))
                   = map (fun v : Z * table * report => snd (fst v))
                         (map result_view (r :: rs)))
      by (rewrite Hview; reflexivity).
    rewrite !map_map in Hsnd. exact Hsnd. }
  rewrite Hrows.
  set (rows := List.concat (map yr_df (r :: rs))).
  pose proof (load_new_object_new s' (Cells rows)) as Hnew.
  assert (Hold' : forall o, (o < List.length s')%nat ->
                            load (fst (new_object s' (Cells rows))) o
                            = load s' o)
    by (intros o Ho; apply load_new_object_old; exact Ho).
  assert (Hlen' : List.length (fst (new_object s' (Cells rows)))
                  = S (List.length s'))
    by (unfold new_object; cbn [fst]; rewrite length_app; simpl; lia).
  destruct (new_object s' (Cells rows)) as [s2 allocated] eqn:En.
  assert (Eo : allocated = List.length s')
    by (unfold new_object in En; inversion En; reflexivity).
  cbn [fst snd] in Hnew, Hold', Hlen'.
  assert (Hcells : cells_at s2 allocated = rows)
    by (unfold cells_at; rewrite Hnew; reflexivity).
  eexists. exists allocated. split; [reflexivity|].
  split; [|split; [lia|]].
  - unfold set_est, cells_at at 1.
    rewrite load_replace_at_same by lia.
    rewrite Hcells. apply assign_est_map.
  - intros o Ho. unfold set_est.
    rewrite load_replace_at_other by lia.
    rewrite Hold' by lia. apply Hold. exact Ho.
Qed.

(** ** The claims as stated, at concrete doubles *)

(** Closed statements about concrete doubles are settled by evaluation,
    one conjunct at a time and once for each summation kernel. *)
Ltac evaluated :=
  lazymatch goal with
  | |- _ /\ _ => split; evaluated
  | |- exists _, _ => eexists; evaluated
  | |- ~ _ => let H := fresh in vm_compute; intro H; discriminate H
  | |- Forall _ [] => apply Forall_nil
  | |- Forall _ (_ :: _) => apply Forall_cons; evaluated
  | |- Forall ?P ?l =>
      let l' := eval hnf in l in change (Forall P l'); evaluated
  | |- _ => vm_compute; reflexivity
  end.

(** C1 as stated fails on its parenthesis: a scaled group need not sum to
    its target.  The cells 1 and 5 of one insurer x county group with
    target 7 leave Step A as 7/6 and 35/6 rounded to doubles; summed by
    either kernel they give 7 + 2^-50, and their exact sum is not 7
    either. *)
Lemma scaled_group_misses_target :
  targets_of seven_ic_lookup (map ic_key seven_df) = Some [of_Z 7; of_Z 7]
  /\ of_Z 7 = S754_finite false 7881299347898368 (-50)
  /\ Forall
       (fun array_sum : list f64 -> f64 =>
          ltb eps (group_sum array_sum ic_key seven_df ("X", "A")%string)
          = true
          /\ est_values (step_A array_sum [of_Z 7; of_Z 7] seven_df)
             = [S754_finite false 5254199565265579 (-52);
                S754_finite false 6567749456581974 (-50)]
          /\ group_sum array_sum ic_key
                       (step_A array_sum [of_Z 7; of_Z 7] seven_df)
                       ("X", "A")%string
             = S754_finite false 7881299347898369 (-50))
       kernels
  /\ ~ to_Q (S754_finite false 5254199565265579 (-52))
       + to_Q (S754_finite false 6567749456581974 (-50)) == 7.
Proof. evaluated.
Qed.

(** C2 as stated fails on its last clause: with no prior estimate above
    1e-10 the max change is 0, but whether the loop then stops depends on
    [tol].  On [tiny_alloc] with tolerance 0 the first body has max change
    0 and the loop runs all its 100 bodies without setting [converged]. *)
Lemma zero_max_change_without_convergence :
  targets_of tiny_ic_lookup (map ic_key tiny_alloc) = Some tiny_ic_targets
  /\ targets_of tiny_mc_lookup (map mc_key tiny_alloc) = Some tiny_mc_targets
  /\ forallb (fun c => negb (ltb eps (enrollment_est c))) tiny_alloc = true
  /\ Forall
       (fun array_sum : list f64 -> f64 =>
          delta_at array_sum tiny_ic_targets tiny_mc_targets tiny_alloc 1
          = zero
          /\ converged
               (snd (ipf_loop array_sum tiny_ic_targets tiny_mc_targets zero
                              100 0 tiny_alloc inf)) = false
          /\ iterations_used
               (snd (ipf_loop array_sum tiny_ic_targets tiny_mc_targets zero
                              100 0 tiny_alloc inf)) = 100%nat)
       kernels.
Proof. evaluated.
Qed.

(** C3 as stated fails: with every estimate and target at least 0, the
    cells 0 and 1e-9 of one insurer x county group with target 1e300 get
    the factor 1e300 / 1e-9, which overflows to infinity; Step A leaves
    NaN in the first cell and infinity in the second, and [run_ipf]
    returns NaN in both, which the final clip does not touch.  NaN is not
    at least 0. *)
Lemma zero_times_overflow_is_nan :
  Forall (fun c => leb zero (enrollment_est c) = true) overflow_alloc
  /\ Forall (fun r => leb zero (m_target r) = true) overflow_county_insurer
  /\ Forall (fun r => leb zero (m_target r) = true) overflow_county_metal
  /\ targets_of (year_lookup overflow_county_insurer 2020)
                (map ic_key (year_slice overflow_alloc 2020))
     = Some [of_Z (10 ^ 300); of_Z (10 ^ 300)]
  /\ Forall
       (fun array_sum : list f64 -> f64 =>
          est_values (step_A array_sum [of_Z (10 ^ 300); of_Z (10 ^ 300)]
                             (year_slice overflow_alloc 2020))
          = [nan; inf]
          /\ exists out,
               run_ipf array_sum overflow_alloc overflow_county_insurer
                       overflow_county_metal 100 (of_ratio 1 1000) = Ok out
               /\ est_values out = [nan; nan])
       kernels
  /\ leb zero nan = false.
Proof. evaluated.
Qed.

(** C4 as stated fails on "remains exactly 0".  In [absorbed_df] the
    first cell has no insurer x county target and a group mass of 5; Step A
    sets it to 0.  The metal tier it shares with the second cell then has
    the sum 1e-9 and the target 1e300, a factor that overflows to
    infinity, and Step B turns the zeroed cell into NaN. *)
Lemma zeroed_cell_becomes_nan :
  series_get absorbed_ic_lookup ("X", "A")%string zero = Some zero
  /\ targets_of absorbed_ic_lookup (map ic_key absorbed_df)
     = Some [zero; of_ratio 1 1000000000]
  /\ targets_of absorbed_mc_lookup (map mc_key absorbed_df)
     = Some [of_Z (10 ^ 300); of_Z (10 ^ 300)]
  /\ Forall
       (fun array_sum : list f64 -> f64 =>
          ltb eps (group_sum array_sum ic_key absorbed_df ("X", "A")%string)
          = true
          /\ est_values (step_A array_sum [zero; of_ratio 1 1000000000]
                                absorbed_df)
             = [zero; of_ratio 1 1000000000]
          /\ est_values
               (step_B array_sum [of_Z (10 ^ 300); of_Z (10 ^ 300)]
                       (step_A array_sum [zero; of_ratio 1 1000000000]
                               absorbed_df))
             = [nan; inf])
       kernels.
Proof. evaluated.
Qed.

(** C6 as stated fails.  On [tiny_alloc] with tolerance 0.001 the loop
    converges at its first body, because no prior estimate exceeds 1e-10,
    and leaves the estimates 6, 3, 8, 2; one more body takes the first row
    from 6 to about 6.36, a relative change above 0.001. *)
Lemma extra_iteration_exceeds_tol :
  Forall
    (fun array_sum : list f64 -> f64 =>
       converged (snd (ipf_loop array_sum tiny_ic_targets tiny_mc_targets
                                (of_ratio 1 1000) 100 0 tiny_alloc inf))
       = true
       /\ iterations_used
            (snd (ipf_loop array_sum tiny_ic_targets tiny_mc_targets
                           (of_ratio 1 1000) 100 0 tiny_alloc inf))
          = 1%nat
       /\ est_values
            (fst (ipf_loop array_sum tiny_ic_targets tiny_mc_targets
                           (of_ratio 1 1000) 100 0 tiny_alloc inf))
          = [of_Z 6; of_Z 3; of_Z 8; of_Z 2]
       /\ exists c2,
            nth_error
              (fst (ipf_body array_sum tiny_ic_targets tiny_mc_targets
                      (fst (ipf_loop array_sum tiny_ic_targets
                                     tiny_mc_targets (of_ratio 1 1000) 100 0
                                     tiny_alloc inf)))) 0
            = Some c2
            /\ ltb eps (of_Z 6) = true
            /\ ltb (of_ratio 1 1000)
                   (relative_change (enrollment_est c2) (of_Z 6)) = true
            /\ ltb (relative_change (enrollment_est c2) (of_Z 6))
                   (of_ratio 1 1000) = false)
    kernels.
Proof. evaluated.
Qed.

(** The max change is not monotone along a run even when every cell is
    well above 1e-10: on [skewed_alloc] the first body has max change
    below 1 and the second one above 4, so with tolerance 1 the loop stops
    after one body although one more would move a cell by more than 1. *)
Lemma max_change_can_grow :
  Forall
    (fun array_sum : list f64 -> f64 =>
       ltb (delta_at array_sum skewed_ic_targets skewed_mc_targets
                     skewed_alloc 1) one = true
       /\ ltb (of_Z 4)
              (delta_at array_sum skewed_ic_targets skewed_mc_targets
                        skewed_alloc 2) = true
       /\ snd (ipf_loop array_sum skewed_ic_targets skewed_mc_targets one 100
                        0 skewed_alloc inf)
          = mkReport true 1
              (delta_at array_sum skewed_ic_targets skewed_mc_targets
                        skewed_alloc 1))
    kernels.
Proof. evaluated. Qed.


(** C9 as stated fails.  With the target -300 for insurer X in county A,
    [run_ipf] returns a table: Step A takes the cell of county A to -300,
    Step B sets it to a zero because its group sum is not above 1e-10, and
    the cell of county B ends at 450. *)
Lemma negative_target_is_absorbed :
  ltb (of_Z (-300)) zero = true
  /\ Forall
       (fun array_sum : list f64 -> f64 =>
          est_values (step_A array_sum [of_Z (-300); of_Z 500] sample_alloc)
          = [of_Z (-300); of_Z 500]
          /\ exists a,
               run_ipf array_sum sample_alloc negative_county_insurer
                       sample_county_metal 100 (of_ratio 1 1000)
               = Ok [mkCell 2020 "A" 1 "X" "HMO" "Bronze" a;
                     mkCell 2020 "B" 1 "X" "HMO" "Bronze" (of_Z 450)]
               /\ is_zero a = true)
       kernels.
Proof. evaluated.
Qed.

(** C10 as stated fails.  In [third_df] the cells 0.1 and 0.2 meet their
    insurer targets, so Step A leaves them as they are; their metal tier
    has the sum 0.30000000000000004 and the target 0.3.  After Step B the
    group sums to 0.29999999999999993 by either kernel, and the exact sum
    of its two cells is not the target either. *)
Lemma step_B_misses_mc_target :
  targets_of third_ic_lookup (map ic_key third_df)
  = Some [of_ratio 1 10; of_ratio 2 10]
  /\ targets_of third_mc_lookup (map mc_key third_df)
     = Some [of_ratio 3 10; of_ratio 3 10]
  /\ of_ratio 3 10 = S754_finite false 5404319552844595 (-54)
  /\ Forall
       (fun array_sum : list f64 -> f64 =>
          ltb eps
              (group_sum array_sum mc_key
                 (step_A array_sum [of_ratio 1 10; of_ratio 2 10] third_df)
                 ("Gold", "A")%string) = true
          /\ group_sum array_sum mc_key
               (after_iterations array_sum [of_ratio 1 10; of_ratio 2 10]
                                 [of_ratio 3 10; of_ratio 3 10] 1 third_df)
               ("Gold", "A")%string
             = S754_finite false 5404319552844594 (-54)
          /\ ~ Qsum (map to_Q
                       (est_values
                          (after_iterations array_sum
                             [of_ratio 1 10; of_ratio 2 10]
                             [of_ratio 3 10; of_ratio 3 10] 1 third_df)))
               == to_Q (of_ratio 3 10))
       kernels.
Proof. evaluated.
Qed.

(** ** The theorems at the sample inputs *)

(** C1 at the first row of [seven_df]: its group sums to 6, above 1e-10,
    and Step A multiplies the row by the double quotient 7 / 6. *)
Lemma scaling_step_applies_group_factor_witness :
  exists c',
    nth_error (step_A kahan_sum [of_Z 7; of_Z 7] seven_df) 0 = Some c'
    /\ enrollment_est c' = mul (of_Z 1) (div (of_Z 7) (of_Z 6)).
Proof.
  destruct (scaling_step_applies_group_factor kahan_sum seven_ic_lookup
              seven_mc_lookup seven_df [of_Z 7; of_Z 7] [of_Z 2; of_Z 5]
              eq_refl eq_refl seven_df 0
              (mkCell 2020 "A" 1 "X" "P1" "Gold" (of_Z 1))
              (reached_start kahan_sum _ _ _) eq_refl)
    as [[t [c' [Ht [Hc [_ [Habove _]]]]]] _].
  exists c'. split; [exact Hc|].
  injection Ht as <-. exact (Habove eq_refl).
Defined.

(** C2 at [tiny_alloc]: no prior estimate exceeds 1e-10, the max change is
    0 and the loop stops at the first body for the tolerance 0.001. *)
Lemma max_change_is_largest_relative_change_witness :
  snd (ipf_body kahan_sum tiny_ic_targets tiny_mc_targets tiny_alloc) = zero
  /\ converged
       (snd (ipf_loop kahan_sum tiny_ic_targets tiny_mc_targets
                      (of_ratio 1 1000) 100 0 tiny_alloc inf)) = true.
Proof.
  destruct (max_change_is_largest_relative_change kahan_sum tiny_ic_lookup
              tiny_mc_lookup tiny_alloc tiny_ic_targets tiny_mc_targets
              eq_refl eq_refl tiny_alloc (reached_start kahan_sum _ _ _))
    as [_ [_ [Hnone _]]].
  destruct (Hnone eq_refl) as [Hd Hloop].
  split; [exact Hd|].
  rewrite (proj1 (Hloop (of_ratio 1 1000) 99%nat 0%nat inf) eq_refl).
  reflexivity.
Defined.

Lemma sample_out_returned_f64 :
  run_ipf kahan_sum sample_alloc sample_county_insurer sample_county_metal
          100 (of_ratio 1 1000) = Ok sample_out.
Proof. vm_compute. reflexivity. Defined.

(** C3 at the sample: no estimate returned is below 0. *)
Lemma estimates_never_below_zero_witness :
  Forall (fun c => ltb (enrollment_est c) zero = false) sample_out.
Proof.
  destruct (proj2 (estimates_never_below_zero kahan_sum sample_alloc
                     sample_county_insurer sample_county_metal 100
                     (of_ratio 1 1000)
                     ltac:(evaluated) ltac:(evaluated) ltac:(evaluated))
                  sample_out sample_out_returned_f64)
    as [results [_ [_ H]]].
  exact H.
Defined.

(** C4 at the first row of [absorbed_df]: its key is absent from the
    lookup and Step A sets it to a zero. *)
Lemma zero_target_group_is_zeroed_witness :
  exists c1,
    nth_error (step_A kahan_sum [zero; of_ratio 1 1000000000] absorbed_df) 0
    = Some c1
    /\ is_zero (enrollment_est c1) = true.
Proof.
  destruct (proj2 (zero_target_group_is_zeroed kahan_sum absorbed_ic_lookup
                     absorbed_mc_lookup absorbed_df
                     [zero; of_ratio 1 1000000000]
                     [of_Z (10 ^ 300); of_Z (10 ^ 300)] eq_refl eq_refl)
                  absorbed_df 0%nat
                  (mkCell 2020 "A" 1 "X" "P1" "Gold" (of_Z 5)) zero
                  (reached_start kahan_sum _ _ _) eq_refl eq_refl eq_refl)
    as [[c1 [Hc [_ [Hfin _]]]] _].
  exists c1. split; [exact Hc|exact (Hfin eq_refl)].
Defined.

(** C6 at [tiny_alloc]: the converged table is the table after the first
    body. *)
Lemma last_iteration_within_tol_witness :
  fst (ipf_loop kahan_sum tiny_ic_targets tiny_mc_targets (of_ratio 1 1000)
                100 0 tiny_alloc inf)
  = fst (ipf_body kahan_sum tiny_ic_targets tiny_mc_targets tiny_alloc).
Proof.
  exact (proj1 (last_iteration_within_tol kahan_sum tiny_ic_lookup
                  tiny_mc_lookup tiny_alloc tiny_ic_targets tiny_mc_targets
                  (of_ratio 1 1000) 100 eq_refl eq_refl eq_refl)).
Defined.




Lemma negative_county_insurer_NoDup :
  NoDup (map margin_key negative_county_insurer).
Proof.
  repeat constructor.
  - intros [H|[]]. discriminate H.
  - intros [].
Defined.

Lemma sample_county_metal_NoDup : NoDup (map margin_key sample_county_metal).
Proof.
  repeat constructor.
  - intros [H|[]]. discriminate H.
  - intros [].
Defined.

Lemma sample_alloc_rows : sample_alloc <> [].
Proof. vm_compute. intro H. discriminate H. Defined.

(** C9 at the sample with the negative insurer target: a table comes
    back. *)
Lemma negative_targets_are_absorbed_witness :
  exists out,
    run_ipf kahan_sum sample_alloc negative_county_insurer
            sample_county_metal 100 (of_ratio 1 1000) = Ok out
    /\ Forall (fun c => ltb (enrollment_est c) zero = false) out.
Proof.
  exact (proj1 (negative_targets_are_absorbed kahan_sum sample_alloc
                  negative_county_insurer sample_county_metal 100
                  (of_ratio 1 1000) sample_alloc_rows
                  negative_county_insurer_NoDup sample_county_metal_NoDup)).
Defined.

(** C10 at [third_df]: both rows of the metal tier leave the first Step B
    multiplied by the same quotient. *)
Lemma step_B_scales_mc_groups_witness :
  exists t,
    series_get third_mc_lookup ("Gold", "A")%string zero = Some t
    /\ forall i c,
         nth_error (step_A kahan_sum [of_ratio 1 10; of_ratio 2 10] third_df)
                   i = Some c ->
         mc_key c = ("Gold", "A")%string ->
         exists c',
           nth_error (after_iterations kahan_sum
                        [of_ratio 1 10; of_ratio 2 10]
                        [of_ratio 3 10; of_ratio 3 10] 1 third_df) i
           = Some c'
           /\ key_columns c' = key_columns c
           /\ enrollment_est c'
              = mul (enrollment_est c)
                    (div t (group_sum kahan_sum mc_key
                              (step_A kahan_sum
                                 [of_ratio 1 10; of_ratio 2 10] third_df)
                              ("Gold", "A")%string)).
Proof.
  apply (proj2 (step_B_scales_mc_groups kahan_sum third_ic_lookup
                  third_mc_lookup third_df [of_ratio 1 10; of_ratio 2 10]
                  [of_ratio 3 10; of_ratio 3 10] eq_refl eq_refl 0)
               ("Gold", "A")%string).
  - vm_compute. reflexivity.
  - eexists. split; [left; reflexivity|]. reflexivity.
Defined.

(** X3 at the first row of [overflow_alloc], a zero: after Step A it is a
    zero or NaN. *)
Lemma zero_cell_is_zero_or_nan_witness :
  exists c',
    nth_error (step_A kahan_sum [of_Z (10 ^ 300); of_Z (10 ^ 300)]
                      overflow_alloc) 0 = Some c'
    /\ (is_zero (enrollment_est c') = true \/ enrollment_est c' = nan).
Proof.
  destruct (zero_cell_is_zero_or_nan kahan_sum
              (year_lookup overflow_county_insurer 2020)
              (year_lookup overflow_county_metal 2020) overflow_alloc
              [of_Z (10 ^ 300); of_Z (10 ^ 300)] [one; one] eq_refl eq_refl
              0 (mkCell 2020 "A" 1 "X" "P1" "Gold" zero) eq_refl eq_refl
              (step_A kahan_sum [of_Z (10 ^ 300); of_Z (10 ^ 300)]
                      overflow_alloc)
              (reached_A kahan_sum _ _ _ _ (reached_start kahan_sum _ _ _)))
    as [c' [Hc [_ Hv]]].
  exists c'. split; assumption.
Defined.

(** X16 at the sample with a duplicated insurer key: [run_ipf] raises. *)
Lemma run_ipf_raises_iff_witness :
  run_ipf kahan_sum sample_alloc duplicated_county_insurer
          sample_county_metal 100 (of_ratio 1 1000) = ValueError.
Proof.
  apply (proj2 (run_ipf_raises_iff kahan_sum sample_alloc
                  duplicated_county_insurer sample_county_metal 100
                  (of_ratio 1 1000) ltac:(lia))).
  right. exists (mkCell 2020 "A" 1 "X" "HMO" "Bronze"
                        (mul (of_Z 1000) (weight_of_count 2))).
  split; [left; reflexivity|]. left. vm_compute. apply le_n.
Defined.

Lemma forward_run_returned :
  for_years_on kahan_sum 0 1 2 100 (of_ratio 1 1000) [2020; 2021]%Z
               two_year_store []
  = Ok (fst forward_run, snd forward_run).
Proof. vm_compute. reflexivity. Defined.

Lemma backward_run_returned :
  for_years_on kahan_sum 0 1 2 100 (of_ratio 1 1000) [2021; 2020]%Z
               two_year_store []
  = Ok (fst backward_run, snd backward_run).
Proof. vm_compute. reflexivity. Defined.

(** C7 at the two years of [two_year_store]: the result of 2020, the
    first entry when 2020 is solved first, is found again, with the same
    rows and the same report, when 2021 is solved first. *)
Lemma years_share_no_state_witness :
  exists o2,
    In (2020%Z, o2, snd (nth 0 (snd forward_run)
                             (0%Z, 0%nat, mkReport false 0 inf)))
       (snd backward_run)
    /\ cells_at (fst backward_run) o2 = cells_at (fst forward_run) 3.
Proof.
  apply (proj2 (years_share_no_state kahan_sum two_year_store 0 1 2 100
                  (of_ratio 1 1000) [2020; 2021]%Z [2021; 2020]%Z
                  (fst forward_run) (fst backward_run) (snd forward_run)
                  (snd backward_run) ltac:(cbn; lia) ltac:(cbn; lia)
                  ltac:(cbn; lia) (perm_swap 2021%Z 2020%Z [])
                  forward_run_returned backward_run_returned)
               2020%Z 3%nat).
  vm_compute. left. reflexivity.
Defined.

(** X17 at [two_year_store]: the call returns and the allocation table it
    was given is as before. *)
Lemma run_ipf_leaves_arguments_witness :
  exists s' allocated,
    run_ipf_on kahan_sum 0 1 2 100 (of_ratio 1 1000) two_year_store
    = Ok (s', allocated)
    /\ load s' 0 = load two_year_store 0.
Proof.
  pose proof (run_ipf_leaves_arguments kahan_sum two_year_store 0 1 2 100
                (of_ratio 1 1000) ltac:(cbn; lia) ltac:(cbn; lia)
                ltac:(cbn; lia)) as H.
  destruct (run_ipf kahan_sum (cells_at two_year_store 0)
                    (margins_at two_year_store 1)
                    (margins_at two_year_store 2) 100 (of_ratio 1 1000))
    as [out|] eqn:E.
  - destruct H as [s' [allocated [H1 [_ [_ H4]]]]].
    exists s', allocated. split; [exact H1|]. apply H4. cbn. lia.
  - vm_compute in E. discriminate E.
Defined.
